(** * MCC voice loops: the loop controller (gui.py) and the relay bot
      (bot_server.py), embedded as functional programs.

    The controller keeps two dictionaries, [loop_states] and [bot_pool];
    every handler is a function on a world that holds them together with
    the two things the handlers touch outside themselves: the HTTP
    commands they post to the bots and the wall clock they read. *)

From stdpp Require Import gmap strings list.
From Stdlib Require Import ZArith QArith Lia Lqa SpecFloat.

Local Open Scope string_scope.
Local Open Scope Z_scope.

(** ** Data of gui.py *)

(** One entry of LOOPS (loaded from LOOPS/loops_<ROLE>.txt). *)
Record Loop := mkLoop {
  name : string;
  can_listen : bool;
  can_talk : bool
}.

(** One value of [self.bot_pool]. [last_used] is 0 at start and a
    [time.time()] reading afterwards. *)
Record BotEntry := mkBot {
  port : Z;
  assigned : option string;
  last_used : Q
}.

(** BOTS, as (name, port). *)
Definition BOTS : list (string * Z) :=
  [("BOT1", 6001); ("BOT2", 6002); ("BOT3", 6003)].

(** The routes of a bot's HTTP interface that the controller posts to. *)
Inductive Route :=
| Join (loop : string)
| Leave
| LeaveAfterDelay
| Talk
| Mute
| MuteAfterDelay
| DelayOn (seconds : Z)
| DelayOff.

(** What a handler sends out: an immediate [requests.post], or a
    [threading.Timer] that will post later. *)
Inductive Effect :=
| Post (p : Z) (r : Route)
| TimerPost (seconds : Z) (p : Z) (r : Route).

(** The fields of MainWindow that the handlers read and write.
    [bot_pool] is kept in insertion order, which is the order
    [dict.items()] yields and the order ties are broken in. *)
Record MainWindow := mkWin {
  delay_enabled : bool;
  delay_seconds : Z;
  loop_states : gmap string (Z * option string);
  bot_pool : list (string * BotEntry)
}.

(** A world: the window, the effects sent so far (oldest first), and the
    number of [time.time()] calls made so far. *)
Record World := mkWorld {
  self : MainWindow;
  outbox : list Effect;
  ticks : nat
}.

(** ** Dictionary helpers for [bot_pool] *)

Fixpoint pool_lookup (b : string) (pool : list (string * BotEntry))
  : option BotEntry :=
  match pool with
  | [] => None
  | (k, e) :: rest => if String.eqb k b then Some e else pool_lookup b rest
  end.

Fixpoint pool_alter (f : BotEntry -> BotEntry) (b : string)
    (pool : list (string * BotEntry)) : list (string * BotEntry) :=
  match pool with
  | [] => []
  | (k, e) :: rest =>
      if String.eqb k b then (k, f e) :: rest
      else (k, e) :: pool_alter f b rest
  end.

Definition set_assigned (v : option string) (e : BotEntry) : BotEntry :=
  mkBot (port e) v (last_used e).

Definition set_last_used (t : Q) (e : BotEntry) : BotEntry :=
  mkBot (port e) (assigned e) t.

(** Python truthiness of a bot name held in a variable that may be None:
    None and the empty string are falsy. *)
Definition truthy_name (o : option string) : option string :=
  match o with
  | Some s => if String.eqb s "" then None else Some s
  | None => None
  end.

(** ** _find_idle_bot *)

(** [list.sort(key=...)] is stable; insertion from the right is a stable
    sort, and any two stable sorts agree. *)
Fixpoint insert_by_last_used (x : string * BotEntry)
    (l : list (string * BotEntry)) : list (string * BotEntry) :=
  match l with
  | [] => [x]
  | y :: rest =>
      if Qle_bool (last_used (snd x)) (last_used (snd y))
      then x :: y :: rest
      else y :: insert_by_last_used x rest
  end.

Definition sort_by_last_used (l : list (string * BotEntry))
  : list (string * BotEntry) :=
  foldr insert_by_last_used [] l.

Definition is_idle (x : string * BotEntry) : bool :=
  match assigned (snd x) with None => true | Some _ => false end.

Definition _find_idle_bot (pool : list (string * BotEntry)) : option string :=
  let idle_bots := List.filter is_idle pool in
  match idle_bots with
  | [] => None
  | _ => match sort_by_last_used idle_bots with
         | [] => None
         | x :: _ => Some (fst x)
         end
  end.

(** Lines 338-340 of _update_bot_assignment: the state that is acted on,
    given the requested one. *)
Definition clamp_for (loop_cfg : Loop) (new_state : Z) : Z :=
  if can_listen loop_cfg && negb (can_talk loop_cfg)
  then (if 1 <? new_state then 0 else new_state)
  else new_state.

(** Lines 398-405 of on_loop_clicked: the state a click asks for. *)
Definition next_state (cfg : Loop) (old_state : Z) : Z :=
  if old_state =? 0 then 1
  else if old_state =? 1 then (if can_talk cfg then 2 else 1)
  else if old_state =? 2 then 1
  else 1.

(** ** Handlers, in a state-and-exception monad *)

(** [None] is an uncaught exception (a KeyError of a dictionary). *)
Definition M (A : Type) : Type := World -> option (A * World).

Definition ret {A} (a : A) : M A := fun w => Some (a, w).

Definition bind {A B} (m : M A) (k : A -> M B) : M B :=
  fun w => match m w with
           | Some (a, w') => k a w'
           | None => None
           end.

Notation "x <- m ;; k" := (bind m (fun x => k))
  (at level 100, m at next level, k at level 200, right associativity,
   only parsing).
Notation "m ;; k" := (bind m (fun _ => k))
  (at level 100, k at level 200, right associativity, only parsing).

Fixpoint for_each {A} (l : list A) (body : A -> M unit) : M unit :=
  match l with
  | [] => ret tt
  | x :: rest => body x ;; for_each rest body
  end.

Definition with_self (f : MainWindow -> MainWindow) : M unit :=
  fun w => Some (tt, mkWorld (f (self w)) (outbox w) (ticks w)).

(** [requests.post(...)]: the request goes out. An exception of the
    request itself ends the run (the handlers do not catch it), so every
    state that a later handler sees was produced by requests that
    returned. *)
Definition post (p : Z) (r : Route) : M unit :=
  fun w => Some (tt, mkWorld (self w) (outbox w ++ [Post p r]) (ticks w)).

Definition start_timer (seconds : Z) (p : Z) (r : Route) : M unit :=
  fun w => Some (tt, mkWorld (self w) (outbox w ++ [TimerPost seconds p r])
                        (ticks w)).

(** [self.loop_states[n]] *)
Definition get_loop_state (n : string) : M (Z * option string) :=
  fun w => match loop_states (self w) !! n with
           | Some v => Some (v, w)
           | None => None
           end.

(** [self.loop_states[n] = v] *)
Definition set_loop_state (n : string) (v : Z * option string) : M unit :=
  with_self (fun s => mkWin (delay_enabled s) (delay_seconds s)
                            (<[n := v]> (loop_states s)) (bot_pool s)).

(** [self.bot_pool[b]] *)
Definition get_bot (b : string) : M BotEntry :=
  fun w => match pool_lookup b (bot_pool (self w)) with
           | Some e => Some (e, w)
           | None => None
           end.

(** [self.bot_pool[b][field] = ...] *)
Definition update_bot (b : string) (f : BotEntry -> BotEntry) : M unit :=
  _ <- get_bot b ;;
  with_self (fun s => mkWin (delay_enabled s) (delay_seconds s)
                            (loop_states s) (pool_alter f b (bot_pool s))).

Definition get_delay_enabled : M bool :=
  fun w => Some (delay_enabled (self w), w).

Definition get_delay_seconds : M Z :=
  fun w => Some (delay_seconds (self w), w).

Definition find_idle_bot : M (option string) :=
  fun w => Some (_find_idle_bot (bot_pool (self w)), w).

Section Controller.

(** The loop catalogue of the role, and the clock: the n-th call of
    [time.time()] returns [clock n]. *)
Variable LOOPS : list Loop.
Variable clock : nat -> Q.

Definition time_time : M Q :=
  fun w => Some (clock (ticks w),
                 mkWorld (self w) (outbox w) (S (ticks w))).

(** [{loop["name"]: loop for loop in LOOPS}]: a later entry of the
    same name replaces an earlier one. *)
Definition loop_configs : gmap string Loop :=
  foldl (fun m loop => <[name loop := loop]> m) ∅ LOOPS.

Definition get_loop_config (n : string) : M Loop :=
  fun w => match loop_configs !! n with
           | Some c => Some (c, w)
           | None => None
           end.

(** MainWindow.__init__, the part the handlers depend on. *)
Definition init_window : MainWindow :=
  mkWin false 3
    (foldl (fun m loop => <[name loop := (0, None)]> m) ∅ LOOPS)
    (map (fun b => (fst b, mkBot (snd b) None 0%Q)) BOTS).

Definition init_world : World := mkWorld init_window [] 0.

(** _set_button_state reads [loop_states[loop_name]] and repaints a
    widget; the widgets are not part of the world. *)
Definition _set_button_state (loop_name : string) : M unit :=
  _ <- get_loop_state loop_name ;;
  ret tt.

(** Body of the loop of lines 363-376. *)
Definition demote_other (loop_name : string) (other_loop : Loop) : M unit :=
  let other_name := name other_loop in
  if String.eqb other_name loop_name then ret tt
  else
    entry <- get_loop_state other_name ;;
    let '(ostate, obot) := entry in
    match (if ostate =? 2 then truthy_name obot else None) with
    | Some obot =>
        e <- get_bot obot ;;
        let oport := port e in
        de <- get_delay_enabled ;;
        (if de then post oport MuteAfterDelay else post oport Mute) ;;
        set_loop_state other_name (1, Some obot) ;;
        now <- time_time ;;
        update_bot obot (set_last_used now) ;;
        _set_button_state other_name
    | None => ret tt
    end.

(** Lines 360-391: what _update_bot_assignment does once the bot of
    the loop is known. *)
Definition activate (loop_name : string) (old_state new_state : Z)
    (assigned_bot : string) : M unit :=
  e <- get_bot assigned_bot ;;
  let p := port e in
  (if new_state =? 2 then
     for_each LOOPS (demote_other loop_name) ;;
     post p (Join loop_name) ;;
     de <- get_delay_enabled ;;
     if de then
       ds <- get_delay_seconds ;;
       start_timer ds p Talk
     else post p Talk
   else if new_state =? 1 then
     de <- get_delay_enabled ;;
     if (old_state =? 2) && de then post p MuteAfterDelay
     else post p (Join loop_name) ;; post p Mute
   else ret tt) ;;
  update_bot assigned_bot (set_assigned (Some loop_name)) ;;
  now <- time_time ;;
  update_bot assigned_bot (set_last_used now) ;;
  set_loop_state loop_name (new_state, Some assigned_bot).

Definition _update_bot_assignment (loop_name : string) (new_state : Z)
  : M unit :=
  loop_cfg <- get_loop_config loop_name ;;
  entry <- get_loop_state loop_name ;;
  let '(old_state, old_bot) := entry in
  let assigned_bot := old_bot in
  let new_state := clamp_for loop_cfg new_state in
  if new_state =? 0 then
    match truthy_name old_bot with
    | Some old_bot =>
        e <- get_bot old_bot ;;
        let p := port e in
        de <- get_delay_enabled ;;
        (if de && (old_state =? 2) then post p LeaveAfterDelay
         else post p Leave ;; post p Mute) ;;
        update_bot old_bot (set_assigned None) ;;
        now <- time_time ;;
        update_bot old_bot (set_last_used now)
    | None => ret tt
    end ;;
    set_loop_state loop_name (0, None)
  else
    match truthy_name assigned_bot with
    | Some b => activate loop_name old_state new_state b
    | None =>
        found <- find_idle_bot ;;
        match truthy_name found with
        | None => ret tt
        | Some b =>
            update_bot b (set_assigned (Some loop_name)) ;;
            activate loop_name old_state new_state b
        end
    end.

Definition on_loop_clicked (loop_name : string) : M unit :=
  cfg <- get_loop_config loop_name ;;
  entry <- get_loop_state loop_name ;;
  let '(old_state, _) := entry in
  if negb (can_listen cfg) then ret tt
  else
    let new_state := next_state cfg old_state in
    _update_bot_assignment loop_name new_state ;;
    _set_button_state loop_name.

Definition on_loop_off_clicked (loop_name : string) : M unit :=
  _update_bot_assignment loop_name 0 ;;
  _set_button_state loop_name.

(** toggle_delay: the posts are inside try/except there. *)
Definition toggle_delay : M unit :=
  with_self (fun s => mkWin (negb (delay_enabled s)) (delay_seconds s)
                            (loop_states s) (bot_pool s)) ;;
  de <- get_delay_enabled ;;
  ds <- get_delay_seconds ;;
  fun w => for_each (bot_pool (self w))
             (fun b => if de then post (port (snd b)) (DelayOn ds)
                       else post (port (snd b)) DelayOff) w.

(** The operations of the controller and the states they reach. The
    other handlers of MainWindow (_poll_status, on_volume_changed,
    on_in_changed, on_out_changed) write neither [loop_states] nor
    [bot_pool]. *)
Inductive Op :=
| Click (loop_name : string)
| OffClick (loop_name : string)
| Update (loop_name : string) (new_state : Z)
| ToggleDelay.

Definition run_op (op : Op) : M unit :=
  match op with
  | Click n => on_loop_clicked n
  | OffClick n => on_loop_off_clicked n
  | Update n s => _update_bot_assignment n s
  | ToggleDelay => toggle_delay
  end.

Inductive reachable : World -> Prop :=
| reach_init : reachable init_world
| reach_step w op w' :
    reachable w -> run_op op w = Some (tt, w') -> reachable w'.

(** The world after a list of operations from the start; an operation
    that raises ends the run where it stands. *)
Fixpoint world_from (w : World) (ops : list Op) : World :=
  match ops with
  | [] => w
  | op :: rest =>
      match run_op op w with
      | Some (_, w') => world_from w' rest
      | None => w
      end
  end.

Definition world_after (ops : list Op) : World :=
  world_from init_world ops.

End Controller.

(** * The relay bot (bot_server.py) *)

Module BotServer.

(** ** Floats

    Python floats are IEEE binary64 and NumPy's float32 is binary32;
    both are [spec_float] values, with the operations of the standard
    library's specification of IEEE arithmetic at precision 53 or 24. *)

Definition f64_zero : spec_float := S754_zero false.
Definition f64_one : spec_float := S754_finite false 4503599627370496 (-52).

(** Python's [min(a, b)] and [max(a, b)]: the first argument is kept
    unless the second is strictly smaller (resp. greater), so a NaN in
    second place is never chosen. *)
Definition py_min (a b : spec_float) : spec_float :=
  if SFltb b a then b else a.

Definition py_max (a b : spec_float) : spec_float :=
  if SFltb a b then b else a.

(** [max(0.0, min(1.0, float(vol)))] *)
Definition clamp_volume (vol : spec_float) : spec_float :=
  py_max f64_zero (py_min f64_one vol).

(** A PCM chunk: the int16 samples that [np.frombuffer(pcm, int16)]
    reads from the bytes. *)
Definition Pcm := list Z.

Definition INT16_MIN : Z := -32768.
Definition INT16_MAX : Z := 32767.

(** [.astype(np.float32)] of an int16 *)
Definition f32_of_int16 (s : Z) : spec_float :=
  binary_normalize 24 128 s 0 false.

(** The binary32 value of a Python float, as NumPy takes a Python
    scalar into a float32 operation: rounded to nearest even. *)
Definition f32_of_f64 (v : spec_float) : spec_float :=
  match v with
  | S754_finite s m e => binary_round 24 128 s m e
  | _ => v
  end.

Definition f32_mul : spec_float -> spec_float -> spec_float :=
  SFmul 24 128.

(** [np.maximum], [np.minimum] and [np.clip] on float32: a NaN goes
    through, otherwise the comparison decides. *)
Definition np_maximum (a b : spec_float) : spec_float :=
  match a with
  | S754_nan => a
  | _ => if SFleb b a then a else b
  end.

Definition np_minimum (a b : spec_float) : spec_float :=
  match a with
  | S754_nan => a
  | _ => if SFleb a b then a else b
  end.

Definition np_clip (x lo hi : spec_float) : spec_float :=
  np_minimum (np_maximum x lo) hi.

(** The integer part of a float, towards zero; None for NaN and the
    infinities. *)
Definition trunc_float (x : spec_float) : option Z :=
  match x with
  | S754_zero _ => Some 0
  | S754_finite s m e =>
      let a := match e with
               | Zneg p => Z.shiftr (Zpos m) (Zpos p)
               | _ => Z.shiftl (Zpos m) e
               end in
      Some (if s then - a else a)
  | _ => None
  end.

(** [.astype(np.int16)] of a float32: the C conversion, defined when
    the integer part fits. *)
Definition astype_int16 (x : spec_float) : option Z :=
  match trunc_float x with
  | Some z => if (INT16_MIN <=? z) && (z <=? INT16_MAX) then Some z
              else None
  | None => None
  end.

(** Lines 229-231 of _playback_thread, for one sample. *)
Definition scale_sample (playback_volume : spec_float) (s : Z) : option Z :=
  let arr := f32_of_int16 s in
  let arr := f32_mul arr (f32_of_f64 playback_volume) in
  let arr := np_clip arr (f32_of_int16 (-32768)) (f32_of_int16 32767) in
  astype_int16 arr.

(** The volume law in the words of the specification:
    clamp(input_sample * volume, INT16_MIN, INT16_MAX), back to int16,
    the product being the binary32 one. *)
Definition clamp (x : spec_float) (lo hi : Z) : spec_float :=
  if SFltb x (f32_of_int16 lo) then f32_of_int16 lo
  else if SFltb (f32_of_int16 hi) x then f32_of_int16 hi
  else x.

Definition volume_law (volume : spec_float) (input_sample : Z) : option Z :=
  astype_int16
    (clamp (f32_mul (f32_of_int16 input_sample) (f32_of_f64 volume))
           INT16_MIN INT16_MAX).

Fixpoint scale_chunk (playback_volume : spec_float) (pcm : Pcm)
  : option Pcm :=
  match pcm with
  | [] => Some []
  | s :: rest =>
      match scale_sample playback_volume s, scale_chunk playback_volume rest with
      | Some z, Some zs => Some (z :: zs)
      | _, _ => None
      end
  end.

(** ** The bot

    The fields of LoopBot that the audio paths read and write; the
    status text and the user map of the channels are left out. *)

(** Where the thread of _delay_audio_worker stands: blocked in
    [queue.get()], holding the frame it got, or past the flag test and
    asleep until [wake_at]. *)
Inductive Worker :=
| Idle
| Holding (frame : Q * Pcm)
| Sleeping (frame : Q * Pcm) (wake_at : Q).

Record LoopBot := mkLoopBot {
  dev_in : Z;
  dev_out : Z;
  loop : option string;
  streaming : bool;
  _recv_q : list Pcm;
  playback_volume : spec_float;
  audio_delay_enabled : bool;
  audio_delay_seconds : Q;
  audio_delay_queue : list (Q * Pcm);
  (* outside the object *)
  worker : Worker;
  sound_output_ready : bool;      (* self.client and its sound_output *)
  sound_output : list Pcm;        (* chunks given to add_sound *)
  outstream : list Pcm            (* chunks written to the device *)
}.

(** LoopBot.__init__ *)
Definition init (DEFAULT_IN DEFAULT_OUT : Z) : LoopBot :=
  mkLoopBot DEFAULT_IN DEFAULT_OUT None false [] f64_one false 3 []
            Idle true [] [].

Definition set_streaming (v : bool) (b : LoopBot) : LoopBot :=
  mkLoopBot (dev_in b) (dev_out b) (loop b) v (_recv_q b)
    (playback_volume b) (audio_delay_enabled b) (audio_delay_seconds b)
    (audio_delay_queue b) (worker b) (sound_output_ready b)
    (sound_output b) (outstream b).

Definition set_loop (v : option string) (b : LoopBot) : LoopBot :=
  mkLoopBot (dev_in b) (dev_out b) v (streaming b) (_recv_q b)
    (playback_volume b) (audio_delay_enabled b) (audio_delay_seconds b)
    (audio_delay_queue b) (worker b) (sound_output_ready b)
    (sound_output b) (outstream b).

Definition set_devices (i o : Z) (b : LoopBot) : LoopBot :=
  mkLoopBot i o (loop b) (streaming b) (_recv_q b)
    (playback_volume b) (audio_delay_enabled b) (audio_delay_seconds b)
    (audio_delay_queue b) (worker b) (sound_output_ready b)
    (sound_output b) (outstream b).

Definition set_playback (q : list Pcm) (out : list Pcm) (b : LoopBot)
  : LoopBot :=
  mkLoopBot (dev_in b) (dev_out b) (loop b) (streaming b) q
    (playback_volume b) (audio_delay_enabled b) (audio_delay_seconds b)
    (audio_delay_queue b) (worker b) (sound_output_ready b)
    (sound_output b) out.

Definition set_playback_volume (v : spec_float) (b : LoopBot) : LoopBot :=
  mkLoopBot (dev_in b) (dev_out b) (loop b) (streaming b) (_recv_q b)
    v (audio_delay_enabled b) (audio_delay_seconds b)
    (audio_delay_queue b) (worker b) (sound_output_ready b)
    (sound_output b) (outstream b).

Definition set_delay (en : bool) (secs : Q) (q : list (Q * Pcm))
    (b : LoopBot) : LoopBot :=
  mkLoopBot (dev_in b) (dev_out b) (loop b) (streaming b) (_recv_q b)
    (playback_volume b) en secs q (worker b) (sound_output_ready b)
    (sound_output b) (outstream b).

Definition set_worker (wk : Worker) (b : LoopBot) : LoopBot :=
  mkLoopBot (dev_in b) (dev_out b) (loop b) (streaming b) (_recv_q b)
    (playback_volume b) (audio_delay_enabled b) (audio_delay_seconds b)
    (audio_delay_queue b) wk (sound_output_ready b)
    (sound_output b) (outstream b).

Definition set_ready (r : bool) (b : LoopBot) : LoopBot :=
  mkLoopBot (dev_in b) (dev_out b) (loop b) (streaming b) (_recv_q b)
    (playback_volume b) (audio_delay_enabled b) (audio_delay_seconds b)
    (audio_delay_queue b) (worker b) r (sound_output b) (outstream b).

(** [self.client.sound_output.add_sound(pcm)] *)
Definition add_sound (pcm : Pcm) (b : LoopBot) : LoopBot :=
  mkLoopBot (dev_in b) (dev_out b) (loop b) (streaming b) (_recv_q b)
    (playback_volume b) (audio_delay_enabled b) (audio_delay_seconds b)
    (audio_delay_queue b) (worker b) (sound_output_ready b)
    (sound_output b ++ [pcm]) (outstream b).

(** *** Methods *)

Definition enable_audio_delay (seconds : Q) (b : LoopBot) : LoopBot :=
  set_delay true seconds (audio_delay_queue b) b.

(** The flag goes off, then the queue is emptied chunk by chunk. *)
Definition disable_audio_delay (b : LoopBot) : LoopBot :=
  set_delay false (audio_delay_seconds b) [] b.

Definition join (loop_name : option string) (b : LoopBot) : LoopBot :=
  set_loop loop_name b.

Definition leave (b : LoopBot) : LoopBot := join None b.

Definition talk (b : LoopBot) : LoopBot := set_streaming true b.

Definition mute (b : LoopBot) : LoopBot := set_streaming false b.

Definition stop (b : LoopBot) : LoopBot := mute b.

Definition set_input (idx : Z) (b : LoopBot) : LoopBot :=
  set_devices idx (dev_out b) b.

Definition set_output (idx : Z) (b : LoopBot) : LoopBot :=
  set_devices (dev_in b) idx b.

Definition set_volume (vol : spec_float) (b : LoopBot) : LoopBot :=
  set_playback_volume (clamp_volume vol) b.

(** _mic_callback for a non-empty block, [t] being [time.time()]. *)
Definition _mic_callback (t : Q) (pcm : Pcm) (b : LoopBot) : LoopBot :=
  if audio_delay_enabled b then
    set_delay true (audio_delay_seconds b)
              (audio_delay_queue b ++ [(t, pcm)]) b
  else if streaming b && sound_output_ready b then add_sound pcm b
  else b.

(** _on_sound_received *)
Definition _on_sound_received (pcm : Pcm) (b : LoopBot) : LoopBot :=
  set_playback (_recv_q b ++ [pcm]) (outstream b) b.

(** One turn of the loop of _playback_thread. *)
Definition playback_turn (b : LoopBot) : option LoopBot :=
  match _recv_q b with
  | [] => None
  | pcm :: rest =>
      match scale_chunk (playback_volume b) pcm with
      | Some arr => Some (set_playback rest (outstream b ++ [arr]) b)
      | None => None
      end
  end.

(** _delay_audio_worker, one turn of its loop in three steps: the
    [get], the test of the flag with the computation of the wait, and
    what follows the sleep. *)
Definition worker_get (b : LoopBot) : option LoopBot :=
  match worker b, audio_delay_queue b with
  | Idle, frame :: rest =>
      Some (set_worker (Holding frame)
              (set_delay (audio_delay_enabled b) (audio_delay_seconds b)
                         rest b))
  | _, _ => None
  end.

Definition worker_check (t : Q) (b : LoopBot) : option LoopBot :=
  match worker b with
  | Holding (tstamp, pcm) =>
      if negb (audio_delay_enabled b) then Some (set_worker Idle b)
      else
        let wait_needed := (tstamp + audio_delay_seconds b - t)%Q in
        let wake_at :=
          if Qlt_le_dec 0 wait_needed then (t + wait_needed)%Q else t in
        Some (set_worker (Sleeping (tstamp, pcm) wake_at) b)
  | _ => None
  end.

Definition worker_wake (t : Q) (b : LoopBot) : option LoopBot :=
  match worker b with
  | Sleeping (tstamp, pcm) wake_at =>
      if Qle_bool wake_at t then
        Some (set_worker Idle
                (if streaming b && sound_output_ready b
                 then add_sound pcm b else b))
      else None
  | _ => None
  end.

(** *** What can happen to a bot, one step at a time *)

Inductive Event :=
| ev_join (loop_name : option string)
| ev_leave
| ev_talk
| ev_mute
| ev_stop
| ev_device_in (idx : Z)
| ev_device_out (idx : Z)
| ev_delay_on (seconds : Q)
| ev_delay_off
| ev_delayed_leave          (* the thread of /leave_after_delay wakes *)
| ev_delayed_mute           (* the thread of /mute_after_delay wakes *)
| ev_set_volume (vol : spec_float)
| ev_mic (t : Q) (pcm : Pcm)
| ev_sound_received (pcm : Pcm)
| ev_playback
| ev_worker_get
| ev_worker_check (t : Q)
| ev_worker_wake (t : Q)
| ev_sound_output (ready : bool).

Definition step (b : LoopBot) (ev : Event) : option LoopBot :=
  match ev with
  | ev_join l => Some (join l b)
  | ev_leave => Some (leave b)
  | ev_talk => Some (talk b)
  | ev_mute => Some (mute b)
  | ev_stop => Some (stop b)
  | ev_device_in i => Some (set_input i b)
  | ev_device_out i => Some (set_output i b)
  | ev_delay_on s => Some (enable_audio_delay s b)
  | ev_delay_off => Some (disable_audio_delay b)
  | ev_delayed_leave => Some (leave (mute b))
  | ev_delayed_mute => Some (mute b)
  | ev_set_volume v => Some (set_volume v b)
  | ev_mic t pcm => Some (_mic_callback t pcm b)
  | ev_sound_received pcm => Some (_on_sound_received pcm b)
  | ev_playback => playback_turn b
  | ev_worker_get => worker_get b
  | ev_worker_check t => worker_check t b
  | ev_worker_wake t => worker_wake t b
  | ev_sound_output r => Some (set_ready r b)
  end.

Fixpoint run (b : LoopBot) (evs : list Event) : option LoopBot :=
  match evs with
  | [] => Some b
  | ev :: rest =>
      match step b ev with
      | Some b' => run b' rest
      | None => None
      end
  end.

End BotServer.

(** * The rest of the controller (gui.py) *)

(** ** The grid of loop buttons (MainWindow.__init__, lines 193-206)

    [grid.addWidget(btn, row, col)] for each loop in turn; the column
    wraps after four buttons. *)
Fixpoint add_widgets (loops : list Loop) (row col : Z)
  : list (string * (Z * Z)) :=
  match loops with
  | [] => []
  | loop :: rest =>
      let col' := (col + 1) mod 4 in
      let row' := if col' =? 0 then row + 1 else row in
      (name loop, (row, col)) :: add_widgets rest row' col'
  end.

Definition button_grid (LOOPS : list Loop) : list (string * (Z * Z)) :=
  add_widgets LOOPS 0 0.

(** ** Requests of the other handlers *)

Inductive Request :=
| SetVolume (volume : spec_float)
| DeviceIn (device : Z)
| DeviceOut (device : Z).

(** LoopButtonWidget._slider_changed: [value / 100.0], the value being
    the int of the QSlider and the quotient a Python float (binary64). *)
Definition f64_of_int (k : Z) : spec_float := binary_normalize 53 1024 k 0 false.

Definition _slider_changed (value : Z) : spec_float :=
  SFdiv 53 1024 (f64_of_int value) (f64_of_int 100).

(** The range given to the slider: [setRange(20, 100)]. *)
Definition SLIDER_MIN : Z := 20.
Definition SLIDER_MAX : Z := 100.

(** on_volume_changed: the request it makes, if any (the post itself is
    inside a try/except). *)
Definition on_volume_changed (loop_name : string) (volume : spec_float)
  : M (list (Z * Request)) :=
  entry <- get_loop_state loop_name ;;
  match truthy_name (snd entry) with
  | Some bot_name =>
      e <- get_bot bot_name ;;
      ret [(port e, SetVolume volume)]
  | None => ret []
  end.

(** ** Requests to a bot that may not answer *)

Section Network.

(** [refused p]: nothing answers on port [p], so that a request to it
    raises. *)
Variable refused : Z -> bool.

(** A [for] loop of requests with a try/except around each one: the
    requests that are answered. *)
Definition each_guarded {R} (reqs : list (Z * R)) : list (Z * R) :=
  List.filter (fun x => negb (refused (fst x))) reqs.

(** A [for] loop of requests inside one try/except: the first request
    that raises ends the loop. *)
Fixpoint until_refused {R} (reqs : list (Z * R)) : list (Z * R) :=
  match reqs with
  | [] => []
  | x :: rest => if refused (fst x) then [] else x :: until_refused rest
  end.

(** on_in_changed and on_out_changed (lines 273-288), the requests that
    reach a bot. *)
Definition on_in_changed (idx : Z) (w : World) : list (Z * Request) :=
  each_guarded (map (fun bot => (port (snd bot), DeviceIn idx))
                    (bot_pool (self w))).

Definition on_out_changed (idx : Z) (w : World) : list (Z * Request) :=
  each_guarded (map (fun bot => (port (snd bot), DeviceOut idx))
                    (bot_pool (self w))).

(** toggle_delay (lines 231-241) when a bot may not answer. *)
Definition toggle_delay_guarded (w : World) : World :=
  let s := self w in
  let enabled := negb (delay_enabled s) in
  let reqs :=
    map (fun bot => (port (snd bot),
                     if enabled then DelayOn (delay_seconds s) else DelayOff))
        (bot_pool s) in
  mkWorld (mkWin enabled (delay_seconds s) (loop_states s) (bot_pool s))
          (outbox w ++ map (fun x => Post (fst x) (snd x)) (until_refused reqs))
          (ticks w).

End Network.

(** ** _poll_status (lines 311-323)

    [answer p] is what the GET of /status on port [p] comes to: None
    when the request or the decoding raises, otherwise the
    ["user_counts"] of the JSON object, if it has one. *)
Definition poll_bot (LOOPS : list Loop) (user_counts : gmap string Z)
    (answer : option (option (gmap string Z))) : gmap string Z :=
  match answer with
  | Some (Some counts) =>
      foldl (fun uc loop => <[name loop := default 0 (counts !! name loop)]> uc)
            user_counts LOOPS
  | _ => user_counts
  end.

Definition _poll_status (LOOPS : list Loop)
    (answer : Z -> option (option (gmap string Z)))
    (user_counts : gmap string Z) : M (gmap string Z) :=
  fun w =>
    let uc := foldl (fun uc bot => poll_bot LOOPS uc (answer (port (snd bot))))
                    user_counts (bot_pool (self w)) in
    (for_each LOOPS (fun loop => _set_button_state (name loop)) ;; ret uc) w.

(** [self.user_counts] of MainWindow.__init__ *)
Definition init_user_counts (LOOPS : list Loop) : gmap string Z :=
  foldl (fun m loop => <[name loop := 0]> m) ∅ LOOPS.

(** * The rest of the bot (bot_server.py) *)

Module BotApi.
Import BotServer.

(** ** The Mumble side: channels and users *)

(** An item of [self.client.channels] and a value of
    [self.client.users]. *)
Record Channel := mkChannel { cid : Z; ch_name : string }.
Record User := mkUser { user_name : string; channel_id : option Z }.

(** _update_user_map: [setdefault(ch_id, 0)] and [+= 1] for every user
    that has a channel. *)
Definition _update_user_map (users : list User) : gmap Z Z :=
  foldl (fun channel_users user =>
           match channel_id user with
           | Some ch_id =>
               <[ch_id := default 0 (channel_users !! ch_id) + 1]> channel_users
           | None => channel_users
           end) ∅ users.

(** get_channel_user_count: the first channel of that name decides. *)
Definition get_channel_user_count (channels : list Channel)
    (_users_by_channel : gmap Z Z) (name : string) : Z :=
  match List.find (fun ch => String.eqb (ch_name ch) name) channels with
  | Some ch => default 0 (_users_by_channel !! cid ch)
  | None => 0
  end.

(** The ['user_counts'] of report(): a later channel of the same name
    replaces an earlier one. *)
Definition report_user_counts (channels : list Channel)
    (_users_by_channel : gmap Z Z) : gmap string Z :=
  foldl (fun user_counts ch =>
           <[ch_name ch := default 0 (_users_by_channel !! cid ch)]> user_counts)
        ∅ channels.

(** _move_to_loop: the channel the bot moves into, if any. *)
Definition _move_to_loop (channels : list Channel) (loop : option string)
  : option Z :=
  let target := default "Root" (truthy_name loop) in
  cid <$> List.find (fun ch => String.eqb (ch_name ch) target) channels.

(** The wait of _connect_mumble (lines 191-195): [range(20)] tests of
    [connected], a sleep after each test that fails. [connected k] is
    what the test sees after [k] sleeps. The result is the number of
    sleeps, or None for the RuntimeError of the [else] branch. *)
Fixpoint wait_connected (connected : nat -> bool) (tests : nat) (slept : nat)
  : option nat :=
  match tests with
  | O => None
  | S tests' =>
      if connected slept then Some slept
      else wait_connected connected tests' (S slept)
  end.

Definition _connect_mumble (connected : nat -> bool) : option nat :=
  wait_connected connected 20 0.

(** ** The microphone block (lines 159-166)

    [(indata[:,0] * 32767).astype(np.int16)]: the samples are float32,
    the product is the float32 one, and the conversion takes the
    integer part. *)
Definition mic_sample (x : spec_float) : option Z :=
  astype_int16 (f32_mul x (f32_of_int16 32767)).

Fixpoint mic_pcm (indata : list spec_float) : option Pcm :=
  match indata with
  | [] => Some []
  | x :: rest =>
      match mic_sample x, mic_pcm rest with
      | Some z, Some zs => Some (z :: zs)
      | _, _ => None
      end
  end.

(** _mic_callback on a block of float32 samples. *)
Definition mic_block (t : Q) (indata : list spec_float) (b : LoopBot)
  : option LoopBot :=
  match indata with
  | [] => Some b
  | _ => match mic_pcm indata with
         | Some pcm => Some (_mic_callback t pcm b)
         | None => None
         end
  end.

(** ** The Flask views of the routes the controller posts to

    What the request does before it is answered, and the thread it
    leaves behind: the threads of /leave_after_delay and
    /mute_after_delay sleep [audio_delay_seconds] and then act as
    [ev_delayed_leave] and [ev_delayed_mute]. *)
Definition serve (r : Route) (b : LoopBot) : LoopBot * list Event :=
  match r with
  | Join l => (join (Some l) b, [])
  | Leave => (leave b, [])
  | LeaveAfterDelay => (b, [ev_delayed_leave])
  | Talk => (talk b, [])
  | Mute => (mute b, [])
  | MuteAfterDelay => (b, [ev_delayed_mute])
  | DelayOn seconds => (enable_audio_delay (inject_Z seconds) b, [])
  | DelayOff => (disable_audio_delay b, [])
  end.

Fixpoint serve_all (rs : list Route) (b : LoopBot) : LoopBot * list Event :=
  match rs with
  | [] => (b, [])
  | r :: rest =>
      let '(b1, t1) := serve r b in
      let '(b2, t2) := serve_all rest b1 in
      (b2, (t1 ++ t2)%list)
  end.

(** /set_volume: [float(request.json.get('volume', 1.0))]. *)
Definition serve_set_volume (volume : option spec_float) (b : LoopBot)
  : LoopBot :=
  set_volume (default f64_one volume) b.

(** /device_in and /device_out *)
Definition serve_request (r : Request) (b : LoopBot) : LoopBot :=
  match r with
  | SetVolume v => serve_set_volume (Some v) b
  | DeviceIn i => set_input i b
  | DeviceOut i => set_output i b
  end.

End BotApi.

(** * The vocabulary of the statements *)

Abbreviation ls w := (loop_states (self w)).
Abbreviation pool w := (bot_pool (self w)).

(** ** Controller *)

(** A pair of the pool with a least [last_used] in a list. *)
Definition least_in (x : string * BotEntry) (l : list (string * BotEntry)) :=
  x ∈ l /\ forall y, y ∈ l -> (last_used (snd x) <= last_used (snd y))%Q.

(** [wp m Q w]: from [w] the computation [m] returns, in a world and
    with a value that satisfy [Q]. *)
Definition wp {A} (m : M A) (Q : A -> World -> Prop) (w : World) : Prop :=
  exists a w', m w = Some (a, w') /\ Q a w'.

(** The entry of another loop after the pass: TALK with a bot becomes
    LISTEN with the same bot, anything else stays. *)
Definition demote_entry (v : Z * option string) : Z * option string :=
  match (if fst v =? 2 then truthy_name (snd v) else None) with
  | Some b => (1, Some b)
  | None => v
  end.

Arguments demote_entry : simpl never.

(** The pool after the pass has the same bots with the same ports and
    assignments: the pass only stamps [last_used]. *)
Definition same_assignment (p p' : list (string * BotEntry)) : Prop :=
  map fst p' = map fst p /\
  forall b, assigned <$> pool_lookup b p' = assigned <$> pool_lookup b p /\
            port <$> pool_lookup b p' = port <$> pool_lookup b p.

(** Every bot that some loop records is in the pool. *)
Definition bots_known (w : World) : Prop :=
  forall n st b, ls w !! n = Some (st, Some b) ->
                 is_Some (pool_lookup b (pool w)).

(** What the demotion pass makes of a world [w0]: the loop entries
    named in [names], other than [loop_name], are demoted. *)
Definition demoted (loop_name : string) (names : list string)
    (w0 w' : World) : Prop :=
  (forall n, ls w' !! n =
             if decide (n ∈ names /\ n <> loop_name)
             then demote_entry <$> ls w0 !! n else ls w0 !! n) /\
  same_assignment (pool w0) (pool w') /\
  delay_enabled (self w') = delay_enabled (self w0) /\
  delay_seconds (self w') = delay_seconds (self w0).

Section ControllerVocabulary.

Variable LOOPS : list Loop.

(** The three ways [_update_bot_assignment] ends. *)

(** The loop went OFF and its bot, if it had one, was released. *)
Definition released (loop_name : string) (ob : option string)
  (w w' : World) : Prop :=
ls w' = <[loop_name := (0, None)]> (ls w) /\
map fst (pool w') = map fst (pool w) /\
(forall b, assigned <$> pool_lookup b (pool w') =
           if decide (truthy_name ob = Some b)
           then Some None else assigned <$> pool_lookup b (pool w)) /\
delay_enabled (self w') = delay_enabled (self w) /\
delay_seconds (self w') = delay_seconds (self w) /\
(truthy_name ob = None ->
 pool w' = pool w /\ outbox w' = outbox w /\ ticks w' = ticks w).

(** The loop is in the non-OFF state [ns] on bot [b]; when [ns] is TALK
  the other loops were demoted first. *)
Definition activated (loop_name : string) (ns : Z) (b : string)
  (w w' : World) : Prop :=
(forall n, ls w' !! n =
           if decide (n = loop_name) then Some (ns, Some b)
           else if decide (ns = 2 /\ n ∈ map name LOOPS)
                then demote_entry <$> ls w !! n else ls w !! n) /\
map fst (pool w') = map fst (pool w) /\
(forall b', assigned <$> pool_lookup b' (pool w') =
            if decide (b' = b) then Some (Some loop_name)
            else assigned <$> pool_lookup b' (pool w)).

(** The invariant of the controller. *)

Record Inv (w : World) : Prop := mkInv {
inv_keys : map fst (pool w) = map fst BOTS;
inv_dom : forall n, is_Some (ls w !! n) <-> n ∈ map name LOOPS;
inv_loop : forall n st ob, ls w !! n = Some (st, ob) ->
  match ob with
  | None => st = 0
  | Some b => st <> 0 /\
              exists e, pool_lookup b (pool w) = Some e /\
                        assigned e = Some n
  end;
inv_bot : forall b e n, pool_lookup b (pool w) = Some e ->
  assigned e = Some n -> exists st, ls w !! n = Some (st, Some b);
inv_talk : forall n1 n2 b1 b2,
  ls w !! n1 = Some (2, b1) -> ls w !! n2 = Some (2, b2) -> n1 = n2
}.

(** How a call of [_update_bot_assignment] ended, seen from outside. *)
Definition outcome (loop_name : string) (ns : Z) (ob : option string)
  (w w' : World) : Prop :=
(ns = 0 /\ released loop_name ob w w') \/
(ns <> 0 /\ exists b,
   (ob = Some b \/ (ob = None /\ _find_idle_bot (pool w) = Some b)) /\
   activated loop_name ns b w w') \/
(ns <> 0 /\ ob = None /\ _find_idle_bot (pool w) = None /\ w' = w).

End ControllerVocabulary.

(** Four loops, [C] listen-only, and a clock that ticks by one. *)
Definition demo_loops : list Loop :=
  [mkLoop "A" true true; mkLoop "B" true true;
   mkLoop "C" true false; mkLoop "D" true true].

Definition demo_clock (n : nat) : Q := inject_Z (Z.of_nat (S n)).

(** A, then B, brought to TALK one after the other. *)
Definition talk_twice : World :=
  world_after demo_loops demo_clock
    [Click "A"; Click "A"; Click "B"; Click "B"].

(** A, B and C listening: the three bots are taken. *)
Definition all_taken : World :=
  world_after demo_loops demo_clock [Click "A"; Click "B"; Click "C"].

(** ** Bot *)

Module BotSpec.
Import BotServer.

(** 0.0 <= v <= 1.0, as the comparisons of IEEE floats decide it. *)
Definition in_unit (v : spec_float) : bool :=
SFleb f64_zero v && SFleb v f64_one.

(** 0.7 and 3.0 as binary64 floats. *)
Definition f64_0_7 : spec_float := S754_finite false 6305039478318694 (-53).
Definition f64_3 : spec_float := S754_finite false 6755399441055744 (-51).

(** The frame the worker has taken out of the queue, if any. *)
Definition held (wk : Worker) : list (Q * Pcm) :=
match wk with
| Idle => []
| Holding f => [f]
| Sleeping f _ => [f]
end.

(** The chunks waiting in the relay: the one held, then the queue. *)
Definition pending (b : LoopBot) : list Pcm :=
map snd (held (worker b) ++ audio_delay_queue b).

(** The chunks that the microphone delivers during the events. *)
Fixpoint captured (evs : list Event) : list Pcm :=
match evs with
| [] => []
| ev_mic _ pcm :: rest => pcm :: captured rest
| _ :: rest => captured rest
end.

(** The [streaming] flag after the events, from its value before. *)
Fixpoint streaming_after (s : bool) (evs : list Event) : bool :=
match evs with
| [] => s
| ev_talk :: rest => streaming_after true rest
| (ev_mute | ev_stop | ev_delayed_mute | ev_delayed_leave) :: rest =>
    streaming_after false rest
| _ :: rest => streaming_after s rest
end.

(** Scenario 3. *)

(** Delay of 3 s on, the bot talking. *)
Definition scenario3_start : LoopBot :=
talk (enable_audio_delay 3 (init 0 0)).

(** A frame captured at 10, taken by the worker, which goes to sleep
  until 13; the mute comes while it sleeps. *)
Definition scenario3_events : list Event :=
[ev_mic 10 [1; 2; 3]; ev_worker_get; ev_worker_check 10; ev_mute].

Definition scenario3_muted : LoopBot :=
default scenario3_start (run scenario3_start scenario3_events).

Definition scenario3_woken : LoopBot :=
default scenario3_muted (worker_wake 13%Q scenario3_muted).

(** Disabling with audio in flight. *)

(** Three frames captured; the worker sleeps on the first, two wait. *)
Definition in_flight : LoopBot :=
default scenario3_start
  (run scenario3_start
       [ev_mic 10 [1]; ev_mic 11 [2]; ev_mic 12 [3];
        ev_worker_get; ev_worker_check 12]).

Definition after_disable : list Event :=
[ev_worker_wake 13; ev_mic 14 [4]].

Definition in_flight_end : LoopBot :=
default in_flight (run (disable_audio_delay in_flight) after_disable).

Definition not_nan (x : spec_float) : Prop := x <> S754_nan.

Definition is_finite (x : spec_float) : bool :=
match x with
| S754_zero _ | S754_finite _ _ _ => true
| _ => false
end.

(** The mantissa of a finite float has at most 24 bits. *)
Definition bounded24 (x : spec_float) : Prop :=
match x with
| S754_finite _ m _ => Zpos m < 2 ^ 24
| _ => True
end.

End BotSpec.

(** * Vocabulary of the further statements *)

(** ** Worlds written out *)

Definition emit (effs : list Effect) (w : World) : World :=
  mkWorld (self w) (outbox w ++ effs) (ticks w).

Definition read_clock (w : World) : World :=
  mkWorld (self w) (outbox w) (S (ticks w)).

Definition write_loop (n : string) (v : Z * option string) (w : World)
  : World :=
  mkWorld (mkWin (delay_enabled (self w)) (delay_seconds (self w))
                 (<[n := v]> (ls w)) (pool w))
          (outbox w) (ticks w).

Definition write_bot (b : string) (f : BotEntry -> BotEntry) (w : World)
  : World :=
  mkWorld (mkWin (delay_enabled (self w)) (delay_seconds (self w))
                 (ls w) (pool_alter f b (pool w)))
          (outbox w) (ticks w).

(** The world after the demotion of loop [m], talking on bot [b] behind
    port [p]. *)
Definition demoted_world (clock : nat -> Q) (m b : string) (p : Z)
    (w : World) : World :=
  write_bot b (set_last_used (clock (ticks w)))
    (read_clock
       (write_loop m (1, Some b)
          (emit [Post p (if delay_enabled (self w) then MuteAfterDelay
                         else Mute)] w))).

(** The last lines of _update_bot_assignment (389-391) from [w]. *)
Definition settled_world (clock : nat -> Q) (n : string) (ns : Z)
    (b : string) (w : World) : World :=
  write_loop n (ns, Some b)
    (write_bot b (set_last_used (clock (ticks w)))
       (read_clock (write_bot b (set_assigned (Some n)) w))).

(** The world after the release of bot [b], behind port [p], by loop
    [n] that was in state [st]. *)
Definition released_world (clock : nat -> Q) (n : string) (st : Z)
    (b : string) (p : Z) (w : World) : World :=
  write_loop n (0, None)
    (write_bot b (set_last_used (clock (ticks w)))
       (read_clock
          (write_bot b (set_assigned None)
             (emit (if delay_enabled (self w) && (st =? 2)
                    then [Post p LeaveAfterDelay]
                    else [Post p Leave; Post p Mute]) w)))).

(** The commands of lines 362-387 for state [ns], to port [p]. *)
Definition commands (n : string) (old_state ns : Z) (p : Z) (w : World)
  : list Effect :=
  if ns =? 2 then
    [Post p (Join n);
     if delay_enabled (self w) then TimerPost (delay_seconds (self w)) p Talk
     else Post p Talk]
  else if ns =? 1 then
    if (old_state =? 2) && delay_enabled (self w) then [Post p MuteAfterDelay]
    else [Post p (Join n); Post p Mute]
  else [].

(** ** Operations *)

(** The loop an operation is about. *)
Definition op_loop (op : Op) : option string :=
  match op with
  | Click n | OffClick n | Update n _ => Some n
  | ToggleDelay => None
  end.

(** The operation names a loop of LOOPS, if it names one at all. *)
Definition op_known (LOOPS : list Loop) (op : Op) : Prop :=
  forall n, op_loop op = Some n -> n ∈ map name LOOPS.

(** The operations that the widgets of the window trigger. *)
Definition gui_op (op : Op) : Prop :=
  match op with
  | Update _ _ => False
  | _ => True
  end.

(** The operations that ask for state 0 on loop [n]: the OFF button of
    [n], and a call of _update_bot_assignment on [n] whose state is 0
    after the clamp of lines 338-340. *)
Definition gives_back (LOOPS : list Loop) (op : Op) (n : string) : Prop :=
  match op with
  | OffClick m => m = n
  | Update m s =>
      m = n /\
      exists cfg, loop_configs LOOPS !! n = Some cfg /\ clamp_for cfg s = 0
  | _ => False
  end.

(** C listens on BOT1. *)
Definition c_listens : World := world_after demo_loops demo_clock [Click "C"].

(** ** What a call of _update_bot_assignment sends *)

(** The command that silences a talking bot. *)
Definition mute_command (w : World) : Route :=
  if delay_enabled (self w) then MuteAfterDelay else Mute.

(** The pass of lines 363-376 for loop [n], seen from outside: nothing
    when no other loop talks, otherwise one command to the bot of the
    loop that talks, which is left in LISTEN. *)
Definition demotion (n : string) (w : World) (sent : list Effect)
    (states : gmap string (Z * option string)) : Prop :=
  ((forall m ob, m <> n -> ls w !! m <> Some (2, ob)) /\
   sent = [] /\ states = ls w) \/
  (exists m bm em,
     m <> n /\ ls w !! m = Some (2, Some bm) /\
     pool_lookup bm (pool w) = Some em /\
     sent = [Post (port em) (mute_command w)] /\
     states = <[m := (1, Some bm)]> (ls w)).

(** The pool keeps its bots and their ports. *)
Definition same_ports (p p' : list (string * BotEntry)) : Prop :=
  map fst p' = map fst p /\
  forall b, port <$> pool_lookup b p' = port <$> pool_lookup b p.

(** A command that is not about the delay mode. *)
Definition not_delay_command (eff : Effect) : Prop :=
  match eff with
  | Post _ (DelayOn _ | DelayOff) | TimerPost _ _ (DelayOn _ | DelayOff) => False
  | _ => True
  end.

(** What a handler other than toggle_delay leaves alone: the pool keeps
    its bots and their ports, the delay settings stay, and what is sent
    is not about the delay mode. *)
Definition frame (w w' : World) : Prop :=
  same_ports (pool w) (pool w') /\
  delay_enabled (self w') = delay_enabled (self w) /\
  delay_seconds (self w') = delay_seconds (self w) /\
  exists sent, outbox w' = (outbox w ++ sent)%list /\
               Forall not_delay_command sent.

(** Every run of [m] that returns is in relation [R]. *)
Definition keeps (R : World -> World -> Prop) {A} (m : M A) : Prop :=
  forall w a w', m w = Some (a, w') -> R w w'.

(** The requests that port [p] has received at once (a timer has not
    fired yet). *)
Definition requests_to (p : Z) (out : list Effect) : list Route :=
  omap (fun eff => match eff with
                   | Post q r => if q =? p then Some r else None
                   | TimerPost _ _ _ => None
                   end) out.

(** The bot behind port [p] once it has served them, started with the
    devices [d_in] and [d_out]. *)
Definition bot_behind (p : Z) (out : list Effect) (d_in d_out : Z)
  : BotServer.LoopBot :=
  fst (BotApi.serve_all (requests_to p out) (BotServer.init d_in d_out)).

(** ** Runs of the four demo loops *)

(** A talks on BOT1 and B listens on BOT2. *)
Definition b_listens : World :=
  world_after demo_loops demo_clock [Click "A"; Click "A"; Click "B"].

(** Delay mode; A talks on BOT1, B and C listen on BOT2 and BOT3. *)
Definition delayed_full : World :=
  world_after demo_loops demo_clock
    [ToggleDelay; Click "A"; Click "A"; Click "B"; Click "C"].

(** ** The controller's picture of a bot, and the bot's own state *)

(** The operations of the two buttons of a loop. *)
Definition click_op (op : Op) : Prop :=
  match op with
  | Click _ | OffClick _ => True
  | _ => False
  end.

(** A request that is served on the spot. *)
Definition at_once (eff : Effect) : Prop :=
  match eff with
  | Post _ (Join _ | Leave | Talk | Mute) => True
  | _ => False
  end.

(** Whether the loop a pool entry is assigned to is in TALK. *)
Definition talks (w : World) (e : BotEntry) : bool :=
  match assigned e with
  | Some n => bool_decide (fst <$> ls w !! n = Some 2)
  | None => false
  end.

(** The loop and the [streaming] flag that the window expects of the
    bot of a pool entry. *)
Definition expected (w : World) (e : BotEntry) : option string * bool :=
  (assigned e, talks w e).

(** The loop and the [streaming] flag of a bot. *)
Definition seen (bot : BotServer.LoopBot) : option string * bool :=
  (BotServer.loop bot, BotServer.streaming bot).

(** What served requests make of them. *)
Fixpoint follow (rs : list Route) (v : option string * bool)
  : option string * bool :=
  match rs with
  | [] => v
  | Join l :: rest => follow rest (Some l, snd v)
  | Leave :: rest => follow rest (None, snd v)
  | Talk :: rest => follow rest (fst v, true)
  | Mute :: rest => follow rest (fst v, false)
  | _ :: rest => follow rest v
  end.

(** Every bot of the pool is a bot of BOTS, on its port. *)
Definition ports_known (w : World) : Prop :=
  forall b e, pool_lookup b (pool w) = Some e -> (b, port e) ∈ BOTS.

(** The bots, started with devices [d_in] and [d_out], are as the
    window expects them. *)
Definition views (d_in d_out : Z) (w : World) : Prop :=
  forall b e, pool_lookup b (pool w) = Some e ->
    seen (bot_behind (port e) (outbox w) d_in d_out) = expected w e.

(** ** The window's other handlers *)

(** The counts of the last bot of the pool that answered with a
    ["user_counts"]. *)
Definition last_counts (answer : Z -> option (option (gmap string Z)))
    (bots : list (string * BotEntry)) : option (gmap string Z) :=
  last (omap (fun bot => match answer (port (snd bot)) with
                         | Some (Some counts) => Some counts
                         | _ => None
                         end) bots).

(** ** The bot's audio paths *)

Module BotWords.
Import BotServer BotSpec.

(** The chunks that Mumble delivers during the events. *)
Fixpoint received (evs : list Event) : list Pcm :=
  match evs with
  | [] => []
  | ev_sound_received pcm :: rest => pcm :: received rest
  | _ :: rest => received rest
  end.

(** An event that switches the delay mode. *)
Definition delay_switch (ev : Event) : bool :=
  match ev with
  | ev_delay_on _ | ev_delay_off => true
  | _ => false
  end.

(** The relay is in one mode: delayed, or live with nothing left of an
    earlier delay. *)
Definition one_mode (b : LoopBot) : Prop :=
  audio_delay_enabled b = true \/
  (audio_delay_enabled b = false /\ pending b = []).

(** Delay on and the bot talking: a chunk is captured, the worker takes
    it and goes to sleep; the delay is switched off, a second chunk is
    captured and goes out at once; then the worker wakes. *)
Definition overtaking : list Event :=
  [ev_mic 10 [1]; ev_worker_get; ev_worker_check 10; ev_delay_off;
   ev_mic 11 [2]; ev_worker_wake 13].

(** The number of users that are in channel [c]. *)
Definition users_in (c : Z) (users : list BotApi.User) : Z :=
  Z.of_nat (length (List.filter
                      (fun u => bool_decide (BotApi.channel_id u = Some c))
                      users)).

(** The channel name that _move_to_loop looks for. *)
Definition target_of (loop : option string) : string :=
  match loop with
  | Some l => if String.eqb l "" then "Root" else l
  | None => "Root"
  end.

End BotWords.

(** ** The size of a binary32 number *)

Module FloatWords.
Import BotServer.

(** [m * 2^e <= N], written without fractions. *)
Definition below (m e N : Z) : Prop :=
  m * 2 ^ Z.max e 0 <= N * 2 ^ Z.max (- e) 0.

(** A zero or a finite number of sign [sx] whose magnitude is at most
    [N]. *)
Definition within (x : spec_float) (sx : bool) (N : Z) : Prop :=
  match x with
  | S754_zero s => s = sx
  | S754_finite s m e => s = sx /\ below (Zpos m) e N
  | _ => False
  end.

(** The sign of a float, NaN apart. *)
Definition sign_of (x : spec_float) : bool :=
  match x with
  | S754_zero s | S754_infinity s | S754_finite s _ _ => s
  | S754_nan => false
  end.

(** 1.0 and -1.0 as float32: the bounds of the samples of a float32
    input stream. *)
Definition f32_one : spec_float := f32_of_int16 1.
Definition f32_minus_one : spec_float := f32_of_int16 (-1).

Definition in_range32 (x : spec_float) : bool :=
  SFleb f32_minus_one x && SFleb x f32_one.

End FloatWords.

(** ** Facts about the pool dictionary *)

Lemma pool_lookup_alter_eq f b pool :
  pool_lookup b (pool_alter f b pool) = f <$> pool_lookup b pool.
Proof.
  induction pool as [|[k e] rest IH]; simpl; [done|].
  destruct (String.eqb k b) eqn:E; simpl; rewrite E; done.
Qed.

Lemma pool_lookup_alter_ne f b b' pool :
  b ≠ b' -> pool_lookup b' (pool_alter f b pool) = pool_lookup b' pool.
Proof.
  intros Hne. induction pool as [|[k e] rest IH]; simpl; [done|].
  destruct (String.eqb k b) eqn:E; simpl.
  - apply String.eqb_eq in E. subst k.
    destruct (String.eqb b b') eqn:E'; [|done].
    apply String.eqb_eq in E'. congruence.
  - rewrite IH. done.
Qed.

Lemma pool_alter_keys f b pool :
  map fst (pool_alter f b pool) = map fst pool.
Proof.
  induction pool as [|[k e] rest IH]; simpl; [done|].
  destruct (String.eqb k b); simpl; congruence.
Qed.

Lemma pool_lookup_elem b e pool :
  pool_lookup b pool = Some e -> (b, e) ∈ pool.
Proof.
  induction pool as [|[k e'] rest IH]; simpl; [done|].
  destruct (String.eqb k b) eqn:E.
  - apply String.eqb_eq in E. intros [= ->]. subst. left.
  - intros H. right. auto.
Qed.

Lemma pool_lookup_key b e pool :
  pool_lookup b pool = Some e -> b ∈ map fst pool.
Proof.
  intros H. apply pool_lookup_elem in H.
  apply (list_elem_of_fmap_2 fst) in H. exact H.
Qed.

Lemma pool_elem_lookup b e pool :
  NoDup (map fst pool) -> (b, e) ∈ pool -> pool_lookup b pool = Some e.
Proof.
  induction pool as [|[k e'] rest IH]; simpl; intros Hnd Hin.
  - inversion Hin.
  - apply NoDup_cons in Hnd as [Hk Hnd].
    apply elem_of_cons in Hin as [[= -> ->]|Hin].
    + rewrite String.eqb_refl. done.
    + destruct (String.eqb k b) eqn:E.
      * apply String.eqb_eq in E. subst k. exfalso. apply Hk.
        apply (list_elem_of_fmap_2 fst) in Hin. exact Hin.
      * auto.
Qed.

(** ** The stable sort puts a least [last_used] first *)

Lemma insert_nonempty x l : insert_by_last_used x l <> [].
Proof. destruct l; simpl; [done|]. destruct (Qle_bool _ _); done. Qed.

Lemma sort_nonempty a l : sort_by_last_used (a :: l) <> [].
Proof. apply insert_nonempty. Qed.

Lemma sort_head_least l h t :
  sort_by_last_used l = h :: t -> least_in h l.
Proof.
  revert h t. induction l as [|a l IH]; intros h t; [done|].
  change (sort_by_last_used (a :: l))
    with (insert_by_last_used a (sort_by_last_used l)).
  destruct (sort_by_last_used l) as [|h0 t0] eqn:Hl; simpl.
  - intros [= <- <-]. destruct l as [|b l'].
    + split; [left|]. intros y Hy. apply list_elem_of_singleton in Hy as ->.
      apply Qle_refl.
    + by apply sort_nonempty in Hl.
  - destruct (IH h0 t0 eq_refl) as [Hin Hmin].
    destruct (Qle_bool _ _) eqn:E; intros [= <- <-].
    + apply Qle_bool_iff in E. split; [left|].
      intros y [->|Hy]%elem_of_cons; [apply Qle_refl|].
      eapply Qle_trans; [exact E|]. auto.
    + split; [by right|].
      intros y [->|Hy]%elem_of_cons; [|auto].
      apply Qlt_le_weak, Qnot_le_lt. intros Hle.
      apply Qle_bool_iff in Hle. congruence.
Qed.

Lemma elem_of_filter_idle x pool :
  x ∈ List.filter is_idle pool <-> x ∈ pool /\ assigned (snd x) = None.
Proof.
  rewrite !list_elem_of_In, filter_In. unfold is_idle.
  destruct (assigned (snd x)); intuition congruence.
Qed.

(** [_find_idle_bot] returns an unassigned bot whose [last_used] is
    least among the unassigned ones. *)
Lemma find_idle_Some pool b :
  _find_idle_bot pool = Some b ->
  exists e, (b, e) ∈ pool /\ assigned e = None /\
    forall b' e', (b', e') ∈ pool -> assigned e' = None ->
                  (last_used e <= last_used e')%Q.
Proof.
  unfold _find_idle_bot.
  destruct (List.filter is_idle pool) as [|a l] eqn:Hf; [done|].
  destruct (sort_by_last_used (a :: l)) as [|[b0 e] t] eqn:Hs; [done|].
  intros [= <-]. apply sort_head_least in Hs as [Hin Hmin].
  rewrite <- Hf in Hin, Hmin.
  apply elem_of_filter_idle in Hin as [Hin Hidle]. simpl in *.
  exists e. split; [done|]. split; [done|].
  intros b' e' Hin' Hidle'.
  apply (Hmin (b', e')). apply elem_of_filter_idle. done.
Qed.

Lemma find_idle_None pool :
  _find_idle_bot pool = None <->
  forall b e, (b, e) ∈ pool -> assigned e <> None.
Proof.
  unfold _find_idle_bot.
  destruct (List.filter is_idle pool) as [|a l] eqn:Hf.
  - split; [|done]. intros _ b e Hin Hidle.
    assert (H : (b, e) ∈ List.filter is_idle pool)
      by (apply elem_of_filter_idle; done).
    rewrite Hf in H. inversion H.
  - pose proof (sort_nonempty a l) as Hne.
    destruct (sort_by_last_used (a :: l)) as [|x t] eqn:Hs; [done|].
    split; [done|]. intros Hall. exfalso.
    assert (Ha : a ∈ List.filter is_idle pool) by (rewrite Hf; left).
    apply elem_of_filter_idle in Ha as [Ha Hidle].
    destruct a as [b e]. exact (Hall b e Ha Hidle).
Qed.

(** ** Running the monad *)

Lemma wp_elim {A} (m : M A) Q w a w' :
  wp m Q w -> m w = Some (a, w') -> Q a w'.
Proof. intros (a0 & w0 & H & HQ) H'. congruence. Qed.

Lemma bind_inv {A B} (m : M A) (k : A -> M B) w r :
  bind m k w = Some r ->
  exists a w1, m w = Some (a, w1) /\ k a w1 = Some r.
Proof.
  unfold bind. destruct (m w) as [[a w1]|]; [|done]. eauto.
Qed.

Lemma wp_mono {A} (m : M A) (Q Q' : A -> World -> Prop) w :
  (forall a w', Q a w' -> Q' a w') -> wp m Q w -> wp m Q' w.
Proof. intros HQ (a & w' & H & Hq). exists a, w'. auto. Qed.

Lemma wp_ret {A} (a : A) Q w : Q a w -> wp (ret a) Q w.
Proof. intros H. exists a, w. done. Qed.

Lemma wp_bind {A B} (m : M A) (k : A -> M B) Q w :
  wp m (fun a w1 => wp (k a) Q w1) w -> wp (bind m k) Q w.
Proof.
  intros (a & w1 & Hm & b & w2 & Hk & HQ). exists b, w2.
  unfold bind. rewrite Hm. done.
Qed.

Lemma wp_post p r Q w :
  Q tt (mkWorld (self w) (outbox w ++ [Post p r]) (ticks w)) ->
  wp (post p r) Q w.
Proof. intros H. eexists _, _. split; [reflexivity|done]. Qed.

Lemma wp_start_timer s p r Q w :
  Q tt (mkWorld (self w) (outbox w ++ [TimerPost s p r]) (ticks w)) ->
  wp (start_timer s p r) Q w.
Proof. intros H. eexists _, _. split; [reflexivity|done]. Qed.

Lemma wp_with_self f Q w :
  Q tt (mkWorld (f (self w)) (outbox w) (ticks w)) -> wp (with_self f) Q w.
Proof. intros H. eexists _, _. split; [reflexivity|done]. Qed.

Lemma wp_set_loop_state n v Q w :
  Q tt (mkWorld (mkWin (delay_enabled (self w)) (delay_seconds (self w))
                   (<[n := v]> (ls w)) (pool w)) (outbox w) (ticks w)) ->
  wp (set_loop_state n v) Q w.
Proof. intros H. eexists _, _. split; [reflexivity|done]. Qed.

Lemma wp_get_loop_state n v Q w :
  ls w !! n = Some v -> Q v w -> wp (get_loop_state n) Q w.
Proof.
  intros H HQ. exists v, w. unfold get_loop_state. rewrite H. done.
Qed.

Lemma wp_get_bot b e Q w :
  pool_lookup b (pool w) = Some e -> Q e w -> wp (get_bot b) Q w.
Proof. intros H HQ. exists e, w. unfold get_bot. rewrite H. done. Qed.

Lemma wp_update_bot b e f Q w :
  pool_lookup b (pool w) = Some e ->
  Q tt (mkWorld (mkWin (delay_enabled (self w)) (delay_seconds (self w))
                   (ls w) (pool_alter f b (pool w))) (outbox w) (ticks w)) ->
  wp (update_bot b f) Q w.
Proof.
  intros H HQ. apply wp_bind. eapply wp_get_bot; [exact H|].
  eexists _, _. split; [reflexivity|done].
Qed.

Lemma wp_get_delay_enabled Q w :
  Q (delay_enabled (self w)) w -> wp get_delay_enabled Q w.
Proof. intros H. eexists _, _. split; [reflexivity|done]. Qed.

Lemma wp_get_delay_seconds Q w :
  Q (delay_seconds (self w)) w -> wp get_delay_seconds Q w.
Proof. intros H. eexists _, _. split; [reflexivity|done]. Qed.

Lemma wp_find_idle_bot Q w :
  Q (_find_idle_bot (pool w)) w -> wp find_idle_bot Q w.
Proof. intros H. eexists _, _. split; [reflexivity|done]. Qed.

Lemma wp_time_time clock Q w :
  Q (clock (ticks w)) (mkWorld (self w) (outbox w) (S (ticks w))) ->
  wp (time_time clock) Q w.
Proof. intros H. eexists _, _. split; [reflexivity|done]. Qed.

Ltac wp_step :=
  lazymatch goal with
  | |- wp (bind _ _) _ _ => apply wp_bind
  | |- wp (ret _) _ _ => apply wp_ret
  | |- wp (post _ _) _ _ => apply wp_post
  | |- wp (start_timer _ _ _) _ _ => apply wp_start_timer
  | |- wp (set_loop_state _ _) _ _ => apply wp_set_loop_state
  | |- wp (with_self _) _ _ => apply wp_with_self
  | |- wp get_delay_enabled _ _ => apply wp_get_delay_enabled
  | |- wp get_delay_seconds _ _ => apply wp_get_delay_seconds
  | |- wp find_idle_bot _ _ => apply wp_find_idle_bot
  | |- wp (time_time _) _ _ => apply wp_time_time
  end; cbn [self outbox ticks loop_states bot_pool delay_enabled
            delay_seconds].

Ltac wp_steps := repeat wp_step.

Arguments truthy_name : simpl never.

(** ** What one pass of the demotion loop does *)

Lemma truthy_name_Some o b : truthy_name o = Some b -> o = Some b /\ b <> "".
Proof.
  unfold truthy_name. destruct o as [s|]; [|done].
  destruct (String.eqb s "") eqn:E; [done|]. intros [= ->].
  split; [done|]. intros ->. done.
Qed.

Lemma truthy_name_nonempty b : b <> "" -> truthy_name (Some b) = Some b.
Proof.
  intros H. unfold truthy_name. destruct (String.eqb b "") eqn:E; [|done].
  apply String.eqb_eq in E. done.
Qed.

Lemma demote_entry_talk b :
  b <> "" -> demote_entry (2, Some b) = (1, Some b).
Proof.
  intros Hb. unfold demote_entry. cbn [fst snd Z.eqb Pos.eqb].
  rewrite (truthy_name_nonempty _ Hb). done.
Qed.

Lemma demote_entry_bot v : snd (demote_entry v) = snd v.
Proof.
  unfold demote_entry. destruct v as [st ob]; simpl.
  destruct (st =? 2); [|done].
  destruct (truthy_name ob) eqn:E; [|done].
  apply truthy_name_Some in E as [-> _]. done.
Qed.

Lemma demote_entry_idem v : demote_entry (demote_entry v) = demote_entry v.
Proof.
  destruct v as [st ob]. unfold demote_entry at 2 3. simpl.
  destruct (st =? 2) eqn:E.
  - destruct (truthy_name ob) eqn:E'; [done|].
    unfold demote_entry; simpl. rewrite E, E'. done.
  - unfold demote_entry; simpl. rewrite E. done.
Qed.

Lemma demote_entry_zero v : fst (demote_entry v) = 0 <-> fst v = 0.
Proof.
  unfold demote_entry. destruct v as [st ob]; simpl.
  destruct (st =? 2) eqn:E; [|done].
  destruct (truthy_name ob); [|done]. simpl. lia.
Qed.

Lemma same_assignment_refl p : same_assignment p p.
Proof. split; done. Qed.

Lemma same_assignment_trans p1 p2 p3 :
  same_assignment p1 p2 -> same_assignment p2 p3 -> same_assignment p1 p3.
Proof.
  intros [K1 H1] [K2 H2]. split; [congruence|].
  intros b. destruct (H1 b), (H2 b). split; congruence.
Qed.

Lemma same_assignment_stamp t b p :
  same_assignment p (pool_alter (set_last_used t) b p).
Proof.
  split; [apply pool_alter_keys|]. intros b'.
  destruct (decide (b = b')) as [<-|Hne].
  - rewrite pool_lookup_alter_eq. destruct (pool_lookup b p); done.
  - rewrite pool_lookup_alter_ne by done. done.
Qed.

Lemma same_assignment_is_Some p p' b :
  same_assignment p p' ->
  is_Some (pool_lookup b p) -> is_Some (pool_lookup b p').
Proof.
  intros [_ H] [e He]. destruct (H b) as [Ha _]. rewrite He in Ha.
  destruct (pool_lookup b p'); [eauto|done].
Qed.

Section ControllerFacts.

Variable LOOPS : list Loop.
Variable clock : nat -> Q.

Lemma demote_final loop_name x w b out :
  ls w !! name x = Some (2, Some b) -> b <> "" -> name x <> loop_name ->
  demoted loop_name [name x] w
    (mkWorld (mkWin (delay_enabled (self w)) (delay_seconds (self w))
                (<[name x := (1, Some b)]> (ls w))
                (pool_alter (set_last_used (clock (ticks w))) b (pool w)))
             out (S (ticks w))).
Proof.
  intros Hx Hb E. split; [|split; [apply same_assignment_stamp|done]].
  intros n. simpl. case_decide as Hn.
  - destruct Hn as [->%list_elem_of_singleton _].
    rewrite lookup_insert_eq, Hx. cbn [fmap option_fmap option_map].
    rewrite (demote_entry_talk _ Hb). done.
  - rewrite lookup_insert_ne; [done|]. intros <-. apply Hn.
    split; [left|done].
Qed.

Lemma demote_other_spec loop_name x w :
  is_Some (ls w !! name x) -> bots_known w ->
  wp (demote_other clock loop_name x)
     (fun _ w' => demoted loop_name [name x] w w') w.
Proof.
  intros [[ostate obot] Hx] Hknown. unfold demote_other.
  destruct (String.eqb (name x) loop_name) eqn:E.
  { apply String.eqb_eq in E. wp_step. split; [|split; [apply same_assignment_refl|done]].
    intros n. case_decide as Hd; [|done].
    destruct Hd as [->%list_elem_of_singleton ?]. done. }
  apply String.eqb_neq in E.
  wp_step. eapply wp_get_loop_state; [exact Hx|]. simpl.
  destruct (if ostate =? 2 then truthy_name obot else None)
    as [b|] eqn:Hd.
  - assert (Hst : ostate = 2) by (destruct (ostate =? 2) eqn:?; [lia|done]).
    subst ostate. simpl in Hd.
    apply truthy_name_Some in Hd as Hb. destruct Hb as [-> Hb].
    destruct (Hknown _ _ _ Hx) as [e He].
    wp_step. eapply wp_get_bot; [exact He|].
    wp_steps. destruct (delay_enabled (self w)); wp_steps.
    all: eapply wp_update_bot; [exact He|]; unfold _set_button_state.
    all: wp_step; eapply wp_get_loop_state;
      [simpl; apply lookup_insert_eq|]; wp_step; by apply demote_final.
  - wp_step. split; [|split; [apply same_assignment_refl|done]].
    intros n. case_decide as Hn; [|done].
    destruct Hn as [->%list_elem_of_singleton _]. rewrite Hx. simpl.
    unfold demote_entry. simpl. rewrite Hd. done.
Qed.

Lemma demoted_bots_known loop_name names w w' :
  demoted loop_name names w w' -> bots_known w -> bots_known w'.
Proof.
  intros (Hls & Hsame & _) Hk n st b Hn. rewrite Hls in Hn.
  eapply same_assignment_is_Some; [exact Hsame|].
  case_decide.
  - destruct (ls w !! n) as [v|] eqn:Hv; [|done]. simpl in Hn.
    injection Hn as Hn. pose proof (demote_entry_bot v) as Hb.
    rewrite Hn in Hb. simpl in Hb. destruct v as [st0 ob]. simpl in Hb.
    subst ob. eapply Hk. exact Hv.
  - eapply Hk. exact Hn.
Qed.

Lemma demoted_is_Some loop_name names w w' n :
  demoted loop_name names w w' -> is_Some (ls w !! n) ->
  is_Some (ls w' !! n).
Proof.
  intros (Hls & _) [v Hv]. rewrite Hls, Hv. case_decide; simpl; eauto.
Qed.

Lemma demoted_trans loop_name x names w w1 w2 :
  demoted loop_name [x] w w1 -> demoted loop_name names w1 w2 ->
  demoted loop_name (x :: names) w w2.
Proof.
  intros (H1 & S1 & E1 & D1) (H2 & S2 & E2 & D2).
  split; [|split; [eauto using same_assignment_trans|split; congruence]].
  intros n. rewrite H2, H1.
  destruct (decide (n = x)) as [->|Hne].
  - destruct (decide (x = loop_name)) as [->|Hl].
    + rewrite !decide_False by (intros [_ ?]; done). done.
    + rewrite (decide_True (P := x ∈ [x] /\ _)) by (split; [left|done]).
      rewrite (decide_True (P := x ∈ x :: names /\ _))
        by (split; [left|done]).
      case_decide; [|done].
      destruct (ls w !! x) as [v|]; [|done]. simpl.
      rewrite demote_entry_idem. done.
  - rewrite (decide_False (P := n ∈ [x] /\ _)).
    2:{ intros [?%list_elem_of_singleton _]. done. }
    case_decide as Hd.
    + rewrite decide_True; [done|]. destruct Hd. split; [by right|done].
    + rewrite decide_False; [done|]. intros [[?|?]%elem_of_cons ?]; [done|].
      apply Hd. done.
Qed.

(** The whole loop of lines 363-376. *)
Lemma demote_loop_spec loop_name l w :
  (forall x, x ∈ l -> is_Some (ls w !! name x)) -> bots_known w ->
  wp (for_each l (demote_other clock loop_name))
     (fun _ w' => demoted loop_name (map name l) w w') w.
Proof.
  revert w. induction l as [|x l IH]; intros w Hdom Hk; simpl.
  - wp_step. split; [|split; [apply same_assignment_refl|done]].
    intros n. rewrite decide_False; [done|]. intros [H _]. inversion H.
  - wp_step. eapply wp_mono; [|apply demote_other_spec; [apply Hdom; left|done]].
    intros [] w1 H1. simpl in H1.
    eapply wp_mono; [|apply IH].
    + intros [] w2 H2. simpl. eapply demoted_trans; eauto.
    + intros y Hy. eapply demoted_is_Some; [exact H1|]. apply Hdom. by right.
    + eapply demoted_bots_known; eauto.
Qed.

End ControllerFacts.

Section ControllerInvariant.

Variable LOOPS : list Loop.
Variable clock : nat -> Q.

Lemma wp_get_loop_config n c Q w :
  loop_configs LOOPS !! n = Some c -> Q c w ->
  wp (get_loop_config LOOPS n) Q w.
Proof.
  intros H HQ. exists c, w. unfold get_loop_config. rewrite H. done.
Qed.

Lemma update_off loop_name new_state cfg st ob w :
  loop_configs LOOPS !! loop_name = Some cfg ->
  ls w !! loop_name = Some (st, ob) ->
  bots_known w ->
  clamp_for cfg new_state = 0 ->
  wp (_update_bot_assignment LOOPS clock loop_name new_state)
     (fun _ w' => released loop_name ob w w') w.
Proof.
  intros Hcfg Hls Hk Hc. unfold _update_bot_assignment.
  wp_step. eapply wp_get_loop_config; [exact Hcfg|].
  wp_step. eapply wp_get_loop_state; [exact Hls|]. cbv beta iota.
  rewrite Hc. cbn [Z.eqb]. wp_step.
  destruct (truthy_name ob) as [b|] eqn:Hb.
  - apply truthy_name_Some in Hb as Hb'. destruct Hb' as [-> Hne].
    destruct (Hk _ _ _ Hls) as [e He].
    wp_step. eapply wp_get_bot; [exact He|]. wp_steps.
    assert (Hfin : forall out,
      released loop_name (Some b) w
        (mkWorld (mkWin (delay_enabled (self w)) (delay_seconds (self w))
            (<[loop_name := (0, None)]> (ls w))
            (pool_alter (set_last_used (clock (ticks w))) b
               (pool_alter (set_assigned None) b (pool w))))
          out (S (ticks w)))).
    { intros out. split; [done|]. split.
      { simpl. rewrite !pool_alter_keys. done. }
      split; [|rewrite Hb; done].
      intros b'. simpl. rewrite Hb.
      destruct (decide (b = b')) as [<-|Hbb].
      - rewrite decide_True by done.
        rewrite !pool_lookup_alter_eq, He. done.
      - rewrite decide_False by congruence.
        rewrite !pool_lookup_alter_ne by done. done. }
    assert (He' : pool_lookup b (pool_alter (set_assigned None) b (pool w))
                  = Some (set_assigned None e))
      by (rewrite pool_lookup_alter_eq, He; done).
    destruct (delay_enabled (self w) && (st =? 2)); wp_steps.
    all: eapply wp_update_bot; [exact He|]; wp_steps.
    all: eapply wp_update_bot; [exact He'|]; wp_steps; apply Hfin.
  - wp_steps. split; [done|]. split; [done|]. split; [|done].
    intros b. rewrite Hb. rewrite decide_False by done. done.
Qed.

Lemma update_noop loop_name new_state cfg st ob w :
  loop_configs LOOPS !! loop_name = Some cfg ->
  ls w !! loop_name = Some (st, ob) ->
  clamp_for cfg new_state <> 0 ->
  truthy_name ob = None ->
  truthy_name (_find_idle_bot (pool w)) = None ->
  wp (_update_bot_assignment LOOPS clock loop_name new_state)
     (fun _ w' => w' = w) w.
Proof.
  intros Hcfg Hls Hc Hb Hidle. unfold _update_bot_assignment.
  wp_step. eapply wp_get_loop_config; [exact Hcfg|].
  wp_step. eapply wp_get_loop_state; [exact Hls|]. cbv beta iota.
  apply Z.eqb_neq in Hc. rewrite Hc, Hb. wp_steps. rewrite Hidle.
  wp_step. done.
Qed.

Lemma activate_spec loop_name old_state ns b w :
  (forall x, x ∈ LOOPS -> is_Some (ls w !! name x)) ->
  bots_known w ->
  is_Some (pool_lookup b (pool w)) ->
  wp (activate LOOPS clock loop_name old_state ns b)
     (fun _ w' => activated LOOPS loop_name ns b w w') w.
Proof.
  intros Hdom Hk [e He]. unfold activate.
  wp_step. eapply wp_get_bot; [exact He|]. wp_step.
  (* the state-specific commands leave a world [w1] *)
  apply wp_mono with (Q := fun _ w1 =>
    (forall n, ls w1 !! n =
               if decide (ns = 2 /\ n ∈ map name LOOPS /\ n <> loop_name)
               then demote_entry <$> ls w !! n else ls w !! n) /\
    same_assignment (pool w) (pool w1)).
  - intros [] w1 [Hls Hsame].
    destruct (same_assignment_is_Some _ _ b Hsame) as [e1 He1]; [eauto|].
    wp_step. eapply wp_update_bot; [exact He1|]. wp_steps.
    eapply wp_update_bot.
    { simpl. rewrite pool_lookup_alter_eq, He1. reflexivity. }
    wp_steps. split; [|split].
    + intros n. simpl. destruct (decide (n = loop_name)) as [->|Hn].
      * apply lookup_insert_eq.
      * rewrite lookup_insert_ne by done. rewrite Hls.
        destruct (decide (ns = 2 /\ n ∈ map name LOOPS)) as [[? ?]|Hd].
        -- rewrite decide_True; done.
        -- rewrite decide_False; [done|]. intros (? & ? & ?). auto.
    + simpl. rewrite !pool_alter_keys. apply Hsame.
    + intros b'. simpl. destruct Hsame as [_ Hsame].
      destruct (decide (b' = b)) as [->|Hb].
      * rewrite !pool_lookup_alter_eq, He1. done.
      * rewrite !pool_lookup_alter_ne by done. apply Hsame.
  - destruct (ns =? 2) eqn:E2.
    + apply Z.eqb_eq in E2. subst ns. wp_step.
      eapply wp_mono; [|apply demote_loop_spec; done].
      intros [] w1 (Hls & Hsame & Hde & Hds). simpl in *.
      wp_steps. destruct (delay_enabled (self w1)); wp_steps.
      all: split; [|done].
      all: intros n; rewrite Hls; destruct (decide (n ∈ _ /\ _)) as [[? ?]|Hd];
        [rewrite decide_True; done|rewrite decide_False; [done|]];
        intros (_ & ? & ?); auto.
    + assert (Hno : forall n,
        ls w !! n =
        if decide (ns = 2 /\ n ∈ map name LOOPS /\ n <> loop_name)
        then demote_entry <$> ls w !! n else ls w !! n).
      { intros n. rewrite decide_False; [done|]. intros [-> _]. done. }
      destruct (ns =? 1); wp_steps.
      * destruct ((old_state =? 2) && delay_enabled (self w)); wp_steps;
          (split; [exact Hno|apply same_assignment_refl]).
      * split; [exact Hno|apply same_assignment_refl].
Qed.

Lemma same_assignment_assign p b e v :
  pool_lookup b p = Some e ->
  map fst (pool_alter (set_assigned v) b p) = map fst p /\
  forall b', assigned <$> pool_lookup b' (pool_alter (set_assigned v) b p) =
             if decide (b' = b) then Some v
             else assigned <$> pool_lookup b' p.
Proof.
  intros He. split; [apply pool_alter_keys|]. intros b'.
  destruct (decide (b' = b)) as [->|Hb].
  - rewrite pool_lookup_alter_eq, He. done.
  - rewrite pool_lookup_alter_ne by done. done.
Qed.

Lemma update_on loop_name new_state cfg st ob b w :
  loop_configs LOOPS !! loop_name = Some cfg ->
  ls w !! loop_name = Some (st, ob) ->
  (forall x, x ∈ LOOPS -> is_Some (ls w !! name x)) ->
  bots_known w ->
  clamp_for cfg new_state <> 0 ->
  truthy_name ob = Some b \/
  (truthy_name ob = None /\
   truthy_name (_find_idle_bot (pool w)) = Some b) ->
  is_Some (pool_lookup b (pool w)) ->
  wp (_update_bot_assignment LOOPS clock loop_name new_state)
     (fun _ w' => activated LOOPS loop_name (clamp_for cfg new_state) b w w') w.
Proof.
  intros Hcfg Hls Hdom Hk Hc Hb [e He]. unfold _update_bot_assignment.
  wp_step. eapply wp_get_loop_config; [exact Hcfg|].
  wp_step. eapply wp_get_loop_state; [exact Hls|]. cbv beta iota zeta.
  apply Z.eqb_neq in Hc as Hc'. rewrite Hc'.
  destruct Hb as [Hb|[Hb Hidle]]; rewrite Hb.
  - apply activate_spec; eauto.
  - wp_steps. rewrite Hidle. wp_step.
    eapply wp_update_bot; [exact He|].
    eapply wp_mono; [|apply activate_spec].
    + intros [] w' (H1 & H2 & H3). simpl in *.
      destruct (same_assignment_assign _ _ _ (Some loop_name) He) as [K A].
      split; [exact H1|]. split; [congruence|].
      intros b'. rewrite H3, A. destruct (decide (b' = b)); done.
    + exact Hdom.
    + intros n s0 b0 Hn. simpl in *.
      destruct (Hk _ _ _ Hn) as [e0 He0].
      destruct (decide (b0 = b)) as [->|Hb0].
      * rewrite pool_lookup_alter_eq, He. eauto.
      * rewrite pool_lookup_alter_ne by done. eauto.
    + simpl. rewrite pool_lookup_alter_eq, He. eauto.
Qed.

Lemma inv_bot_nonempty w b :
  Inv LOOPS w -> is_Some (pool_lookup b (pool w)) -> b <> "".
Proof.
  intros HI [e He]. apply pool_lookup_key in He.
  rewrite (inv_keys _ _ HI) in He. intros ->. simpl in He.
  repeat (apply elem_of_cons in He as [He|He]; [done|]). inversion He.
Qed.

Lemma inv_bots_known w : Inv LOOPS w -> bots_known w.
Proof.
  intros HI n st b Hn. apply (inv_loop _ _ HI) in Hn as [_ (e & He & _)]. eauto.
Qed.

Lemma inv_truthy w n st b :
  Inv LOOPS w -> ls w !! n = Some (st, Some b) -> truthy_name (Some b) = Some b.
Proof.
  intros HI Hn. apply truthy_name_nonempty.
  eapply inv_bot_nonempty; [exact HI|]. eapply inv_bots_known; eauto.
Qed.

Lemma inv_loops_present w x :
  Inv LOOPS w -> x ∈ LOOPS -> is_Some (ls w !! name x).
Proof.
  intros HI Hx. apply (inv_dom _ _ HI). apply list_elem_of_fmap_2. exact Hx.
Qed.

Lemma assigned_lookup p b v :
  assigned <$> pool_lookup b p = Some v <->
  exists e, pool_lookup b p = Some e /\ assigned e = v.
Proof.
  destruct (pool_lookup b p) as [e|]; simpl; split.
  - intros [= <-]. eauto.
  - intros (e' & [= <-] & <-). done.
  - done.
  - intros (? & ? & _). done.
Qed.

Lemma inv_released loop_name st ob w w' :
  Inv LOOPS w -> ls w !! loop_name = Some (st, ob) ->
  released loop_name ob w w' -> Inv LOOPS w'.
Proof.
  intros HI Hl (Hls & Hkeys & Hasg & _). split.
  - rewrite Hkeys. apply HI.
  - intros n. rewrite Hls. rewrite <- (inv_dom _ _ HI).
    destruct (decide (n = loop_name)) as [->|Hn].
    + rewrite lookup_insert_eq, Hl. split; eauto.
    + rewrite lookup_insert_ne by done. done.
  - intros n s o. rewrite Hls.
    destruct (decide (n = loop_name)) as [->|Hn].
    + rewrite lookup_insert_eq. intros [= <- <-]. done.
    + rewrite lookup_insert_ne by done. intros Hn'.
      pose proof (inv_loop _ _ HI _ _ _ Hn') as Hi.
      destruct o as [b|]; [|done]. destruct Hi as (Hs & e & He & Ha).
      split; [done|]. apply assigned_lookup. rewrite Hasg.
      rewrite decide_False; [apply assigned_lookup; eauto|].
      intros [-> _]%truthy_name_Some.
      pose proof (inv_loop _ _ HI _ _ _ Hl) as (_ & e' & He' & Ha').
      congruence.
  - intros b e n He Ha.
    assert (Hx : assigned <$> pool_lookup b (pool w') = Some (Some n))
      by (apply assigned_lookup; eauto).
    rewrite Hasg in Hx. case_decide as Hd; [done|].
    apply assigned_lookup in Hx as (e0 & He0 & Ha0).
    destruct (inv_bot _ _ HI _ _ _ He0 Ha0) as [s Hs].
    exists s. rewrite Hls, lookup_insert_ne; [done|].
    intros <-. apply Hd. rewrite Hs in Hl. injection Hl as _ <-.
    eapply inv_truthy; eauto.
  - intros n1 n2 b1 b2. rewrite Hls.
    destruct (decide (n1 = loop_name)) as [->|H1];
      [rewrite lookup_insert_eq; done|].
    destruct (decide (n2 = loop_name)) as [->|H2];
      [rewrite lookup_insert_eq; done|].
    rewrite !lookup_insert_ne by done. apply HI.
Qed.

(** An entry of another loop after an activation comes from an entry
    with the same bot, is OFF exactly when that one was, and is TALK
    only if that one was and nothing asked for TALK. *)
Lemma activated_other loop_name ns b w w' n s o :
  Inv LOOPS w -> activated LOOPS loop_name ns b w w' -> n <> loop_name ->
  ls w' !! n = Some (s, o) ->
  exists s0, ls w !! n = Some (s0, o) /\ (s = 0 <-> s0 = 0) /\
             (s = 2 -> s0 = 2 /\ ns <> 2).
Proof.
  intros HI (Hls & _) Hn Hs. rewrite Hls in Hs.
  rewrite decide_False in Hs by done.
  case_decide as Hd.
  - destruct Hd as [-> Hin].
    destruct (ls w !! n) as [[s0 o0]|] eqn:E; [|done]. simpl in Hs.
    injection Hs as Hs.
    pose proof (demote_entry_bot (s0, o0)) as Hb.
    pose proof (demote_entry_zero (s0, o0)) as Hz.
    rewrite Hs in Hb, Hz. simpl in Hb, Hz. subst o0.
    exists s0. split; [done|]. split; [done|]. intros ->. exfalso.
    unfold demote_entry in Hs. simpl in Hs.
    destruct (s0 =? 2) eqn:E2.
    + apply Z.eqb_eq in E2. subst s0.
      pose proof (inv_loop _ _ HI _ _ _ E) as Hi.
      destruct o as [b0|]; [|done].
      rewrite (inv_truthy _ _ _ _ HI E) in Hs. done.
    + injection Hs as ->. done.
  - exists s. split; [done|]. split; [done|]. intros ->.
    split; [done|]. intros ->. apply Hd. split; [done|].
    apply (inv_dom _ _ HI). eauto.
Qed.

Lemma inv_activated loop_name st ob ns b w w' :
  Inv LOOPS w -> ls w !! loop_name = Some (st, ob) -> ns <> 0 ->
  ob = Some b \/
  (ob = None /\ exists e, pool_lookup b (pool w) = Some e /\
                          assigned e = None) ->
  activated LOOPS loop_name ns b w w' -> Inv LOOPS w'.
Proof.
  intros HI Hl Hns Hb Hact.
  pose proof Hact as (Hls & Hkeys & Hasg).
  assert (Hbin : is_Some (pool_lookup b (pool w))).
  { destruct Hb as [->|(_ & e & He & _)]; [|eauto].
    eapply inv_bots_known; eauto. }
  assert (Hfree : forall n e, n <> loop_name ->
            pool_lookup b (pool w) = Some e -> assigned e <> Some n).
  { intros n e Hn He Ha. destruct Hb as [->|(_ & e' & He' & Ha')].
    - pose proof (inv_loop _ _ HI _ _ _ Hl) as (_ & e' & He' & Ha').
      congruence.
    - congruence. }
  split.
  - rewrite Hkeys. apply HI.
  - intros n. rewrite <- (inv_dom _ _ HI), Hls.
    destruct (decide (n = loop_name)) as [->|Hn]; [split; eauto|].
    simpl. destruct (decide (ns = 2 /\ n ∈ map name LOOPS)); [|done].
    destruct (ls w !! n); simpl; split; intros [v Hv]; eauto; done.
  - intros n s o Hn.
    destruct (decide (n = loop_name)) as [->|Hne].
    + rewrite Hls, decide_True in Hn by done. injection Hn as <- <-.
      split; [done|]. apply assigned_lookup.
      rewrite Hasg, decide_True; done.
    + destruct (activated_other _ _ _ _ _ _ _ _ HI Hact Hne Hn)
        as (s0 & Hs0 & Hz & _).
      pose proof (inv_loop _ _ HI _ _ _ Hs0) as Hi.
      destruct o as [b0|]; [|tauto].
      destruct Hi as (Hnz & e & He & Ha). split; [tauto|].
      apply assigned_lookup. rewrite Hasg, decide_False.
      * apply assigned_lookup. eauto.
      * intros ->. eapply Hfree; eauto.
  - intros b0 e n He Ha.
    assert (Hx : assigned <$> pool_lookup b0 (pool w') = Some (Some n))
      by (apply assigned_lookup; eauto).
    rewrite Hasg in Hx. case_decide as Hd.
    + injection Hx as <-. subst b0. exists ns.
      rewrite Hls, decide_True; done.
    + apply assigned_lookup in Hx as (e0 & He0 & Ha0).
      destruct (inv_bot _ _ HI _ _ _ He0 Ha0) as [s Hs].
      assert (Hne : n <> loop_name).
      { intros ->. rewrite Hs in Hl. injection Hl as _ <-.
        destruct Hb as [[= ->]|[? _]]; done. }
      rewrite Hls, decide_False by done.
      rewrite Hs. simpl.
      destruct (decide (ns = 2 /\ n ∈ map name LOOPS)); [|eauto].
      pose proof (demote_entry_bot (s, Some b0)) as Hdb. simpl in Hdb.
      destruct (demote_entry (s, Some b0)) as [s' o']. simpl in Hdb.
      subst o'. eauto.
  - intros n1 n2 b1 b2 H1 H2.
    destruct (decide (n1 = loop_name)) as [->|Hn1];
      destruct (decide (n2 = loop_name)) as [->|Hn2]; [done| | |].
    + rewrite Hls, decide_True in H1 by done. injection H1 as -> _.
      destruct (activated_other _ _ _ _ _ _ _ _ HI Hact Hn2 H2)
        as (s0 & _ & _ & Hc). destruct (Hc eq_refl); done.
    + rewrite Hls, decide_True in H2 by done. injection H2 as -> _.
      destruct (activated_other _ _ _ _ _ _ _ _ HI Hact Hn1 H1)
        as (s0 & _ & _ & Hc). destruct (Hc eq_refl); done.
    + destruct (activated_other _ _ _ _ _ _ _ _ HI Hact Hn1 H1)
        as (s1 & E1 & _ & Hc1).
      destruct (activated_other _ _ _ _ _ _ _ _ HI Hact Hn2 H2)
        as (s2 & E2 & _ & Hc2).
      destruct (Hc1 eq_refl) as [-> _]. destruct (Hc2 eq_refl) as [-> _].
      eapply inv_talk; eauto.
Qed.

End ControllerInvariant.

Section ControllerReachable.

Variable LOOPS : list Loop.
Variable clock : nat -> Q.

(** *** The dictionaries built from LOOPS *)

Lemma dict_fold_lookup {V} (f : Loop -> V) (l : list Loop)
    (m : gmap string V) n :
  foldl (fun m loop => <[name loop := f loop]> m) m l !! n =
  match last (List.filter (fun x => String.eqb (name x) n) l) with
  | Some x => Some (f x)
  | None => m !! n
  end.
Proof.
  revert m. induction l as [|x l IH]; intros m; simpl; [done|].
  rewrite IH. destruct (String.eqb (name x) n) eqn:E.
  - apply String.eqb_eq in E.
    destruct (List.filter _ l) as [|y t] eqn:Ef; simpl.
    + rewrite <- E. apply lookup_insert_eq.
    + rewrite last_cons. destruct (last t); done.
  - apply String.eqb_neq in E.
    destruct (last _); [done|]. apply lookup_insert_ne. done.
Qed.

Lemma last_filter_name n (l : list Loop) :
  match last (List.filter (fun x => String.eqb (name x) n) l) with
  | Some x => x ∈ l /\ name x = n
  | None => n ∉ map name l
  end.
Proof.
  destruct (last _) as [x|] eqn:E.
  - apply last_Some in E as [t Ht].
    assert (Hx : In x (List.filter (fun x => String.eqb (name x) n) l)).
    { rewrite Ht. apply in_or_app. right. left. done. }
    apply filter_In in Hx as [Hx Hn]. apply String.eqb_eq in Hn.
    split; [by apply list_elem_of_In|done].
  - apply last_None in E. intros Hin.
    apply list_elem_of_fmap in Hin as (x & -> & Hx).
    assert (Hf : In x (List.filter (fun y => String.eqb (name y) (name x)) l)).
    { apply filter_In. split; [by apply list_elem_of_In|].
      apply String.eqb_refl. }
    rewrite E in Hf. done.
Qed.

Lemma loop_configs_Some n c :
  loop_configs LOOPS !! n = Some c -> c ∈ LOOPS /\ name c = n.
Proof.
  unfold loop_configs. rewrite dict_fold_lookup.
  pose proof (last_filter_name n LOOPS) as H.
  destruct (last _) as [x|]; [|done]. intros [= <-]. done.
Qed.

Lemma loop_configs_dom n :
  is_Some (loop_configs LOOPS !! n) <-> n ∈ map name LOOPS.
Proof.
  unfold loop_configs. rewrite dict_fold_lookup.
  pose proof (last_filter_name n LOOPS) as H.
  destruct (last _) as [x|].
  - destruct H as [Hx <-]. split; [|eauto].
    intros _. apply list_elem_of_fmap_2. done.
  - rewrite lookup_empty. split; [intros [? ?]; done|done].
Qed.

Lemma init_loop_states n :
  ls (init_world LOOPS) !! n =
  if decide (n ∈ map name LOOPS) then Some (0, None) else None.
Proof.
  simpl. rewrite (dict_fold_lookup (fun _ => (0, @None string))).
  pose proof (last_filter_name n LOOPS) as H.
  destruct (last _) as [x|].
  - destruct H as [Hx <-]. rewrite decide_True; [done|].
    apply list_elem_of_fmap_2. done.
  - rewrite decide_False by done. apply lookup_empty.
Qed.

Lemma inv_init : Inv LOOPS (init_world LOOPS).
Proof.
  split.
  - reflexivity.
  - intros n. rewrite init_loop_states.
    destruct (decide (n ∈ map name LOOPS)); split; eauto.
    + intros [? ?]. done.
    + done.
  - intros n st ob. rewrite init_loop_states.
    case_decide; [|done]. intros [= <- <-]. done.
  - intros b e n He Ha. exfalso. apply pool_lookup_elem in He.
    simpl in He.
    repeat (apply elem_of_cons in He as [[= _ ->]|He]; [done|]).
    inversion He.
  - intros n1 n2 b1 b2. rewrite init_loop_states. case_decide; done.
Qed.

(** *** Every operation keeps the invariant and returns *)

Lemma NoDup_bot_names : NoDup (map fst BOTS).
Proof. apply (bool_decide_unpack _). vm_compute. exact I. Qed.

Lemma inv_idle_bot w b :
  Inv LOOPS w -> _find_idle_bot (pool w) = Some b ->
  truthy_name (Some b) = Some b /\
  exists e, pool_lookup b (pool w) = Some e /\ assigned e = None.
Proof.
  intros HI Hf. apply find_idle_Some in Hf as (e & Hin & Ha & _).
  apply pool_elem_lookup in Hin.
  2:{ rewrite (inv_keys _ _ HI). apply NoDup_bot_names. }
  split; [|eauto]. apply truthy_name_nonempty.
  eapply inv_bot_nonempty; eauto.
Qed.

Lemma update_outcome loop_name new_state cfg st ob w :
  Inv LOOPS w ->
  loop_configs LOOPS !! loop_name = Some cfg ->
  ls w !! loop_name = Some (st, ob) ->
  wp (_update_bot_assignment LOOPS clock loop_name new_state)
     (fun _ w' => Inv LOOPS w' /\
                  outcome LOOPS loop_name (clamp_for cfg new_state) ob w w') w.
Proof.
  intros HI Hcfg Hl.
  pose proof (inv_bots_known _ _ HI) as Hk.
  destruct (decide (clamp_for cfg new_state = 0)) as [Hc|Hc].
  { eapply wp_mono; [|eapply update_off; eauto].
    intros [] w' Hr. split; [eapply inv_released; eauto|].
    left. done. }
  destruct ob as [b|].
  { eapply wp_mono; [|eapply update_on with (b := b); eauto].
    - intros [] w' Ha. split; [eapply inv_activated; eauto|].
      right. left. eauto.
    - eauto using inv_loops_present.
    - left. eapply inv_truthy; eauto. }
  destruct (_find_idle_bot (pool w)) as [b|] eqn:Hf.
  - destruct (inv_idle_bot _ _ HI Hf) as [Ht (e & He & Ha)].
    eapply wp_mono; [|eapply update_on with (b := b); eauto].
    + intros [] w' Hact. split; [eapply inv_activated; eauto|].
      right. left. split; [done|]. exists b. rewrite Hf. eauto.
    + eauto using inv_loops_present.
    + right. rewrite Hf. done.
  - eapply wp_mono; [|eapply update_noop; eauto].
    + intros [] w' ->. split; [done|]. right. right. done.
    + rewrite Hf. done.
Qed.

Lemma update_preserves loop_name new_state w :
  Inv LOOPS w -> loop_name ∈ map name LOOPS ->
  wp (_update_bot_assignment LOOPS clock loop_name new_state)
     (fun _ w' => Inv LOOPS w') w.
Proof.
  intros HI Hin.
  destruct (proj2 (loop_configs_dom _) Hin) as [cfg Hcfg].
  destruct (proj2 (inv_dom _ _ HI _) Hin) as [[st ob] Hl].
  eapply wp_mono; [|eapply update_outcome; eauto].
  intros [] w' [H _]. exact H.
Qed.

Lemma set_button_state_spec loop_name w (Q : unit -> World -> Prop) :
  is_Some (ls w !! loop_name) -> Q tt w ->
  wp (_set_button_state loop_name) Q w.
Proof.
  intros [v Hv] HQ. unfold _set_button_state.
  wp_step. eapply wp_get_loop_state; [exact Hv|]. wp_step. done.
Qed.

Lemma off_click_preserves loop_name w :
  Inv LOOPS w -> loop_name ∈ map name LOOPS ->
  wp (on_loop_off_clicked LOOPS clock loop_name)
     (fun _ w' => Inv LOOPS w') w.
Proof.
  intros HI Hin. unfold on_loop_off_clicked. wp_step.
  eapply wp_mono; [|apply update_preserves; done].
  intros [] w' HI'. apply set_button_state_spec; [|done].
  apply (inv_dom _ _ HI'). done.
Qed.

Lemma click_outcome loop_name cfg st ob w :
  Inv LOOPS w ->
  loop_configs LOOPS !! loop_name = Some cfg ->
  ls w !! loop_name = Some (st, ob) ->
  can_listen cfg = true ->
  wp (on_loop_clicked LOOPS clock loop_name)
     (fun _ w' => Inv LOOPS w' /\
        outcome LOOPS loop_name (clamp_for cfg (next_state cfg st)) ob w w') w.
Proof.
  intros HI Hcfg Hl Hcl. unfold on_loop_clicked.
  wp_step. eapply wp_get_loop_config; [exact Hcfg|].
  wp_step. eapply wp_get_loop_state; [exact Hl|]. cbv beta iota zeta.
  rewrite Hcl. cbn [negb]. wp_step.
  eapply wp_mono; [|eapply update_outcome; eauto].
  intros [] w' [HI' Ho]. apply set_button_state_spec; [|done].
  apply (inv_dom _ _ HI'). apply (inv_dom _ _ HI). eauto.
Qed.

Lemma click_preserves loop_name w :
  Inv LOOPS w -> loop_name ∈ map name LOOPS ->
  wp (on_loop_clicked LOOPS clock loop_name)
     (fun _ w' => Inv LOOPS w') w.
Proof.
  intros HI Hin.
  destruct (proj2 (loop_configs_dom _) Hin) as [cfg Hcfg].
  destruct (proj2 (inv_dom _ _ HI _) Hin) as [[st ob] Hl].
  destruct (can_listen cfg) eqn:Hcl.
  - eapply wp_mono; [|eapply click_outcome; eauto].
    intros [] w' [H _]. exact H.
  - unfold on_loop_clicked.
    wp_step. eapply wp_get_loop_config; [exact Hcfg|].
    wp_step. eapply wp_get_loop_state; [exact Hl|]. cbv beta iota.
    rewrite Hcl. cbn [negb]. wp_step. done.
Qed.

Lemma post_all_spec (f : string * BotEntry -> Route) l w :
  wp (for_each l (fun b => post (port (snd b)) (f b)))
     (fun _ w' => self w' = self w) w.
Proof.
  revert w. induction l as [|x l IH]; intros w; simpl.
  - wp_step. done.
  - wp_steps. eapply wp_mono; [|apply IH]. intros [] w' H. exact H.
Qed.

Lemma toggle_preserves w :
  Inv LOOPS w -> wp toggle_delay (fun _ w' => Inv LOOPS w') w.
Proof.
  intros HI. unfold toggle_delay. wp_steps.
  match goal with |- wp _ _ ?w0 => set (w1 := w0) end.
  assert (HI1 : Inv LOOPS w1) by (destruct HI; split; assumption).
  assert (Hgo : forall f : string * BotEntry -> Route,
    wp (for_each (pool w1) (fun b => post (port (snd b)) (f b)))
       (fun _ w' => Inv LOOPS w') w1).
  { intros f. eapply wp_mono; [|apply post_all_spec].
    intros [] w' Hs. simpl in Hs.
    destruct HI1 as [K D L B T]. split; rewrite ?Hs; assumption. }
  destruct (negb (delay_enabled (self w))) eqn:E.
  - destruct (Hgo (fun _ => DelayOn (delay_seconds (self w))))
      as (a & w' & Hrun & HQ).
    exists a, w'. split; [|done]. rewrite <- Hrun. reflexivity.
  - destruct (Hgo (fun _ => DelayOff)) as (a & w' & Hrun & HQ).
    exists a, w'. split; [|done]. rewrite <- Hrun. reflexivity.
Qed.

(** An operation on a name that is not a loop raises KeyError. *)
Lemma run_op_named op w r :
  run_op LOOPS clock op w = Some r ->
  match op with
  | Click n | OffClick n | Update n _ => n ∈ map name LOOPS
  | ToggleDelay => True
  end.
Proof.
  assert (Hcfg : forall n (k : Loop -> M unit) r0,
    bind (get_loop_config LOOPS n) k w = Some r0 -> n ∈ map name LOOPS).
  { intros n k r0 H. apply bind_inv in H as (c & w1 & Hc & _).
    unfold get_loop_config in Hc. apply loop_configs_dom.
    destruct (loop_configs LOOPS !! n); [eauto|done]. }
  destruct op as [n|n|n s|]; cbn [run_op]; [| | |done].
  - apply Hcfg.
  - unfold on_loop_off_clicked. intros H.
    apply bind_inv in H as (a & w1 & H & _). revert H. apply Hcfg.
  - apply Hcfg.
Qed.

Lemma run_op_preserves op w :
  Inv LOOPS w ->
  match op with
  | Click n | OffClick n | Update n _ => n ∈ map name LOOPS
  | ToggleDelay => True
  end ->
  wp (run_op LOOPS clock op) (fun _ w' => Inv LOOPS w') w.
Proof.
  intros HI Hn. destruct op; cbn [run_op].
  - by apply click_preserves.
  - by apply off_click_preserves.
  - by apply update_preserves.
  - by apply toggle_preserves.
Qed.

Lemma reachable_inv w : reachable LOOPS clock w -> Inv LOOPS w.
Proof.
  induction 1 as [|w op w' _ IH Hstep]; [apply inv_init|].
  eapply (wp_elim _ _ _ _ _ (run_op_preserves op w IH
            (run_op_named _ _ _ Hstep)) Hstep).
Qed.

Lemma world_from_reachable w ops :
  reachable LOOPS clock w ->
  reachable LOOPS clock (world_from LOOPS clock w ops).
Proof.
  revert w. induction ops as [|op ops IH]; intros w Hw; simpl; [done|].
  destruct (run_op LOOPS clock op w) as [[[] w']|] eqn:E; [|done].
  apply IH. eapply reach_step; eauto.
Qed.

Lemma world_after_reachable ops :
  reachable LOOPS clock (world_after LOOPS clock ops).
Proof. apply world_from_reachable, reach_init. Qed.

End ControllerReachable.

(** ** The controller: exclusive TALK, assignment, selection, exhaustion *)

Lemma pool_lookup_is_Some b p :
  is_Some (pool_lookup b p) <-> b ∈ map fst p.
Proof.
  split.
  - intros [e He]. eapply pool_lookup_key; eauto.
  - induction p as [|[k e] rest IH]; simpl; [intros H; inversion H|].
    intros [->|Hin]%elem_of_cons.
    + rewrite String.eqb_refl. eauto.
    + destruct (String.eqb k b); eauto.
Qed.

Section ControllerClaims.

Variable LOOPS : list Loop.
Variable clock : nat -> Q.

(** C1. Exclusive TALK: in every state reached from the initial one by
    clicks, OFF clicks, direct calls of _update_bot_assignment and delay
    toggles, at most one loop is in state 2; a call of
    _update_bot_assignment that leaves its loop in TALK leaves every
    other loop that was in TALK in LISTEN with its bot; and the loop of
    lines 363-376, which runs before the new state is written, already
    does that demotion without touching the entry of the loop itself. *)
Theorem exclusive_talk w :
  reachable LOOPS clock w ->
  (forall n1 n2 b1 b2,
      ls w !! n1 = Some (2, b1) -> ls w !! n2 = Some (2, b2) -> n1 = n2) /\
  (forall loop_name ns w' b,
      _update_bot_assignment LOOPS clock loop_name ns w = Some (tt, w') ->
      ls w' !! loop_name = Some (2, b) ->
      forall n ob, n <> loop_name -> ls w !! n = Some (2, ob) ->
                   ls w' !! n = Some (1, ob)) /\
  (forall loop_name w0,
      ls w0 = ls w -> map fst (pool w0) = map fst (pool w) ->
      exists w1,
        for_each LOOPS (demote_other clock loop_name) w0 = Some (tt, w1) /\
        ls w1 !! loop_name = ls w !! loop_name /\
        (forall n ob, n <> loop_name -> ls w !! n = Some (2, ob) ->
                      ls w1 !! n = Some (1, ob)) /\
        (forall n ob, n <> loop_name -> ls w1 !! n <> Some (2, ob))).
Proof.
  intros Hr. pose proof (reachable_inv _ _ _ Hr) as HI.
  assert (Hdem : forall n ob, ls w !! n = Some (2, ob) ->
            n ∈ map name LOOPS /\ demote_entry (2, ob) = (1, ob)).
  { intros n ob Hn. split; [apply (inv_dom _ _ HI); eauto|].
    pose proof (inv_loop _ _ HI _ _ _ Hn) as Hi.
    destruct ob as [b0|]; [|done]. apply demote_entry_talk.
    eapply inv_bot_nonempty; [exact HI|]. destruct Hi as (_ & e & He & _).
    eauto. }
  split; [apply HI|]. split.
  - intros loop_name ns w' b Hrun Hl n ob Hn Ht.
    assert (Hin : loop_name ∈ map name LOOPS)
      by exact (run_op_named LOOPS clock (Update loop_name ns) _ _ Hrun).
    destruct (proj2 (loop_configs_dom _ _) Hin) as [cfg Hcfg].
    destruct (proj2 (inv_dom _ _ HI _) Hin) as [[st o] Hlo].
    pose proof (wp_elim _ _ _ _ _
      (update_outcome _ clock _ ns _ _ _ _ HI Hcfg Hlo) Hrun) as [_ Ho].
    destruct Ho as [[_ (Hls & _)]|[[_ (b0 & _ & Hact)]|(_ & _ & _ & ->)]].
    + rewrite Hls, lookup_insert_eq in Hl. done.
    + destruct Hact as (Hls & _).
      rewrite Hls, decide_True in Hl by done. injection Hl as Hc _.
      rewrite Hls, decide_False by done.
      destruct (Hdem _ _ Ht) as [Hnin Hd].
      rewrite decide_True by done. rewrite Ht. simpl. rewrite Hd. done.
    + exfalso. apply Hn. eapply inv_talk; eauto.
  - intros loop_name w0 Hls0 Hk0.
    destruct (demote_loop_spec clock loop_name LOOPS w0)
      as ([] & w1 & Hrun & Hls1 & _).
    { intros x Hx. rewrite Hls0. eapply inv_loops_present; eauto. }
    { intros n s b0 Hn. rewrite Hls0 in Hn.
      apply pool_lookup_is_Some. rewrite Hk0. apply pool_lookup_is_Some.
      eapply inv_bots_known; eauto. }
    exists w1. split; [exact Hrun|]. rewrite Hls0 in Hls1.
    split; [|split].
    + rewrite Hls1, decide_False; [done|]. intros [_ ?]. done.
    + intros n ob Hn Ht. destruct (Hdem _ _ Ht) as [Hnin Hd].
      rewrite Hls1, decide_True by done. rewrite Ht. simpl.
      rewrite Hd. done.
    + intros n ob Hn H1. rewrite Hls1 in H1.
      destruct (decide (n ∈ map name LOOPS /\ n <> loop_name)) as [_|Hd].
      * destruct (ls w !! n) as [[s o]|] eqn:E; [|done].
        simpl in H1. injection H1 as H1.
        pose proof (demote_entry_bot (s, o)) as Hb.
        rewrite H1 in Hb. simpl in Hb. subst o.
        unfold demote_entry in H1. simpl in H1.
        destruct (s =? 2) eqn:E2; [|injection H1 as ->; done].
        apply Z.eqb_eq in E2. subst s.
        destruct (Hdem _ _ E) as [_ Hd]. unfold demote_entry in Hd.
        simpl in Hd. destruct (truthy_name ob); congruence.
      * apply Hd. split; [|done]. apply (inv_dom _ _ HI). eauto.
Qed.

(** C2. The assignment is a partial bijection: in every reachable
    state no bot is recorded by two loops and no loop is the assignment
    of two bots; a bot's [assigned] is set exactly when one loop, and
    only one, is non-OFF and records that bot, and [assigned] names
    that loop; a non-OFF loop always records a bot of the pool. *)
Theorem assignment_partial_bijection w :
  reachable LOOPS clock w ->
  (forall n1 n2 s1 s2 b,
      ls w !! n1 = Some (s1, Some b) -> ls w !! n2 = Some (s2, Some b) ->
      n1 = n2) /\
  (forall b1 b2 e1 e2 n,
      pool_lookup b1 (pool w) = Some e1 -> assigned e1 = Some n ->
      pool_lookup b2 (pool w) = Some e2 -> assigned e2 = Some n ->
      b1 = b2) /\
  (forall b e, pool_lookup b (pool w) = Some e ->
      (assigned e <> None <->
       exists n, (exists st, st <> 0 /\ ls w !! n = Some (st, Some b)) /\
                 forall n', (exists st, st <> 0 /\
                               ls w !! n' = Some (st, Some b)) -> n' = n) /\
      (forall n, assigned e = Some n <->
                 exists st, st <> 0 /\ ls w !! n = Some (st, Some b))) /\
  (forall n st ob, ls w !! n = Some (st, ob) -> st <> 0 ->
      exists b, ob = Some b /\ is_Some (pool_lookup b (pool w))).
Proof.
  intros Hr. pose proof (reachable_inv _ _ _ Hr) as HI.
  assert (Hrec : forall n s b, ls w !! n = Some (s, Some b) ->
            s <> 0 /\ exists e, pool_lookup b (pool w) = Some e /\
                                assigned e = Some n).
  { intros n s b Hn. exact (inv_loop _ _ HI _ _ _ Hn). }
  assert (Hone : forall n1 n2 s1 s2 b,
            ls w !! n1 = Some (s1, Some b) ->
            ls w !! n2 = Some (s2, Some b) -> n1 = n2).
  { intros n1 n2 s1 s2 b H1 H2.
    destruct (Hrec _ _ _ H1) as (_ & e1 & He1 & Ha1).
    destruct (Hrec _ _ _ H2) as (_ & e2 & He2 & Ha2). congruence. }
  assert (Hiff : forall b e n, pool_lookup b (pool w) = Some e ->
            (assigned e = Some n <->
             exists st, st <> 0 /\ ls w !! n = Some (st, Some b))).
  { intros b e n He. split.
    - intros Ha. destruct (inv_bot _ _ HI _ _ _ He Ha) as [st Hst].
      exists st. split; [|done]. apply (Hrec _ _ _ Hst).
    - intros (st & _ & Hst).
      destruct (Hrec _ _ _ Hst) as (_ & e' & He' & Ha'). congruence. }
  split; [exact Hone|]. split; [|split].
  - intros b1 b2 e1 e2 n H1 A1 H2 A2.
    destruct (inv_bot _ _ HI _ _ _ H1 A1) as [s1 Hs1].
    destruct (inv_bot _ _ HI _ _ _ H2 A2) as [s2 Hs2]. congruence.
  - intros b e He. split; [|intros n; apply Hiff; done]. split.
    + intros Ha. destruct (assigned e) as [n|] eqn:E; [|done].
      exists n. split; [apply (Hiff b e n He); done|].
      intros n' (st' & _ & Hst'). apply (Hiff b e n He) in E as (st & _ & Hst).
      eauto.
    + intros (n & Hn & _). apply (Hiff b e n He) in Hn. congruence.
  - intros n st ob Hn Hst. pose proof (inv_loop _ _ HI _ _ _ Hn) as Hi.
    destruct ob as [b|]; [|done]. exists b. split; [done|].
    destruct Hi as (_ & e & He & _). eauto.
Qed.

(** C5. LRU selection. [_find_idle_bot] returns a bot exactly when some
    bot is unassigned, and then an unassigned one whose [last_used] is
    least among the unassigned; of two unassigned bots with
    [last_used] t1 < t2 the second is never returned, and the first is
    returned when no third bot is unassigned. A call of
    _update_bot_assignment that takes a loop without a bot to a non-OFF
    state returns and records the bot that [_find_idle_bot] gives. *)
Theorem lru_selection :
  (forall p b, _find_idle_bot p = Some b ->
      exists e, (b, e) ∈ p /\ assigned e = None /\
        forall b' e', (b', e') ∈ p -> assigned e' = None ->
                      (last_used e <= last_used e')%Q) /\
  (forall p b e, (b, e) ∈ p -> assigned e = None ->
      is_Some (_find_idle_bot p)) /\
  (forall p b1 e1 b2 e2,
      NoDup (map fst p) ->
      (b1, e1) ∈ p -> assigned e1 = None ->
      (b2, e2) ∈ p -> assigned e2 = None ->
      (last_used e1 < last_used e2)%Q ->
      _find_idle_bot p <> Some b2 /\
      ((forall b e, (b, e) ∈ p -> assigned e = None -> b = b1 \/ b = b2) ->
       _find_idle_bot p = Some b1)) /\
  (forall w loop_name new_state cfg st b e,
      reachable LOOPS clock w ->
      loop_configs LOOPS !! loop_name = Some cfg ->
      ls w !! loop_name = Some (st, None) ->
      clamp_for cfg new_state <> 0 ->
      (b, e) ∈ pool w -> assigned e = None ->
      exists w' chosen,
        _update_bot_assignment LOOPS clock loop_name new_state w
          = Some (tt, w') /\
        _find_idle_bot (pool w) = Some chosen /\
        ls w' !! loop_name = Some (clamp_for cfg new_state, Some chosen) /\
        exists e', pool_lookup chosen (pool w') = Some e' /\
                   assigned e' = Some loop_name).
Proof.
  assert (Hsome : forall p b e, (b, e) ∈ p -> assigned e = None ->
            is_Some (_find_idle_bot p)).
  { intros p b e Hin Ha. destruct (_find_idle_bot p) eqn:E; [eauto|].
    exfalso. exact (proj1 (find_idle_None p) E b e Hin Ha). }
  assert (Hnot : forall p b1 e1 b2 e2, NoDup (map fst p) ->
            (b1, e1) ∈ p -> assigned e1 = None -> (b2, e2) ∈ p ->
            (last_used e1 < last_used e2)%Q -> _find_idle_bot p <> Some b2).
  { intros p b1 e1 b2 e2 Hnd H1 A1 H2 Hlt Hf.
    apply find_idle_Some in Hf as (e & Hin & _ & Hmin).
    apply pool_elem_lookup in Hin; [|done].
    apply pool_elem_lookup in H2; [|done].
    assert (e = e2) as -> by congruence.
    apply (Qlt_not_le _ _ Hlt). eauto. }
  split; [exact find_idle_Some|]. split; [exact Hsome|]. split.
  - intros p b1 e1 b2 e2 Hnd H1 A1 H2 A2 Hlt.
    pose proof (Hnot _ _ _ _ _ Hnd H1 A1 H2 Hlt) as Hn2.
    split; [exact Hn2|]. intros Honly.
    destruct (Hsome _ _ _ H1 A1) as [b Hb].
    pose proof Hb as (e & Hin & Ha & _)%find_idle_Some.
    destruct (Honly _ _ Hin Ha) as [->| ->]; [done|].
    exfalso. exact (Hn2 Hb).
  - intros w loop_name new_state cfg st b e Hr Hcfg Hl Hc Hin Ha.
    pose proof (reachable_inv _ _ _ Hr) as HI.
    destruct (update_outcome _ clock _ new_state _ _ _ _ HI Hcfg Hl)
      as ([] & w' & Hrun & _ & Ho).
    destruct (Hsome _ _ _ Hin Ha) as [c Hf].
    destruct Ho as [[? _]|[[_ (b0 & Hb0 & Hact)]|(_ & _ & Hnone & _)]];
      [done| |congruence].
    destruct Hb0 as [?|[_ Hb0]]; [done|].
    assert (b0 = c) as -> by congruence.
    exists w', c. split; [done|]. split; [done|].
    destruct Hact as (Hls & _ & Hasg). split.
    + rewrite Hls, decide_True; done.
    + apply assigned_lookup. rewrite Hasg, decide_True; done.
Qed.

(** C6. Pool exhaustion: in a reachable state where every bot is
    assigned, asking a non-OFF state for a loop without a bot returns
    normally with the world as it was (no command sent, no clock read,
    [loop_states] and [bot_pool] as before), and the loop is OFF. *)
Theorem pool_exhaustion_noop w loop_name new_state st :
  reachable LOOPS clock w ->
  loop_name ∈ map name LOOPS ->
  (forall b e, (b, e) ∈ pool w -> assigned e <> None) ->
  ls w !! loop_name = Some (st, None) ->
  new_state <> 0 ->
  _update_bot_assignment LOOPS clock loop_name new_state w = Some (tt, w)
  /\ st = 0.
Proof.
  intros Hr Hin Hfull Hl Hns.
  pose proof (reachable_inv _ _ _ Hr) as HI.
  destruct (proj2 (loop_configs_dom _ _) Hin) as [cfg Hcfg].
  pose proof (inv_loop _ _ HI _ _ _ Hl) as Hst. simpl in Hst. subst st.
  split; [|done].
  destruct (update_outcome _ clock _ new_state _ _ _ _ HI Hcfg Hl)
    as ([] & w' & Hrun & _ & Ho).
  rewrite Hrun. f_equal. f_equal.
  destruct Ho as [[_ Hrel]|[[_ (b0 & Hb0 & _)]|(_ & _ & _ & ->)]];
    [| |done].
  - destruct Hrel as (Hls & _ & _ & Hde & Hds & Hsame).
    destruct (Hsame eq_refl) as (Hp & Ho & Ht).
    rewrite insert_id in Hls by done.
    destruct w' as [[de' ds' ls' p'] o' t'], w as [[de ds l p] o t].
    simpl in *. congruence.
  - exfalso. destruct Hb0 as [?|[_ Hf]]; [done|].
    apply find_idle_Some in Hf as (e & Hin' & Ha & _).
    exact (Hfull _ _ Hin' Ha).
Qed.

(** C4, as the code has it. For a loop that can listen and cannot
    talk, a request for TALK is acted on as a request for OFF: the call
    returns, the loop is OFF without a bot, and the bot it had is
    unassigned; the call does exactly what the call with state 0 does. *)
Theorem clamp_listen_only_to_off w loop_name cfg st ob :
  reachable LOOPS clock w ->
  loop_configs LOOPS !! loop_name = Some cfg ->
  can_listen cfg = true -> can_talk cfg = false ->
  ls w !! loop_name = Some (st, ob) ->
  exists w',
    _update_bot_assignment LOOPS clock loop_name 2 w = Some (tt, w') /\
    _update_bot_assignment LOOPS clock loop_name 0 w = Some (tt, w') /\
    ls w' !! loop_name = Some (0, None) /\
    (forall b, ob = Some b ->
       exists e, pool_lookup b (pool w') = Some e /\ assigned e = None).
Proof.
  intros Hr Hcfg Hcl Hct Hl.
  pose proof (reachable_inv _ _ _ Hr) as HI.
  assert (Hc : clamp_for cfg 2 = 0)
    by (unfold clamp_for; rewrite Hcl, Hct; done).
  destruct (update_outcome _ clock _ 2 _ _ _ _ HI Hcfg Hl)
    as ([] & w' & Hrun & _ & Ho).
  exists w'. split; [exact Hrun|]. split.
  { rewrite <- Hrun. unfold _update_bot_assignment, bind, get_loop_config.
    rewrite Hcfg. unfold get_loop_state. rewrite Hl. cbv beta iota zeta.
    rewrite Hc. unfold clamp_for. rewrite Hcl, Hct. reflexivity. }
  rewrite Hc in Ho.
  destruct Ho as [[_ Hrel]|[[? _]|[? _]]]; [|done|done].
  destruct Hrel as (Hls & _ & Hasg & _).
  split; [rewrite Hls; apply lookup_insert_eq|].
  intros b ->. apply assigned_lookup. rewrite Hasg, decide_True; [done|].
  eapply inv_truthy; eauto.
Qed.

(** C3, as the code has it. A loop that can listen and cannot talk, OFF
    in a reachable state with an unassigned bot: a click returns and
    leaves it in LISTEN on a bot, and a second click returns and leaves
    it in LISTEN on the same bot. *)
Theorem listen_only_second_click_stays_listen w loop_name cfg b0 e0 :
  reachable LOOPS clock w ->
  loop_configs LOOPS !! loop_name = Some cfg ->
  can_listen cfg = true -> can_talk cfg = false ->
  ls w !! loop_name = Some (0, None) ->
  (b0, e0) ∈ pool w -> assigned e0 = None ->
  exists w1 w2 b,
    on_loop_clicked LOOPS clock loop_name w = Some (tt, w1) /\
    ls w1 !! loop_name = Some (1, Some b) /\
    on_loop_clicked LOOPS clock loop_name w1 = Some (tt, w2) /\
    ls w2 !! loop_name = Some (1, Some b).
Proof.
  intros Hr Hcfg Hcl Hct Hl Hin Ha.
  pose proof (reachable_inv _ _ _ Hr) as HI.
  assert (Hc : forall s, s = 0 \/ s = 1 ->
            clamp_for cfg (next_state cfg s) = 1).
  { intros s [-> | ->]; unfold clamp_for, next_state;
      rewrite Hcl, Hct; done. }
  destruct (click_outcome _ clock _ _ _ _ _ HI Hcfg Hl Hcl)
    as ([] & w1 & Hrun1 & HI1 & Ho1).
  rewrite Hc in Ho1 by auto.
  destruct Ho1 as [[? _]|[[_ (b & Hb & Hact)]|(_ & _ & Hnone & _)]];
    [done| |].
  2:{ exfalso. exact (proj1 (find_idle_None _) Hnone _ _ Hin Ha). }
  assert (Hl1 : ls w1 !! loop_name = Some (1, Some b)).
  { destruct Hact as (Hls & _). rewrite Hls, decide_True; done. }
  destruct (click_outcome _ clock _ _ _ _ _ HI1 Hcfg Hl1 Hcl)
    as ([] & w2 & Hrun2 & HI2 & Ho2).
  rewrite Hc in Ho2 by auto.
  destruct Ho2 as [[? _]|[[_ (b' & Hb' & Hact')]|(_ & ? & _)]];
    [done| |done].
  destruct Hb' as [[= <-]|[? _]]; [|done].
  exists w1, w2, b. split; [done|]. split; [done|]. split; [done|].
  destruct Hact' as (Hls & _). rewrite Hls, decide_True; done.
Qed.

End ControllerClaims.

(** ** Concrete runs *)

Lemma exclusive_talk_witness :
  reachable demo_loops demo_clock talk_twice /\
  ls talk_twice !! "B" = Some (2, Some "BOT2") /\
  forall n1 n2 b1 b2,
    ls talk_twice !! n1 = Some (2, b1) ->
    ls talk_twice !! n2 = Some (2, b2) -> n1 = n2.
Proof.
  split; [apply world_after_reachable|].
  split; [vm_compute; reflexivity|].
  exact (proj1 (exclusive_talk demo_loops demo_clock talk_twice
                  (world_after_reachable _ _ _))).
Defined.

Lemma assignment_partial_bijection_witness :
  reachable demo_loops demo_clock talk_twice /\
  ls talk_twice !! "A" = Some (1, Some "BOT1") /\
  forall n1 n2 s1 s2 b,
    ls talk_twice !! n1 = Some (s1, Some b) ->
    ls talk_twice !! n2 = Some (s2, Some b) -> n1 = n2.
Proof.
  split; [apply world_after_reachable|].
  split; [vm_compute; reflexivity|].
  exact (proj1 (assignment_partial_bijection demo_loops demo_clock talk_twice
                  (world_after_reachable _ _ _))).
Defined.

(** Scenario 2 on the code: the second click leaves C in LISTEN. *)
Lemma second_click_off_counterexample :
  on_loop_clicked demo_loops demo_clock "C" (init_world demo_loops)
    = Some (tt, world_after demo_loops demo_clock [Click "C"]) /\
  ls (world_after demo_loops demo_clock [Click "C"]) !! "C"
    = Some (1, Some "BOT1") /\
  on_loop_clicked demo_loops demo_clock "C"
      (world_after demo_loops demo_clock [Click "C"])
    = Some (tt, world_after demo_loops demo_clock [Click "C"; Click "C"]) /\
  ls (world_after demo_loops demo_clock [Click "C"; Click "C"]) !! "C"
    = Some (1, Some "BOT1") /\
  ls (world_after demo_loops demo_clock [Click "C"; Click "C"]) !! "C"
    <> Some (0, None).
Proof. vm_compute. repeat split; try reflexivity. discriminate. Defined.

Lemma listen_only_second_click_witness :
  exists w1 w2 b,
    on_loop_clicked demo_loops demo_clock "C" (init_world demo_loops)
      = Some (tt, w1) /\
    ls w1 !! "C" = Some (1, Some b) /\
    on_loop_clicked demo_loops demo_clock "C" w1 = Some (tt, w2) /\
    ls w2 !! "C" = Some (1, Some b).
Proof.
  apply (listen_only_second_click_stays_listen demo_loops demo_clock
           (init_world demo_loops) "C" (mkLoop "C" true false)
           "BOT1" (mkBot 6001 None 0)).
  - apply reach_init.
  - vm_compute. reflexivity.
  - reflexivity.
  - reflexivity.
  - vm_compute. reflexivity.
  - left.
  - reflexivity.
Defined.

(** A loop that can neither listen nor talk, asked for TALK: it talks. *)
Lemma clamp_every_untalkable_counterexample :
  can_talk (mkLoop "X" false false) = false /\
  exists w',
    _update_bot_assignment [mkLoop "X" false false] demo_clock "X" 2
      (init_world [mkLoop "X" false false]) = Some (tt, w') /\
    ls w' !! "X" = Some (2, Some "BOT1").
Proof.
  split; [reflexivity|]. eexists. split; vm_compute; reflexivity.
Defined.

Lemma clamp_listen_only_witness :
  ls (world_after demo_loops demo_clock [Click "C"]) !! "C"
    = Some (1, Some "BOT1") /\
  exists w',
    _update_bot_assignment demo_loops demo_clock "C" 2
      (world_after demo_loops demo_clock [Click "C"]) = Some (tt, w') /\
    _update_bot_assignment demo_loops demo_clock "C" 0
      (world_after demo_loops demo_clock [Click "C"]) = Some (tt, w') /\
    ls w' !! "C" = Some (0, None) /\
    (forall b, Some "BOT1" = Some b ->
       exists e, pool_lookup b (pool w') = Some e /\ assigned e = None).
Proof.
  split; [vm_compute; reflexivity|].
  apply (clamp_listen_only_to_off demo_loops demo_clock
           (world_after demo_loops demo_clock [Click "C"]) "C"
           (mkLoop "C" true false) 1 (Some "BOT1")).
  - apply world_after_reachable.
  - vm_compute. reflexivity.
  - reflexivity.
  - reflexivity.
  - vm_compute. reflexivity.
Defined.

(** BOT1 was released after a use, BOT2 and BOT3 were never used: the
    next loop gets BOT2. *)
Example lru_prefers_unused :
  _find_idle_bot
    (pool (world_after demo_loops demo_clock [Click "A"; OffClick "A"]))
  = Some "BOT2".
Proof. vm_compute. reflexivity. Qed.

Lemma lru_selection_witness :
  exists w' chosen,
    _update_bot_assignment demo_loops demo_clock "B" 1
      (world_after demo_loops demo_clock [Click "A"; OffClick "A"])
      = Some (tt, w') /\
    _find_idle_bot
      (pool (world_after demo_loops demo_clock [Click "A"; OffClick "A"]))
      = Some chosen /\
    ls w' !! "B" = Some (clamp_for (mkLoop "B" true true) 1, Some chosen) /\
    exists e', pool_lookup chosen (pool w') = Some e' /\
               assigned e' = Some "B".
Proof.
  apply (proj2 (proj2 (proj2 (lru_selection demo_loops demo_clock)))
           (world_after demo_loops demo_clock [Click "A"; OffClick "A"])
           "B" 1 (mkLoop "B" true true) 0 "BOT2" (mkBot 6002 None 0)).
  - apply world_after_reachable.
  - vm_compute. reflexivity.
  - vm_compute. reflexivity.
  - discriminate.
  - vm_compute. right. left.
  - reflexivity.
Defined.

Lemma pool_exhaustion_witness :
  _update_bot_assignment demo_loops demo_clock "D" 1 all_taken
    = Some (tt, all_taken) /\ 0 = 0.
Proof.
  apply (pool_exhaustion_noop demo_loops demo_clock all_taken "D" 1 0).
  - apply world_after_reachable.
  - vm_compute. do 3 right. left.
  - apply find_idle_None. vm_compute. reflexivity.
  - vm_compute. reflexivity.
  - discriminate.
Defined.

(** ** The bot: volume range *)

Module BotFacts.
Import BotServer BotSpec.

Lemma SFltb_SFleb a b : SFltb a b = true -> SFleb a b = true.
Proof.
  unfold SFltb, SFleb. destruct (SFcompare a b) as [[]|]; done.
Qed.

Lemma clamp_volume_cases vol :
  (clamp_volume vol = vol /\ SFltb vol f64_one = true /\
   SFltb f64_zero vol = true) \/
  (clamp_volume vol = f64_zero /\ SFltb f64_zero vol = false /\
   SFltb vol f64_one = true) \/
  (clamp_volume vol = f64_one /\ SFltb vol f64_one = false).
Proof.
  unfold clamp_volume, py_min, py_max.
  destruct (SFltb vol f64_one) eqn:E1.
  - destruct (SFltb f64_zero vol) eqn:E0; auto.
  - right. right. done.
Qed.

Lemma clamp_volume_in_unit vol : in_unit (clamp_volume vol) = true.
Proof.
  unfold in_unit.
  destruct (clamp_volume_cases vol) as [(-> & H1 & H0)|[(-> & _)|(-> & _)]].
  - rewrite (SFltb_SFleb _ _ H1), (SFltb_SFleb _ _ H0). done.
  - done.
  - done.
Qed.

Lemma step_volume b ev b' :
  step b ev = Some b' ->
  playback_volume b' = playback_volume b \/
  exists vol, playback_volume b' = clamp_volume vol.
Proof.
  destruct ev; simpl; try (intros [= <-]; simpl; eauto; fail).
  - intros [= <-]. unfold _mic_callback.
    destruct (audio_delay_enabled b); [by left|].
    destruct (streaming b && sound_output_ready b); by left.
  - unfold playback_turn. destruct (_recv_q b); [done|].
    destruct (scale_chunk _ _); [|done]. intros [= <-]. by left.
  - unfold worker_get. destruct (worker b); try done.
    destruct (audio_delay_queue b); [done|]. intros [= <-]. by left.
  - unfold worker_check. destruct (worker b) as [|[ts pcm]|]; try done.
    destruct (negb _); intros [= <-]; by left.
  - unfold worker_wake. destruct (worker b) as [| |[ts pcm] wa]; try done.
    destruct (Qle_bool wa t); [|done]. intros [= <-].
    destruct (streaming b && sound_output_ready b); by left.
Qed.

Lemma SFcompare_swap a b :
  SFcompare b a = CompOpp <$> SFcompare a b.
Proof.
  destruct a as [sa|sa| |sa ma ea], b as [sb|sb| |sb mb eb];
    try (destruct sa); try (destruct sb); try reflexivity.
  all: cbn [SFcompare fmap option_fmap option_map].
  all: assert (Hp : Pos.compare_cont Eq mb ma
                    = CompOpp (Pos.compare_cont Eq ma mb))
         by (rewrite Pos.compare_cont_antisym; reflexivity).
  all: rewrite (Z.compare_antisym ea eb), Hp.
  all: destruct (ea ?= eb); cbn [CompOpp]; try reflexivity.
  all: destruct (Pos.compare_cont Eq ma mb); reflexivity.
Qed.

Lemma SFltb_antisym a b : SFltb a b = true -> SFltb b a = false.
Proof.
  unfold SFltb. rewrite (SFcompare_swap a b).
  destruct (SFcompare a b) as [[]|]; done.
Qed.

Lemma SFcompare_refl a : a <> S754_nan -> SFcompare a a = Some Eq.
Proof.
  destruct a as [[]|[]| |[] m e]; try done; intros _.
  all: cbn [SFcompare]; rewrite Z.compare_refl, Pos.compare_cont_refl; done.
Qed.

(** Below 0.0: the negative infinity and the negative finite floats;
    they are below every positive finite float. *)
Lemma below_zero vol m1 e1 :
  SFltb vol f64_zero = true ->
  SFltb f64_zero vol = false /\
  SFltb vol (S754_finite false m1 e1) = true.
Proof. destruct vol as [[]|[]| |[] m e]; done. Qed.

(** C10. [set_volume] stores a value of [0,1] whatever float it is
    given (a NaN included): for a value below 0 it stores 0.0, for a
    value above 1 it stores 1.0, a value of [0,1] it stores as it is;
    so from the 1.0 of __init__ on, after any events,
    [playback_volume] is in [0,1]. *)
Theorem playback_volume_in_unit :
  (forall vol b, in_unit (playback_volume (set_volume vol b)) = true) /\
  (forall vol b, SFltb vol f64_zero = true ->
     playback_volume (set_volume vol b) = f64_zero) /\
  (forall vol b, SFltb f64_one vol = true ->
     playback_volume (set_volume vol b) = f64_one) /\
  (forall vol b, in_unit vol = true ->
     SFeqb (playback_volume (set_volume vol b)) vol = true) /\
  (forall d_in d_out evs b,
      run (init d_in d_out) evs = Some b ->
      in_unit (playback_volume b) = true) /\
  (forall d_in d_out, playback_volume (init d_in d_out) = f64_one).
Proof.
  assert (Hset : forall vol b,
            playback_volume (set_volume vol b) = clamp_volume vol)
    by reflexivity.
  split; [intros vol b; apply clamp_volume_in_unit|].
  split; [|split; [|split; [|split]]].
  - intros vol b H. rewrite Hset.
    destruct (below_zero vol 4503599627370496 (-52) H)
      as [H0 H1]. fold f64_one in H1.
    destruct (clamp_volume_cases vol) as [(_ & _ & ?)|[(-> & _)|(_ & ?)]];
      [congruence|done|congruence].
  - intros vol b H. rewrite Hset. apply SFltb_antisym in H.
    destruct (clamp_volume_cases vol) as [(_ & ? & _)|[(_ & _ & ?)|(-> & _)]];
      [congruence|congruence|done].
  - intros vol b H. rewrite Hset. apply andb_true_iff in H as [H0 H1].
    assert (Hn : vol <> S754_nan) by (intros ->; done).
    unfold SFeqb.
    destruct (clamp_volume_cases vol)
      as [(-> & _)|[(-> & H0' & _)|(-> & H1')]].
    + rewrite (SFcompare_refl _ Hn). done.
    + revert H0 H0'. unfold SFleb, SFltb.
      destruct (SFcompare f64_zero vol) as [[]|]; done.
    + rewrite (SFcompare_swap vol f64_one). revert H1 H1'.
      unfold SFleb, SFltb.
      destruct (SFcompare vol f64_one) as [[]|]; done.
  - intros d_in d_out evs.
    assert (Hgen : forall b b', in_unit (playback_volume b) = true ->
              run b evs = Some b' -> in_unit (playback_volume b') = true).
    { induction evs as [|ev evs IH]; intros b b' Hb; simpl.
      - intros [= <-]. done.
      - destruct (step b ev) as [b1|] eqn:E; [|done].
        apply IH. destruct (step_volume _ _ _ E) as [->|[vol ->]];
          [done|apply clamp_volume_in_unit]. }
    intros b. apply Hgen. done.
  - reflexivity.
Qed.

Lemma playback_volume_witness :
  playback_volume (set_volume S754_nan (init 0 1)) = f64_one /\
  playback_volume (set_volume f64_3 (init 0 1)) = f64_one /\
  playback_volume (set_volume (SFopp f64_3) (init 0 1)) = f64_zero /\
  SFeqb (playback_volume (set_volume f64_0_7 (init 0 1))) f64_0_7 = true /\
  forall b,
    run (init 0 1) [ev_set_volume f64_3; ev_talk; ev_set_volume S754_nan]
      = Some b ->
    in_unit (playback_volume b) = true.
Proof.
  split; [reflexivity|].
  split.
  { apply (proj1 (proj2 (proj2 playback_volume_in_unit))).
    vm_compute. reflexivity. }
  split.
  { apply (proj1 (proj2 playback_volume_in_unit)).
    vm_compute. reflexivity. }
  split.
  { apply (proj1 (proj2 (proj2 (proj2 playback_volume_in_unit)))).
    vm_compute. reflexivity. }
  exact (proj1 (proj2 (proj2 (proj2 (proj2 playback_volume_in_unit)))) 0 1 _).
Defined.

End BotFacts.

(** ** The bot: the delayed relay *)

Module RelayFacts.
Import BotServer BotSpec.
Local Open Scope list_scope.

Lemma step_streaming b ev b' :
  step b ev = Some b' -> streaming b' = streaming_after (streaming b) [ev].
Proof.
  destruct ev; simpl; try (intros [= <-]; reflexivity).
  - intros [= <-]. unfold _mic_callback.
    destruct (audio_delay_enabled b); [done|].
    destruct (streaming b && sound_output_ready b); done.
  - unfold playback_turn. destruct (_recv_q b); [done|].
    destruct (scale_chunk _ _); [|done]. intros [= <-]. done.
  - unfold worker_get. destruct (worker b); try done.
    destruct (audio_delay_queue b); [done|]. intros [= <-]. done.
  - unfold worker_check. destruct (worker b) as [|[ts pcm]|]; try done.
    destruct (negb _); intros [= <-]; done.
  - unfold worker_wake. destruct (worker b) as [| |[ts pcm] wa]; try done.
    destruct (Qle_bool wa t); [|done]. intros [= <-].
    destruct (streaming b && sound_output_ready b); done.
Qed.

Lemma streaming_after_cons s ev evs :
  streaming_after s (ev :: evs) =
  streaming_after (streaming_after s [ev]) evs.
Proof. destruct ev; reflexivity. Qed.

Lemma run_streaming b evs b' :
  run b evs = Some b' -> streaming b' = streaming_after (streaming b) evs.
Proof.
  revert b. induction evs as [|ev evs IH]; intros b; simpl.
  - intros [= <-]. done.
  - destruct (step b ev) as [b1|] eqn:E; [|done]. intros H.
    rewrite (IH _ H), (step_streaming _ _ _ E).
    symmetry. apply streaming_after_cons.
Qed.

(** One step plays chunks that were pending or are captured by that
    very step, and whatever is still pending comes from there too. *)
Lemma step_account b ev b' :
  step b ev = Some b' ->
  exists played,
    sound_output b' = sound_output b ++ played /\
    played ++ pending b' ⊆+ pending b ++ captured [ev].
Proof.
  unfold pending.
  destruct ev; simpl;
    try (intros [= <-]; exists []; simpl; rewrite ?app_nil_r; done).
  - (* disable_audio_delay *)
    intros [= <-]. exists []. simpl. rewrite !app_nil_r, map_app.
    split; [done|]. apply submseteq_inserts_r. done.
  - (* _mic_callback *)
    intros [= <-]. unfold _mic_callback.
    destruct (audio_delay_enabled b).
    + exists []. simpl. rewrite app_nil_r, !map_app, app_assoc. done.
    + destruct (streaming b && sound_output_ready b).
      * exists [pcm]. simpl. split; [done|].
        apply Permutation_submseteq.
        change (pcm :: ?l) with ([pcm] ++ l).
        apply Permutation_app_comm.
      * exists []. simpl. split; [by rewrite app_nil_r|].
        apply submseteq_inserts_r. done.
  - (* _playback_thread *)
    unfold playback_turn. destruct (_recv_q b); [done|].
    destruct (scale_chunk _ _); [|done]. intros [= <-].
    exists []. simpl. rewrite !app_nil_r. done.
  - (* worker: get *)
    unfold worker_get. destruct (worker b) eqn:W; try done.
    destruct (audio_delay_queue b) as [|f rest] eqn:Qe; [done|].
    intros [= <-]. exists []. simpl. rewrite !app_nil_r. done.
  - (* worker: flag test *)
    unfold worker_check. destruct (worker b) as [|[ts pcm]|] eqn:W; try done.
    destruct (negb _); intros [= <-]; exists []; simpl;
      rewrite !app_nil_r; [|done].
    split; [done|]. apply submseteq_cons. done.
  - (* worker: after the sleep *)
    unfold worker_wake. destruct (worker b) as [| |[ts pcm] wa] eqn:W; try done.
    destruct (Qle_bool wa t); [|done]. intros [= <-].
    destruct (streaming b && sound_output_ready b).
    + exists [pcm]. simpl. rewrite !app_nil_r. done.
    + exists []. simpl. rewrite !app_nil_r. split; [done|].
      apply submseteq_cons. done.
Qed.

Lemma captured_cons ev evs : captured (ev :: evs) = captured [ev] ++ captured evs.
Proof. destruct ev; reflexivity. Qed.

Lemma run_account b evs b' :
  run b evs = Some b' ->
  exists played,
    sound_output b' = sound_output b ++ played /\
    played ++ pending b' ⊆+ pending b ++ captured evs.
Proof.
  revert b. induction evs as [|ev evs IH]; intros b; cbn [run].
  - intros [= <-]. exists []. simpl. rewrite !app_nil_r. done.
  - destruct (step b ev) as [b1|] eqn:E; [|done]. intros H.
    destruct (step_account _ _ _ E) as (p1 & Hs1 & Ha1).
    destruct (IH _ H) as (p2 & Hs2 & Ha2).
    exists (p1 ++ p2). split; [rewrite Hs2, Hs1, app_assoc; done|].
    rewrite (captured_cons ev evs).
    rewrite <- app_assoc.
    transitivity (p1 ++ pending b1 ++ captured evs).
    { apply submseteq_app; [done|exact Ha2]. }
    rewrite !app_assoc. apply submseteq_app; [exact Ha1|done].
Qed.

(** C7. Late-binding mute. When the worker comes out of its sleep it
    plays the frame exactly if [streaming] (and the sound output) is
    up at that moment; the moment is not before capture time plus the
    delay; the capture itself queues the frame whatever [streaming] is
    and plays nothing. So if, after any events, [streaming] is off when
    the worker wakes, the frame is dropped, and nothing played later
    is that frame: later audio comes from the frames behind it in the
    queue or from later captures. *)
Theorem late_binding_mute :
  (forall b t b', worker_wake t b = Some b' ->
      exists tstamp pcm wake_at,
        worker b = Sleeping (tstamp, pcm) wake_at /\ (wake_at <= t)%Q /\
        worker b' = Idle /\
        audio_delay_queue b' = audio_delay_queue b /\
        sound_output b' =
          sound_output b ++
          (if streaming b && sound_output_ready b then [pcm] else [])) /\
  (forall b t frame,
      worker b = Holding frame -> audio_delay_enabled b = true ->
      exists wake_at,
        worker_check t b = Some (set_worker (Sleeping frame wake_at) b) /\
        (t <= wake_at)%Q /\
        (fst frame + audio_delay_seconds b <= wake_at)%Q) /\
  (forall b t pcm,
      audio_delay_enabled b = true ->
      audio_delay_queue (_mic_callback t pcm b)
        = audio_delay_queue b ++ [(t, pcm)] /\
      sound_output (_mic_callback t pcm b) = sound_output b /\
      streaming (_mic_callback t pcm b) = streaming b) /\
  (forall b0 evs b1 t b2,
      run b0 evs = Some b1 ->
      streaming_after (streaming b0) evs = false ->
      worker_wake t b1 = Some b2 ->
      sound_output b2 = sound_output b1 /\ worker b2 = Idle /\
      forall evs' b3,
        run b2 evs' = Some b3 ->
        exists played,
          sound_output b3 = sound_output b1 ++ played /\
          played ⊆+ map snd (audio_delay_queue b1) ++ captured evs').
Proof.
  assert (Hwake : forall b t b', worker_wake t b = Some b' ->
      exists tstamp pcm wake_at,
        worker b = Sleeping (tstamp, pcm) wake_at /\ (wake_at <= t)%Q /\
        worker b' = Idle /\
        audio_delay_queue b' = audio_delay_queue b /\
        sound_output b' =
          sound_output b ++
          (if streaming b && sound_output_ready b then [pcm] else [])).
  { intros b t b'. unfold worker_wake.
    destruct (worker b) as [| |[ts pcm] wa] eqn:W; try done.
    destruct (Qle_bool wa t) eqn:E; [|done]. intros [= <-].
    exists ts, pcm, wa. split; [done|].
    split; [by apply Qle_bool_iff|].
    destruct (streaming b && sound_output_ready b); simpl;
      rewrite ?app_nil_r; done. }
  split; [exact Hwake|]. split; [|split].
  - intros b t [ts pcm] W En. unfold worker_check. rewrite W, En. simpl.
    eexists. split; [reflexivity|].
    destruct (Qlt_le_dec 0 (ts + audio_delay_seconds b - t)); lra.
  - intros b t pcm En. unfold _mic_callback. rewrite En. done.
  - intros b0 evs b1 t b2 Hrun Hoff Hw.
    destruct (Hwake _ _ _ Hw) as (ts & pcm & wa & W & _ & W2 & Q2 & S2).
    rewrite (run_streaming _ _ _ Hrun), Hoff in S2. simpl in S2.
    rewrite app_nil_r in S2. split; [done|]. split; [done|].
    intros evs' b3 Hrun'.
    destruct (run_account _ _ _ Hrun') as (played & Hs & Ha).
    exists played. split; [congruence|].
    unfold pending in Ha. rewrite W2, Q2 in Ha. simpl in Ha.
    etransitivity; [|exact Ha]. apply submseteq_inserts_r. done.
Qed.

(** C8. Disabling the delay discards what is in flight.
    [disable_audio_delay] leaves the flag off and the queue empty and
    plays nothing; whatever is played after it is the frame the worker
    had already taken or audio captured later, never a frame that was
    in the queue; and a frame that the worker tests while the flag is
    off is dropped: the worker goes back to [get], nothing is played
    and nothing else changes. *)
Theorem disable_delay_discards :
  (forall b,
      audio_delay_enabled (disable_audio_delay b) = false /\
      audio_delay_queue (disable_audio_delay b) = [] /\
      sound_output (disable_audio_delay b) = sound_output b /\
      worker (disable_audio_delay b) = worker b) /\
  (forall b evs b',
      run (disable_audio_delay b) evs = Some b' ->
      exists played,
        sound_output b' = sound_output b ++ played /\
        played ⊆+ map snd (held (worker b)) ++ captured evs) /\
  (forall b t frame,
      worker b = Holding frame -> audio_delay_enabled b = false ->
      worker_check t b = Some (set_worker Idle b)) /\
  (forall b t frame rest,
      worker b = Idle -> audio_delay_queue b = frame :: rest ->
      audio_delay_enabled b = false ->
      exists b',
        run b [ev_worker_get; ev_worker_check t] = Some b' /\
        worker b' = Idle /\ audio_delay_queue b' = rest /\
        sound_output b' = sound_output b /\
        audio_delay_enabled b' = false /\ streaming b' = streaming b).
Proof.
  split; [done|]. split; [|split].
  - intros b evs b' Hrun.
    destruct (run_account _ _ _ Hrun) as (played & Hs & Ha).
    exists played. split; [exact Hs|].
    unfold pending in Ha. simpl in Ha. rewrite !app_nil_r in Ha.
    etransitivity; [|exact Ha]. apply submseteq_inserts_r. done.
  - intros b t [ts pcm] W En. unfold worker_check. rewrite W, En. done.
  - intros b t [ts pcm] rest W Qe En. simpl.
    unfold worker_get. rewrite W, Qe. unfold worker_check. simpl.
    rewrite En. simpl. eexists. split; [reflexivity|]. done.
Qed.

Lemma late_binding_mute_witness :
  streaming scenario3_start = true /\
  worker scenario3_muted = Sleeping (10%Q, [1; 2; 3]) 13%Q /\
  worker_wake 12%Q scenario3_muted = None /\
  worker_wake 13%Q scenario3_muted = Some scenario3_woken /\
  sound_output scenario3_woken = [] /\
  sound_output scenario3_woken = sound_output scenario3_muted /\
  worker scenario3_woken = Idle.
Proof.
  split; [reflexivity|]. split; [vm_compute; reflexivity|].
  split; [vm_compute; reflexivity|]. split; [vm_compute; reflexivity|].
  split; [vm_compute; reflexivity|].
  destruct (proj2 (proj2 (proj2 late_binding_mute))
              scenario3_start scenario3_events scenario3_muted 13%Q
              scenario3_woken) as (H1 & H2 & _).
  - vm_compute. reflexivity.
  - reflexivity.
  - vm_compute. reflexivity.
  - split; [exact H1|exact H2].
Defined.

(** Without the mute the same frame is played at 13. *)
Example scenario3_without_mute :
  exists b1 b2,
    run scenario3_start
        [ev_mic 10 [1; 2; 3]; ev_worker_get; ev_worker_check 10] = Some b1 /\
    worker_wake 13%Q b1 = Some b2 /\ sound_output b2 = [[1; 2; 3]].
Proof. do 2 eexists. repeat split; vm_compute; reflexivity. Qed.

Lemma disable_delay_discards_witness :
  map snd (audio_delay_queue in_flight) = [[2]; [3]] /\
  run (disable_audio_delay in_flight) after_disable = Some in_flight_end /\
  sound_output in_flight_end = [[1]; [4]] /\
  exists played,
    sound_output in_flight_end = sound_output in_flight ++ played /\
    played ⊆+ map snd (held (worker in_flight)) ++ captured after_disable.
Proof.
  split; [vm_compute; reflexivity|]. split; [vm_compute; reflexivity|].
  split; [vm_compute; reflexivity|].
  apply (proj1 (proj2 disable_delay_discards) in_flight after_disable).
  vm_compute. reflexivity.
Defined.

End RelayFacts.

(** ** The bot: the volume law in binary32 *)

Module VolumeFacts.
Import BotServer BotSpec.
Local Open Scope Z_scope.

(** *** Digits and shifts of the rounding of [SpecFloat] *)

Lemma Zdigits2_log2 p : Zdigits2 (Zpos p) = Z.log2 (Zpos p) + 1.
Proof.
  assert (Hs : forall q, digits2_pos q = Pos.size q)
    by (induction q; simpl; congruence).
  unfold Zdigits2. rewrite Hs.
  destruct p; cbn [Pos.size Z.log2]; rewrite ?Pos2Z.inj_succ; lia.
Qed.

Lemma Zdigits2_nonneg m : 0 <= Zdigits2 m.
Proof. destruct m; simpl; lia. Qed.

Lemma Zdigits2_le m k : 0 <= m -> 0 <= k -> (Zdigits2 m <= k <-> m < 2 ^ k).
Proof.
  intros Hm Hk. destruct m as [|p|p]; [|clear Hm|lia].
  - simpl. split; [intros _; apply Z.pow_pos_nonneg; lia|done].
  - rewrite Zdigits2_log2, Z.log2_lt_pow2 by lia. lia.
Qed.

Lemma Zdigits2_gt m : 0 <= m -> m < 2 ^ Zdigits2 m.
Proof.
  intros Hm. apply Zdigits2_le; [done|apply Zdigits2_nonneg|lia].
Qed.

Lemma shiftr_lt_pow2 m d n k :
  0 <= m -> m < 2 ^ d -> 0 <= n -> 0 <= k -> d - n <= k ->
  Z.shiftr m n < 2 ^ k.
Proof.
  intros Hm Hd Hn Hk Hle. rewrite Z.shiftr_div_pow2 by done.
  apply Z.div_lt_upper_bound; [apply Z.pow_pos_nonneg; lia|].
  rewrite <- Z.pow_add_r by done.
  destruct (Z_lt_le_dec d 0) as [Hneg|Hpos].
  - rewrite (Z.pow_neg_r 2 d) in Hd by done. lia.
  - eapply Z.lt_le_trans; [exact Hd|].
    apply Z.pow_le_mono_r; lia.
Qed.

Lemma shr_1_m mrs : 0 <= shr_m mrs -> shr_m (shr_1 mrs) = Z.div2 (shr_m mrs).
Proof. destruct mrs as [[|[p|p|]|p] r s]; simpl; intros; done || lia. Qed.

Lemma iter_shr_m p mrs :
  0 <= shr_m mrs ->
  shr_m (iter_pos shr_1 p mrs) = Z.shiftr (shr_m mrs) (Zpos p).
Proof.
  revert mrs. induction p as [p IH|p IH|]; intros mrs Hm; simpl iter_pos.
  - assert (H1 : 0 <= shr_m (shr_1 mrs))
      by (rewrite shr_1_m, Z.div2_spec by done; apply Z.shiftr_nonneg; done).
    assert (H2 : 0 <= shr_m (iter_pos shr_1 p (shr_1 mrs)))
      by (rewrite IH by done; apply Z.shiftr_nonneg; done).
    rewrite IH, IH, shr_1_m, Z.div2_spec by done.
    rewrite !Z.shiftr_shiftr by lia. f_equal. lia.
  - assert (H2 : 0 <= shr_m (iter_pos shr_1 p mrs))
      by (rewrite IH by done; apply Z.shiftr_nonneg; done).
    rewrite IH, IH by done.
    rewrite !Z.shiftr_shiftr by lia. f_equal. lia.
  - rewrite shr_1_m, Z.div2_spec by done. done.
Qed.

Lemma shr_record_of_loc_m m l : shr_m (shr_record_of_loc m l) = m.
Proof. destruct l as [|[]]; done. Qed.

Abbreviation fexp32 := (fexp 24 128).

(** What [shr_fexp] leaves: mantissa and exponent. *)
Lemma shr_fexp_spec m e l :
  0 <= m ->
  let n := fexp32 (Zdigits2 m + e) - e in
  shr_m (fst (shr_fexp 24 128 m e l)) = (if 0 <? n then Z.shiftr m n else m)
  /\ snd (shr_fexp 24 128 m e l) = (if 0 <? n then e + n else e).
Proof.
  intros Hm n. unfold shr_fexp. fold n. unfold shr.
  destruct n as [|p|p]; simpl; rewrite ?shr_record_of_loc_m; [done| |done].
  rewrite iter_shr_m by (rewrite shr_record_of_loc_m; done).
  rewrite shr_record_of_loc_m. done.
Qed.

Lemma shr_fexp_bound m e l :
  0 <= m -> 0 <= shr_m (fst (shr_fexp 24 128 m e l)) < 2 ^ 24.
Proof.
  intros Hm. destruct (shr_fexp_spec m e l Hm) as [-> _].
  pose proof (Zdigits2_gt m Hm) as Hd.
  pose proof (Zdigits2_nonneg m) as Hd0.
  destruct (0 <? _) eqn:E.
  - apply Z.ltb_lt in E. split; [apply Z.shiftr_nonneg; done|].
    eapply shiftr_lt_pow2; [done|exact Hd|lia|lia|].
    unfold fexp, emin in *. lia.
  - apply Z.ltb_ge in E. split; [done|].
    apply Zdigits2_le; [done|lia|]. unfold fexp, emin in *. lia.
Qed.

Lemma round_nearest_even_bound m l :
  m <= round_nearest_even m l <= m + 1.
Proof.
  destruct l as [|[]]; simpl; try lia. destruct (Z.even m); lia.
Qed.

Lemma binary_round_aux_spec sx mx ex lx :
  0 <= mx ->
  not_nan (binary_round_aux 24 128 sx mx ex lx) /\
  bounded24 (binary_round_aux 24 128 sx mx ex lx) /\
  (ex <= fexp32 (Zdigits2 mx + ex) -> Zdigits2 mx + ex <= 127 ->
   is_finite (binary_round_aux 24 128 sx mx ex lx) = true).
Proof.
  intros Hm. unfold binary_round_aux.
  pose proof (shr_fexp_spec mx ex lx Hm) as [Hm1 He1].
  pose proof (shr_fexp_bound mx ex lx Hm) as Hb1.
  destruct (shr_fexp 24 128 mx ex lx) as [mrs' e'].
  cbn [fst snd] in *.
  set (mr := round_nearest_even (shr_m mrs') (loc_of_shr_record mrs')).
  pose proof (round_nearest_even_bound (shr_m mrs') (loc_of_shr_record mrs'))
    as Hr. fold mr in Hr.
  assert (Hmr : 0 <= mr) by lia.
  pose proof (shr_fexp_spec mr e' loc_Exact Hmr) as [Hm2 He2].
  pose proof (shr_fexp_bound mr e' loc_Exact Hmr) as Hb2.
  destruct (shr_fexp 24 128 mr e' loc_Exact) as [mrs'' e''].
  cbn [fst snd] in *.
  destruct (shr_m mrs'') as [|m|m] eqn:Em; [done| |lia].
  split; [destruct (e'' <=? 128 - 24); done|].
  split; [destruct (e'' <=? 128 - 24); simpl; lia|].
  intros Hal HD.
  assert (He'' : e'' <= 104).
  { pose proof (Zdigits2_nonneg mx) as Hd0.
    pose proof (Zdigits2_gt mx Hm) as Hdx.
    set (n1 := fexp32 (Zdigits2 mx + ex) - ex) in *.
    assert (Hn1 : 0 <= n1) by (unfold n1; lia).
    assert (He' : e' = ex + n1).
    { rewrite He1. destruct (0 <? n1) eqn:E; [done|].
      apply Z.ltb_ge in E. lia. }
    assert (Hm' : shr_m mrs' < 2 ^ Z.max 0 (Zdigits2 mx - n1)).
    { rewrite Hm1. destruct (0 <? n1) eqn:E.
      - eapply shiftr_lt_pow2; [done|exact Hdx|lia|lia|lia].
      - apply Z.ltb_ge in E. assert (n1 = 0) as -> by lia.
        rewrite Z.sub_0_r, Z.max_r by done. done. }
    assert (Hdr : Zdigits2 mr <= Z.max 0 (Zdigits2 mx - n1) + 1).
    { apply Zdigits2_le; [done|lia|].
      rewrite Z.pow_add_r by lia. lia. }
    rewrite He2. clear Hm' Hdx Hb1 Hb2 Hr Hm1 Hm2 He1 He2 Em.
    unfold n1, fexp, emin in *.
    destruct (0 <? _); lia. }
  apply Z.leb_le in He''. change (128 - 24) with 104. rewrite He''. done.
Qed.

Lemma digits2_iter_xO m d :
  Zpos (digits2_pos (Pos.iter xO m d)) = Zpos (digits2_pos m) + Zpos d.
Proof.
  induction d as [|d IH] using Pos.peano_ind.
  - simpl. lia.
  - rewrite Pos.iter_succ. simpl digits2_pos. lia.
Qed.

Lemma binary_round_spec sx mx ex :
  not_nan (binary_round 24 128 sx mx ex) /\
  bounded24 (binary_round 24 128 sx mx ex) /\
  (Zpos (digits2_pos mx) + ex <= 127 ->
   is_finite (binary_round 24 128 sx mx ex) = true).
Proof.
  unfold binary_round.
  set (t := fexp32 (Zpos (digits2_pos mx) + ex)).
  assert (Hal : let '(mz, ez) := shl_align mx ex t in
            ez <= t /\
            Zdigits2 (Zpos mz) + ez = Zpos (digits2_pos mx) + ex).
  { unfold shl_align. destruct (t - ex) as [|d|d] eqn:E; simpl; [lia|lia|].
    rewrite digits2_iter_xO. lia. }
  destruct (shl_align mx ex t) as [mz ez]. destruct Hal as [H1 H2].
  destruct (binary_round_aux_spec sx (Zpos mz) ez loc_Exact) as (Hn & Hb & Hf);
    [lia|].
  split; [done|]. split; [done|]. intros HD. apply Hf.
  - rewrite H2. done.
  - lia.
Qed.

(** *** The conversions and the product *)

Lemma f32_of_int16_spec s :
  INT16_MIN <= s <= INT16_MAX ->
  is_finite (f32_of_int16 s) = true /\ bounded24 (f32_of_int16 s).
Proof.
  unfold INT16_MIN, INT16_MAX, f32_of_int16, binary_normalize. intros Hs.
  destruct s as [|p|p]; [done| |].
  all: destruct (binary_round_spec (match 0 with 0 => false | _ => true end) p 0)
         as (_ & Hb & Hf).
  all: destruct (binary_round_spec true p 0) as (_ & Hb' & Hf').
  all: assert (Hd : Zpos (digits2_pos p) + 0 <= 127)
         by (change (Zpos (digits2_pos p)) with (Zdigits2 (Zpos p));
             rewrite Z.add_0_r;
             etransitivity; [apply (Zdigits2_le (Zpos p) 16); lia|lia]).
  - split; [apply Hf; done|done].
  - split; [apply Hf'; done|done].
Qed.

Lemma f32_of_f64_spec v :
  valid_binary 53 1024 v = true -> in_unit v = true ->
  is_finite (f32_of_f64 v) = true /\ bounded24 (f32_of_f64 v).
Proof.
  intros Hv Hu. apply andb_true_iff in Hu as [H0 H1].
  destruct v as [s|s| |s m e]; [done|by destruct s|done|].
  destruct s; [done|]. unfold f32_of_f64.
  destruct (binary_round_spec false m e) as (_ & Hb & Hf).
  split; [|done]. apply Hf.
  (* 53 digits at most, and an exponent of at most -52 *)
  simpl in Hv. apply andb_true_iff in Hv as [Hc _].
  unfold canonical_mantissa, fexp, emin in Hc. apply Z.eqb_eq in Hc.
  assert (He : e <= -52).
  { revert H1. unfold SFleb, f64_one. cbn [SFcompare].
    destruct (Z.compare_spec e (-52)); [lia|lia|done]. }
  lia.
Qed.

Lemma f32_mul_spec x y :
  is_finite x = true -> is_finite y = true ->
  not_nan (f32_mul x y) /\ bounded24 (f32_mul x y).
Proof.
  destruct x as [sx|sx| |sx mx ex], y as [sy|sy| |sy my ey]; try done.
  intros _ _. unfold f32_mul, SFmul.
  destruct (binary_round_aux_spec (xorb sx sy) (Zpos (mx * my)) (ex + ey)
              loc_Exact) as (Hn & Hb & _); [lia|]. done.
Qed.

(** *** Clipping and the conversion back *)

Lemma f32_lo : f32_of_int16 (-32768) = S754_finite true 8388608 (-8).
Proof. reflexivity. Qed.

Lemma f32_hi : f32_of_int16 32767 = S754_finite false 16776704 (-9).
Proof. reflexivity. Qed.

Lemma SFcompare_total a b :
  a <> S754_nan -> b <> S754_nan -> is_Some (SFcompare a b).
Proof.
  destruct a as [| | |], b as [| | |]; try done; intros _ _; simpl; eauto.
Qed.

Lemma SFleb_false_ltb a b :
  a <> S754_nan -> b <> S754_nan -> SFleb a b = negb (SFltb b a).
Proof.
  intros Ha Hb. unfold SFleb, SFltb.
  rewrite (BotFacts.SFcompare_swap a b).
  destruct (SFcompare_total a b Ha Hb) as [c ->]. destruct c; done.
Qed.

Lemma np_clip_clamp x :
  np_clip x (f32_of_int16 (-32768)) (f32_of_int16 32767)
  = clamp x INT16_MIN INT16_MAX.
Proof.
  unfold np_clip, clamp, INT16_MIN, INT16_MAX. rewrite f32_lo, f32_hi.
  assert (Hx : x = S754_nan \/ x <> S754_nan)
    by (destruct x; auto; right; done).
  destruct Hx as [->|Hx]; [done|].
  assert (Hmax : np_maximum x (S754_finite true 8388608 (-8)) =
            if SFltb x (S754_finite true 8388608 (-8))
            then S754_finite true 8388608 (-8) else x).
  { unfold np_maximum. rewrite SFleb_false_ltb by done.
    destruct (SFltb x _); destruct x; done. }
  rewrite Hmax. destruct (SFltb x (S754_finite true 8388608 (-8))) eqn:E.
  - done.
  - unfold np_minimum. rewrite SFleb_false_ltb by done.
    destruct (SFltb (S754_finite false 16776704 (-9)) x); destruct x; done.
Qed.

Lemma clamp_between x :
  x <> S754_nan ->
  let r := clamp x INT16_MIN INT16_MAX in
  (r = x \/ r = f32_of_int16 (-32768) \/ r = f32_of_int16 32767) /\
  SFleb (f32_of_int16 (-32768)) r = true /\
  SFleb r (f32_of_int16 32767) = true.
Proof.
  intros Hx. unfold clamp, INT16_MIN, INT16_MAX. rewrite f32_lo, f32_hi.
  destruct (SFltb x (S754_finite true 8388608 (-8))) eqn:E1.
  { split; [auto|]. done. }
  destruct (SFltb (S754_finite false 16776704 (-9)) x) eqn:E2.
  { split; [auto|]. done. }
  split; [auto|].
  rewrite !SFleb_false_ltb by done. rewrite E1, E2. done.
Qed.

Lemma pos_compare_le (m c : positive) :
  match Pos.compare_cont Eq m c with Gt => False | _ => True end ->
  Zpos m <= Zpos c.
Proof.
  change (Pos.compare_cont Eq m c) with (m ?= c)%positive.
  destruct (Pos.compare_spec m c); [lia|lia|done].
Qed.

Lemma trunc_in_range r :
  r <> S754_nan -> bounded24 r ->
  SFleb (f32_of_int16 (-32768)) r = true ->
  SFleb r (f32_of_int16 32767) = true ->
  exists z, trunc_float r = Some z /\ INT16_MIN <= z <= INT16_MAX.
Proof.
  unfold INT16_MIN, INT16_MAX. rewrite f32_lo, f32_hi.
  intros Hn Hb Hlo Hhi.
  destruct r as [s|[]| |[] m e]; [exists 0; split; [done|lia]|done|done|done| |].
  - (* negative: only the lower bound matters *)
    clear Hhi. unfold bounded24 in Hb. revert Hlo.
    unfold SFleb. cbn [SFcompare].
    destruct (Z.compare_spec (-8) e) as [<-|Hlt|Hgt]; [|done|]; intros H.
    + assert (Hm : Zpos m <= 8388608).
      { apply pos_compare_le.
        rewrite <- (Pos.compare_cont_antisym _ _ Eq).
        cbn [CompOpp] in *.
        destruct (Pos.compare_cont Eq 8388608 m); done. }
      eexists. split; [reflexivity|]. cbn beta iota.
      rewrite Z.shiftr_div_pow2 by lia.
      assert (Zpos m / 2 ^ 8 <= 8388608 / 2 ^ 8)
        by (apply Z.div_le_mono; lia).
      assert (0 <= Zpos m / 2 ^ 8) by (apply Z.div_pos; lia).
      change (8388608 / 2 ^ 8) with 32768 in *. lia.
    + destruct e as [|p|p]; [lia|lia|].
      eexists. split; [reflexivity|]. cbn beta iota.
      assert (Z.shiftr (Zpos m) (Zpos p) < 2 ^ 15)
        by (eapply shiftr_lt_pow2; [lia|exact Hb|lia|lia|lia]).
      assert (0 <= Z.shiftr (Zpos m) (Zpos p))
        by (apply Z.shiftr_nonneg; lia).
      change (2 ^ 15) with 32768 in *. lia.
  - (* positive: only the upper bound matters *)
    clear Hlo. unfold bounded24 in Hb. revert Hhi.
    unfold SFleb. cbn [SFcompare].
    destruct (Z.compare_spec e (-9)) as [->|Hlt|Hgt]; [| |done]; intros H.
    + assert (Hm : Zpos m <= 16776704).
      { apply pos_compare_le.
        destruct (Pos.compare_cont Eq m 16776704); done. }
      eexists. split; [reflexivity|]. cbn beta iota.
      rewrite Z.shiftr_div_pow2 by lia.
      assert (Zpos m / 2 ^ 9 <= 16776704 / 2 ^ 9)
        by (apply Z.div_le_mono; lia).
      assert (0 <= Zpos m / 2 ^ 9) by (apply Z.div_pos; lia).
      change (16776704 / 2 ^ 9) with 32767 in *. lia.
    + destruct e as [|p|p]; [lia|lia|].
      eexists. split; [reflexivity|]. cbn beta iota.
      assert (Z.shiftr (Zpos m) (Zpos p) < 2 ^ 14)
        by (eapply shiftr_lt_pow2; [lia|exact Hb|lia|lia|lia]).
      assert (0 <= Z.shiftr (Zpos m) (Zpos p))
        by (apply Z.shiftr_nonneg; lia).
      change (2 ^ 14) with 16384 in *. lia.
Qed.

(** C9. Volume law. For an int16 sample and a volume in [0,1] (a
    binary64 float), what lines 229-231 write for the sample is
    defined and is clamp(sample * volume, -32768, 32767) turned back
    into an int16: the product is the binary32 product of the sample
    and the volume (NumPy multiplies in float32), the clamp keeps it in
    the int16 range, and so the conversion, which takes the integer
    part, loses nothing else. A chunk is scaled sample by sample, and
    that is the chunk a turn of _playback_thread writes out. *)
Theorem volume_law_holds v :
  valid_binary 53 1024 v = true -> in_unit v = true ->
  (forall s, INT16_MIN <= s <= INT16_MAX ->
     exists z,
       scale_sample v s = Some z /\
       volume_law v s = Some z /\
       INT16_MIN <= z <= INT16_MAX /\
       trunc_float (clamp (f32_mul (f32_of_int16 s) (f32_of_f64 v))
                          INT16_MIN INT16_MAX) = Some z) /\
  (forall pcm, Forall (fun s => INT16_MIN <= s <= INT16_MAX) pcm ->
     exists out,
       scale_chunk v pcm = Some out /\
       Forall2 (fun s z => volume_law v s = Some z /\
                           INT16_MIN <= z <= INT16_MAX) pcm out) /\
  (forall b pcm rest,
     playback_volume b = v -> _recv_q b = pcm :: rest ->
     Forall (fun s => INT16_MIN <= s <= INT16_MAX) pcm ->
     exists out,
       playback_turn b = Some (set_playback rest (outstream b ++ [out]) b) /\
       Forall2 (fun s z => volume_law v s = Some z) pcm out).
Proof.
  intros Hv Hu.
  assert (Hone : forall s, INT16_MIN <= s <= INT16_MAX ->
     exists z,
       scale_sample v s = Some z /\
       volume_law v s = Some z /\
       INT16_MIN <= z <= INT16_MAX /\
       trunc_float (clamp (f32_mul (f32_of_int16 s) (f32_of_f64 v))
                          INT16_MIN INT16_MAX) = Some z).
  { intros s Hs.
    destruct (f32_of_int16_spec s Hs) as [Hxf _].
    destruct (f32_of_f64_spec v Hv Hu) as [Hyf _].
    destruct (f32_mul_spec _ _ Hxf Hyf) as [Hpn Hpb].
    set (p := f32_mul (f32_of_int16 s) (f32_of_f64 v)) in *.
    destruct (clamp_between p Hpn) as (Hr & Hlo & Hhi).
    set (r := clamp p INT16_MIN INT16_MAX) in *.
    assert (Hrn : r <> S754_nan).
    { destruct Hr as [->|[->| ->]]; done. }
    assert (Hrb : bounded24 r).
    { destruct Hr as [->|[->| ->]]; [done| |]; simpl; lia. }
    destruct (trunc_in_range r Hrn Hrb Hlo Hhi) as (z & Hz & Hrange).
    exists z.
    assert (Hlaw : volume_law v s = Some z).
    { unfold volume_law, astype_int16. fold p. fold r. rewrite Hz.
      destruct Hrange as [H1 H2].
      apply Z.leb_le in H1. apply Z.leb_le in H2. rewrite H1, H2. done. }
    split; [|done].
    unfold scale_sample. cbv zeta. fold p. rewrite np_clip_clamp. exact Hlaw. }
  assert (Hchunk : forall pcm,
     Forall (fun s => INT16_MIN <= s <= INT16_MAX) pcm ->
     exists out,
       scale_chunk v pcm = Some out /\
       Forall2 (fun s z => volume_law v s = Some z /\
                           INT16_MIN <= z <= INT16_MAX) pcm out).
  { induction 1 as [|s pcm Hs _ (out & Hout & Hall)].
    - exists []. split; [done|constructor].
    - destruct (Hone s Hs) as (z & Hz & Hlaw & Hr & _).
      exists (z :: out). split.
      + simpl. rewrite Hz, Hout. done.
      + constructor; done. }
  split; [exact Hone|]. split; [exact Hchunk|].
  intros b pcm rest Hvol Hq Hpcm.
  destruct (Hchunk pcm Hpcm) as (out & Hout & Hall).
  exists out. split.
  - unfold playback_turn. rewrite Hq, Hvol, Hout. done.
  - eapply Forall2_impl; [exact Hall|]. intros s z [H _]. exact H.
Qed.

Lemma volume_law_witness :
  scale_sample f64_0_7 10 = Some 7 /\
  scale_sample f64_one (-32768) = Some (-32768) /\
  forall s, INT16_MIN <= s <= INT16_MAX ->
    exists z,
      scale_sample f64_0_7 s = Some z /\
      volume_law f64_0_7 s = Some z /\
      INT16_MIN <= z <= INT16_MAX /\
      trunc_float
        (clamp (f32_mul (f32_of_int16 s) (f32_of_f64 f64_0_7))
               INT16_MIN INT16_MAX) = Some z.
Proof.
  split; [reflexivity|]. split; [reflexivity|].
  exact (proj1 (volume_law_holds f64_0_7 eq_refl eq_refl)).
Defined.

End VolumeFacts.

Local Open Scope list_scope.

(** * Further properties *)

(** ** The handlers, run exactly *)

Section ControllerExact.

Variable LOOPS : list Loop.
Variable clock : nat -> Q.

Lemma app_two {A} (l : list A) x y : (l ++ [x]) ++ [y] = l ++ [x; y].
Proof. rewrite <- app_assoc. reflexivity. Qed.

Lemma demote_other_self loop_name x w :
  name x = loop_name -> demote_other clock loop_name x w = Some (tt, w).
Proof.
  intros <-. unfold demote_other. rewrite String.eqb_refl. reflexivity.
Qed.

Lemma demote_other_quiet loop_name x st ob w :
  ls w !! name x = Some (st, ob) ->
  (st = 2 -> truthy_name ob = None) ->
  demote_other clock loop_name x w = Some (tt, w).
Proof.
  intros Hx Hq. unfold demote_other.
  destruct (String.eqb (name x) loop_name); [reflexivity|].
  unfold bind, get_loop_state. rewrite Hx.
  destruct (st =? 2) eqn:E; [|reflexivity].
  apply Z.eqb_eq in E. rewrite (Hq E). reflexivity.
Qed.

Lemma wp_exact (m : M unit) (W w : World) :
  wp m (fun _ w' => w' = W) w -> m w = Some (tt, W).
Proof. intros ([] & w' & H & ->). exact H. Qed.

Lemma demote_other_talker loop_name x b e w :
  name x <> loop_name ->
  ls w !! name x = Some (2, Some b) -> b <> "" ->
  pool_lookup b (pool w) = Some e ->
  demote_other clock loop_name x w
  = Some (tt, demoted_world clock (name x) b (port e) w).
Proof.
  intros Hn Hx Hb He. apply wp_exact. unfold demote_other.
  apply String.eqb_neq in Hn. rewrite Hn.
  wp_step. eapply wp_get_loop_state; [exact Hx|]. cbn [Z.eqb Pos.eqb].
  rewrite (truthy_name_nonempty _ Hb).
  wp_step. eapply wp_get_bot; [exact He|]. wp_steps.
  unfold demoted_world, write_bot, read_clock, write_loop, emit.
  destruct (delay_enabled (self w)) eqn:Ed; wp_steps.
  all: eapply wp_update_bot; [exact He|]; unfold _set_button_state.
  all: wp_step; eapply wp_get_loop_state;
    [cbn; apply lookup_insert_eq|]; wp_step; cbn; rewrite ?Ed; reflexivity.
Qed.

Lemma demote_loop_quiet loop_name l w :
  (forall x, x ∈ l ->
     name x = loop_name \/
     exists st ob, ls w !! name x = Some (st, ob) /\
                   (st = 2 -> truthy_name ob = None)) ->
  for_each l (demote_other clock loop_name) w = Some (tt, w).
Proof.
  induction l as [|x l IH]; intros Hq; [reflexivity|].
  cbn [for_each]. unfold bind.
  assert (Hx : demote_other clock loop_name x w = Some (tt, w)).
  { destruct (Hq x) as [E|(st & ob & Hx & Hst)]; [left| |].
    - by apply demote_other_self.
    - eapply demote_other_quiet; eauto. }
  rewrite Hx. apply IH. intros y Hy. apply Hq. by right.
Qed.

Lemma demote_loop_talker loop_name m b e l w :
  m <> loop_name -> m ∈ map name l ->
  ls w !! m = Some (2, Some b) -> b <> "" ->
  pool_lookup b (pool w) = Some e ->
  (forall x, x ∈ l -> is_Some (ls w !! name x)) ->
  (forall n ob, ls w !! n = Some (2, ob) -> n = m) ->
  for_each l (demote_other clock loop_name) w
  = Some (tt, demoted_world clock m b (port e) w).
Proof.
  intros Hm Hin Ht Hb He. induction l as [|x l IH]; intros Hdom Huniq.
  { inversion Hin. }
  cbn [for_each]. unfold bind.
  destruct (decide (name x = m)) as [Ex|Ex].
  - rewrite (demote_other_talker loop_name x b e w); try done;
      [|congruence|congruence].
    rewrite Ex. apply demote_loop_quiet. intros y Hy. right.
    destruct (decide (name y = m)) as [Ey|Ey].
    + exists 1, (Some b). split; [|done].
      rewrite Ey. cbn. apply lookup_insert_eq.
    + destruct (Hdom y) as [[st ob] Hy']; [by right|].
      exists st, ob. split.
      * cbn. rewrite lookup_insert_ne by done. exact Hy'.
      * intros ->. exfalso. apply Ey. eauto.
  - assert (Hx : demote_other clock loop_name x w = Some (tt, w)).
    { destruct (Hdom x) as [[st ob] Hx]; [left|].
      eapply demote_other_quiet; [exact Hx|].
      intros ->. exfalso. apply Ex. eauto. }
    rewrite Hx. apply IH.
    + cbn in Hin. apply elem_of_cons in Hin as [?|?]; [congruence|done].
    + intros y Hy. apply Hdom. by right.
    + exact Huniq.
Qed.

(** *** _update_bot_assignment, case by case *)

Lemma update_release loop_name new_state cfg st b e w :
  loop_configs LOOPS !! loop_name = Some cfg ->
  ls w !! loop_name = Some (st, Some b) -> b <> "" ->
  pool_lookup b (pool w) = Some e ->
  clamp_for cfg new_state = 0 ->
  _update_bot_assignment LOOPS clock loop_name new_state w
  = Some (tt, released_world clock loop_name st b (port e) w).
Proof.
  intros Hcfg Hl Hb He Hc. apply wp_exact. unfold _update_bot_assignment.
  wp_step. eapply wp_get_loop_config; [exact Hcfg|].
  wp_step. eapply wp_get_loop_state; [exact Hl|]. cbv beta iota zeta.
  rewrite Hc. cbn [Z.eqb]. rewrite (truthy_name_nonempty _ Hb).
  wp_step. wp_step. eapply wp_get_bot; [exact He|]. wp_steps.
  assert (He' : pool_lookup b (pool_alter (set_assigned None) b (pool w))
                = Some (set_assigned None e))
    by (rewrite pool_lookup_alter_eq, He; done).
  unfold released_world, write_loop, write_bot, read_clock, emit.
  destruct (delay_enabled (self w) && (st =? 2)); wp_steps.
  all: eapply wp_update_bot; [exact He|]; wp_steps.
  all: eapply wp_update_bot; [exact He'|]; wp_steps; cbn.
  all: rewrite ?app_two; reflexivity.
Qed.

Lemma update_off_idle loop_name new_state cfg st ob w :
  loop_configs LOOPS !! loop_name = Some cfg ->
  ls w !! loop_name = Some (st, ob) -> truthy_name ob = None ->
  clamp_for cfg new_state = 0 ->
  _update_bot_assignment LOOPS clock loop_name new_state w
  = Some (tt, write_loop loop_name (0, None) w).
Proof.
  intros Hcfg Hl Hb Hc. apply wp_exact. unfold _update_bot_assignment.
  wp_step. eapply wp_get_loop_config; [exact Hcfg|].
  wp_step. eapply wp_get_loop_state; [exact Hl|]. cbv beta iota zeta.
  rewrite Hc. cbn [Z.eqb]. rewrite Hb. wp_steps. reflexivity.
Qed.

Lemma update_keep loop_name new_state cfg st b w :
  loop_configs LOOPS !! loop_name = Some cfg ->
  ls w !! loop_name = Some (st, Some b) -> b <> "" ->
  clamp_for cfg new_state <> 0 ->
  _update_bot_assignment LOOPS clock loop_name new_state w
  = activate LOOPS clock loop_name st (clamp_for cfg new_state) b w.
Proof.
  intros Hcfg Hl Hb Hc. unfold _update_bot_assignment.
  unfold bind at 1. unfold get_loop_config. rewrite Hcfg.
  unfold bind at 1. unfold get_loop_state. rewrite Hl. cbv beta iota zeta.
  apply Z.eqb_neq in Hc. rewrite Hc, (truthy_name_nonempty _ Hb).
  reflexivity.
Qed.

Lemma update_take loop_name new_state cfg st ob b e w :
  loop_configs LOOPS !! loop_name = Some cfg ->
  ls w !! loop_name = Some (st, ob) -> truthy_name ob = None ->
  _find_idle_bot (pool w) = Some b -> b <> "" ->
  pool_lookup b (pool w) = Some e ->
  clamp_for cfg new_state <> 0 ->
  _update_bot_assignment LOOPS clock loop_name new_state w
  = activate LOOPS clock loop_name st (clamp_for cfg new_state) b
      (write_bot b (set_assigned (Some loop_name)) w).
Proof.
  intros Hcfg Hl Hob Hf Hb He Hc. unfold _update_bot_assignment.
  unfold bind at 1. unfold get_loop_config. rewrite Hcfg.
  unfold bind at 1. unfold get_loop_state. rewrite Hl. cbv beta iota zeta.
  apply Z.eqb_neq in Hc. rewrite Hc, Hob.
  unfold bind at 1. unfold find_idle_bot. rewrite Hf.
  rewrite (truthy_name_nonempty _ Hb).
  unfold bind at 1. unfold update_bot, bind, get_bot. rewrite He.
  reflexivity.
Qed.

Lemma activate_tail loop_name ns b e w :
  pool_lookup b (pool w) = Some e ->
  wp (update_bot b (set_assigned (Some loop_name)) ;;
      now <- time_time clock ;;
      update_bot b (set_last_used now) ;;
      set_loop_state loop_name (ns, Some b))
     (fun _ w' => w' = settled_world clock loop_name ns b w) w.
Proof.
  intros He. wp_step. eapply wp_update_bot; [exact He|]. wp_steps.
  eapply wp_update_bot.
  { cbn. rewrite pool_lookup_alter_eq, He. reflexivity. }
  wp_steps. reflexivity.
Qed.

Lemma activate_listen loop_name old_state b e w :
  pool_lookup b (pool w) = Some e ->
  activate LOOPS clock loop_name old_state 1 b w
  = Some (tt, settled_world clock loop_name 1 b
                (emit (commands loop_name old_state 1 (port e) w) w)).
Proof.
  intros He. apply wp_exact. unfold activate.
  wp_step. eapply wp_get_bot; [exact He|]. wp_step.
  cbn [Z.eqb Pos.eqb]. wp_steps. unfold commands. cbn [Z.eqb Pos.eqb].
  destruct ((old_state =? 2) && delay_enabled (self w));
    [apply wp_post|apply wp_bind; apply wp_post; apply wp_post];
    cbn [self outbox ticks].
  all: match goal with |- wp _ _ ?w0 =>
         eapply wp_mono; [|apply (activate_tail loop_name 1 b e w0 He)] end.
  all: intros [] w' ->; unfold emit; rewrite ?app_two; reflexivity.
Qed.

Lemma activate_talk loop_name old_state b e wd w :
  pool_lookup b (pool w) = Some e ->
  for_each LOOPS (demote_other clock loop_name) w = Some (tt, wd) ->
  is_Some (pool_lookup b (pool wd)) ->
  activate LOOPS clock loop_name old_state 2 b w
  = Some (tt, settled_world clock loop_name 2 b
                (emit (commands loop_name old_state 2 (port e) wd) wd)).
Proof.
  intros He Hd [ed Hed]. apply wp_exact. unfold activate.
  wp_step. eapply wp_get_bot; [exact He|]. wp_step.
  cbn [Z.eqb Pos.eqb]. wp_step.
  exists tt, wd. split; [exact Hd|]. wp_steps.
  unfold commands. cbn [Z.eqb Pos.eqb].
  destruct (delay_enabled (self wd));
    [wp_step; wp_step; apply wp_start_timer|apply wp_post];
    cbn [self outbox ticks].
  all: match goal with |- wp _ _ ?w0 =>
         eapply wp_mono; [|apply (activate_tail loop_name 2 b ed w0 Hed)] end.
  all: intros [] w' ->; unfold emit; rewrite ?app_two; reflexivity.
Qed.

End ControllerExact.

(** ** The controller: what the handlers do to loops and bots *)

Section ControllerMore.

Variable LOOPS : list Loop.
Variable clock : nat -> Q.

Lemma write_loop_same n v w : ls w !! n = Some v -> write_loop n v w = w.
Proof.
  intros H. destruct w as [[de ds l p] o t]. unfold write_loop. cbn in *.
  rewrite insert_id by done. reflexivity.
Qed.

Lemma until_refused_none {R} (reqs : list (Z * R)) :
  until_refused (fun _ => false) reqs = reqs.
Proof. induction reqs as [|x l IH]; cbn; congruence. Qed.

Lemma post_all_exact (f : string * BotEntry -> Route) l w :
  for_each l (fun b => post (port (snd b)) (f b)) w
  = Some (tt, emit (map (fun b => Post (port (snd b)) (f b)) l) w).
Proof.
  revert w. induction l as [|x l IH]; intros w; cbn [for_each map].
  - unfold ret, emit. rewrite app_nil_r. destruct w; reflexivity.
  - unfold bind. cbn [post]. rewrite IH. unfold emit. cbn.
    rewrite <- app_assoc. reflexivity.
Qed.

(** With every bot answering, toggle_delay is its guarded form. *)
Lemma toggle_delay_exact w :
  toggle_delay w = Some (tt, toggle_delay_guarded (fun _ => false) w).
Proof.
  unfold toggle_delay, toggle_delay_guarded.
  rewrite until_refused_none, map_map.
  unfold bind, with_self, get_delay_enabled, get_delay_seconds.
  cbn [self outbox ticks delay_enabled delay_seconds bot_pool loop_states].
  destruct (negb (delay_enabled (self w))); rewrite post_all_exact;
    reflexivity.
Qed.

Lemma off_click_outcome loop_name cfg st ob w :
  Inv LOOPS w ->
  loop_configs LOOPS !! loop_name = Some cfg ->
  ls w !! loop_name = Some (st, ob) ->
  wp (on_loop_off_clicked LOOPS clock loop_name)
     (fun _ w' => Inv LOOPS w' /\ released loop_name ob w w') w.
Proof.
  intros HI Hcfg Hl. unfold on_loop_off_clicked. wp_step.
  eapply wp_mono; [|eapply update_outcome; eauto].
  intros [] w' [HI' Ho].
  assert (Hc : clamp_for cfg 0 = 0)
    by (unfold clamp_for; destruct (_ && _); done).
  rewrite Hc in Ho.
  apply set_button_state_spec.
  - apply (inv_dom _ _ HI'). apply (inv_dom _ _ HI). eauto.
  - split; [done|]. destruct Ho as [[_ ?]|[[? _]|[? _]]]; done.
Qed.

Lemma click_deaf loop_name cfg v w :
  loop_configs LOOPS !! loop_name = Some cfg ->
  ls w !! loop_name = Some v -> can_listen cfg = false ->
  on_loop_clicked LOOPS clock loop_name w = Some (tt, w).
Proof.
  intros Hcfg Hl Hcl. unfold on_loop_clicked, bind, get_loop_config.
  rewrite Hcfg. unfold get_loop_state. rewrite Hl. destruct v.
  rewrite Hcl. reflexivity.
Qed.

(** What a click asks for is LISTEN or TALK, and TALK only of a loop
    that can talk. *)
Lemma click_request cfg st :
  can_listen cfg = true ->
  let ns := clamp_for cfg (next_state cfg st) in
  (ns = 1 \/ ns = 2) /\ (ns = 2 -> can_talk cfg = true).
Proof.
  intros Hcl. unfold clamp_for, next_state. rewrite Hcl.
  destruct (can_talk cfg), (st =? 0), (st =? 1), (st =? 2); cbn; auto.
  all: split; [auto|done].
Qed.

(** How an operation that returns changed the loops. *)
Lemma run_op_loops op w w' :
  Inv LOOPS w -> run_op LOOPS clock op w = Some (tt, w') ->
  Inv LOOPS w' /\
  match op with
  | ToggleDelay => self w' = mkWin (negb (delay_enabled (self w)))
                               (delay_seconds (self w)) (ls w) (pool w)
  | Click n =>
      exists cfg st ob,
        loop_configs LOOPS !! n = Some cfg /\ ls w !! n = Some (st, ob) /\
        (if can_listen cfg
         then outcome LOOPS n (clamp_for cfg (next_state cfg st)) ob w w'
         else w' = w)
  | OffClick n =>
      exists st ob, ls w !! n = Some (st, ob) /\ released n ob w w'
  | Update n s =>
      exists cfg st ob,
        loop_configs LOOPS !! n = Some cfg /\ ls w !! n = Some (st, ob) /\
        outcome LOOPS n (clamp_for cfg s) ob w w'
  end.
Proof.
  intros HI Hrun.
  pose proof (run_op_named _ _ _ _ _ Hrun) as Hn.
  destruct op as [n|n|n s|]; cbn [run_op] in Hrun.
  - destruct (proj2 (loop_configs_dom LOOPS _) Hn) as [cfg Hcfg].
    destruct (proj2 (inv_dom _ _ HI _) Hn) as [[st ob] Hl].
    destruct (can_listen cfg) eqn:Hcl.
    + destruct (wp_elim _ _ _ _ _
        (click_outcome _ clock _ _ _ _ _ HI Hcfg Hl Hcl) Hrun) as [HI' Ho].
      split; [done|]. exists cfg, st, ob. rewrite Hcl. done.
    + rewrite (click_deaf _ _ _ _ Hcfg Hl Hcl) in Hrun.
      injection Hrun as <-. split; [done|].
      exists cfg, st, ob. rewrite Hcl. done.
  - destruct (proj2 (loop_configs_dom LOOPS _) Hn) as [cfg Hcfg].
    destruct (proj2 (inv_dom _ _ HI _) Hn) as [[st ob] Hl].
    destruct (wp_elim _ _ _ _ _
      (off_click_outcome _ _ _ _ _ HI Hcfg Hl) Hrun) as [HI' Ho].
    split; [done|]. exists st, ob. done.
  - destruct (proj2 (loop_configs_dom LOOPS _) Hn) as [cfg Hcfg].
    destruct (proj2 (inv_dom _ _ HI _) Hn) as [[st ob] Hl].
    destruct (wp_elim _ _ _ _ _
      (update_outcome _ clock _ s _ _ _ _ HI Hcfg Hl) Hrun) as [HI' Ho].
    split; [done|]. exists cfg, st, ob. done.
  - rewrite toggle_delay_exact in Hrun. injection Hrun as <-.
    split; [|reflexivity]. destruct HI. split; assumption.
Qed.

End ControllerMore.

Section ControllerExtras.

Variable LOOPS : list Loop.
Variable clock : nat -> Q.

(** X1. No handler raises on a loop of LOOPS. In every reachable state
    a click, an OFF click, a call of _update_bot_assignment and a delay
    toggle return (no KeyError from [loop_configs], [loop_states] or
    [bot_pool]) and leave a reachable state; the same operations on a
    name that is not a loop of LOOPS raise. *)
Theorem handlers_never_raise w op :
  reachable LOOPS clock w ->
  (op_known LOOPS op ->
   exists w', run_op LOOPS clock op w = Some (tt, w') /\
              reachable LOOPS clock w') /\
  (~ op_known LOOPS op -> run_op LOOPS clock op w = None).
Proof.
  intros Hr. pose proof (reachable_inv _ _ _ Hr) as HI. split.
  - intros Hk.
    destruct (run_op_preserves LOOPS clock op w HI) as ([] & w' & Hrun & _).
    { destruct op; try done; apply Hk; reflexivity. }
    exists w'. split; [done|]. eapply reach_step; eauto.
  - intros Hk. destruct (run_op LOOPS clock op w) as [r|] eqn:E; [|done].
    exfalso. apply Hk. intros n Hn.
    pose proof (run_op_named _ _ _ _ _ E) as Hnamed.
    destruct op; cbn in Hn; try done; injection Hn as <-; done.
Qed.

(** X2. Capabilities are enforced on what the window can trigger.
    After any clicks, OFF clicks and delay toggles, every loop is in
    state 0, 1 or 2; a loop in TALK can talk and a loop that is not OFF
    can listen, by its entry in [loop_configs]. *)
Theorem capabilities_enforced ops n st ob cfg :
  Forall gui_op ops ->
  ls (world_after LOOPS clock ops) !! n = Some (st, ob) ->
  loop_configs LOOPS !! n = Some cfg ->
  (st = 0 \/ st = 1 \/ st = 2) /\
  (st = 2 -> can_talk cfg = true) /\
  (st <> 0 -> can_listen cfg = true).
Proof.
  set (Caps := fun w : World => forall n st ob cfg,
    ls w !! n = Some (st, ob) -> loop_configs LOOPS !! n = Some cfg ->
    (st = 0 \/ st = 1 \/ st = 2) /\
    (st = 2 -> can_talk cfg = true) /\ (st <> 0 -> can_listen cfg = true)).
  assert (Hoff : forall m w w', Caps w ->
            ls w' = <[m := (0, None)]> (ls w) -> Caps w').
  { intros m w w' HC Hls k s o c Hk Hc. rewrite Hls in Hk.
    destruct (decide (k = m)) as [->|Hne].
    - rewrite lookup_insert_eq in Hk. injection Hk as <- <-.
      split; [auto|]. split; intros; done.
    - rewrite lookup_insert_ne in Hk by done. eauto. }
  assert (Hact : forall m ns b c w w', Caps w ->
            loop_configs LOOPS !! m = Some c ->
            (ns = 1 \/ ns = 2) -> (ns = 2 -> can_talk c = true) ->
            can_listen c = true ->
            activated LOOPS m ns b w w' -> Caps w').
  { intros m ns b c w w' HC Hc Hns Ht Hl (Hls & _) k s o c' Hk Hc'.
    rewrite Hls in Hk. destruct (decide (k = m)) as [->|Hne].
    - injection Hk as <- <-. assert (c' = c) as -> by congruence.
      split; [tauto|]. split; [done|]. done.
    - destruct (decide (ns = 2 /\ k ∈ map name LOOPS)); [|eauto].
      destruct (ls w !! k) as [[s0 o0]|] eqn:E; [|done].
      cbn in Hk. injection Hk as Hk.
      destruct (HC _ _ _ _ E Hc') as (H1 & H2 & H3).
      unfold demote_entry in Hk. cbn in Hk.
      destruct (s0 =? 2) eqn:E2.
      + apply Z.eqb_eq in E2.
        destruct (truthy_name o0); injection Hk as <- <-.
        * split; [auto|]. split; [done|]. intros _. apply H3. lia.
        * done.
      + injection Hk as <- <-. done. }
  assert (Hstep : forall op w w', Inv LOOPS w -> Caps w -> gui_op op ->
            run_op LOOPS clock op w = Some (tt, w') -> Caps w').
  { intros op w w' HI HC Hg Hrun.
    destruct (run_op_loops _ _ _ _ _ HI Hrun) as [_ Ho].
    destruct op as [m|m|m s|]; [| |done|].
    - destruct Ho as (c & s0 & o0 & Hc & Hl & Ho).
      destruct (can_listen c) eqn:Hcl; [|by subst].
      destruct (click_request c s0 Hcl) as [Hns Ht].
      destruct Ho as [[? Hrel]|[[_ (b & _ & Ha)]|(_ & _ & _ & ->)]];
        [|eapply Hact; eauto|done].
      destruct Hrel as (Hls & _). eapply Hoff; eauto.
    - destruct Ho as (s0 & o0 & Hl & (Hls & _)). eapply Hoff; eauto.
    - intros k s o c Hk Hc. apply (HC k s o c); [|done].
      rewrite Ho in Hk. exact Hk. }
  assert (Hrun : forall ops w, Inv LOOPS w -> Caps w -> Forall gui_op ops ->
            Caps (world_from LOOPS clock w ops)).
  { induction ops0 as [|op ops0 IH]; intros w HI HC Hg; [done|].
    apply Forall_cons in Hg as [Hg Hgs]. cbn [world_from].
    destruct (run_op LOOPS clock op w) as [[[] w']|] eqn:E; [|done].
    apply IH; [|eauto|done].
    exact (proj1 (run_op_loops _ _ _ _ _ HI E)). }
  intros Hg. apply (Hrun ops (init_world LOOPS)); [apply inv_init| |done].
  intros k s o c Hk _. rewrite init_loop_states in Hk.
  destruct (decide _); [|done]. injection Hk as <- <-.
  split; [auto|]. split; intros; done.
Qed.

(** X3. A loop keeps its bot unless state 0 is asked for on that loop.
    In a reachable state let loop [n] be on bot [b], and let an
    operation return. If the operation asks for state 0 on [n] (an OFF
    click on [n], or _update_bot_assignment on [n] with a state that is
    0 after the clamp of lines 338-340, as state 2 is for a listen-only
    loop), [n] ends OFF without a bot and [b] is idle. Every other
    operation leaves [n] on [b] in a state other than OFF; when it is
    about another loop, or is the delay toggle, the state of [n] is
    unchanged or went from TALK to LISTEN. *)
Theorem no_preemption w op w' n st b :
  reachable LOOPS clock w ->
  run_op LOOPS clock op w = Some (tt, w') ->
  ls w !! n = Some (st, Some b) ->
  (gives_back LOOPS op n ->
   ls w' !! n = Some (0, None) /\
   assigned <$> pool_lookup b (pool w') = Some None) /\
  (~ gives_back LOOPS op n ->
   exists st', ls w' !! n = Some (st', Some b) /\ st' <> 0 /\
               (op_loop op <> Some n -> st' = st \/ (st = 2 /\ st' = 1))).
Proof.
  intros Hr Hrun Hl. pose proof (reachable_inv _ _ _ Hr) as HI.
  destruct (run_op_loops _ _ _ _ _ HI Hrun) as [_ Ho].
  assert (Hst : st <> 0) by (apply (inv_loop _ _ HI _ _ _ Hl)).
  pose proof (inv_truthy _ _ _ _ _ HI Hl) as Htr.
  assert (Hrel : released n (Some b) w w' ->
            ls w' !! n = Some (0, None) /\
            assigned <$> pool_lookup b (pool w') = Some None).
  { intros (Hls & _ & Ha & _). split.
    - rewrite Hls. apply lookup_insert_eq.
    - rewrite Ha, decide_True; done. }
  assert (Hother : forall m ns ob, m <> n ->
            outcome LOOPS m ns ob w w' ->
            exists st', ls w' !! n = Some (st', Some b) /\ st' <> 0 /\
                        (st' = st \/ (st = 2 /\ st' = 1))).
  { intros m ns ob Hm [[_ (Hls & _)]|[[_ (b0 & _ & (Hls & _))]|(_ & _ & _ & ->)]].
    - exists st. rewrite Hls, lookup_insert_ne by done. auto.
    - rewrite Hls, decide_False by done.
      destruct (decide (ns = 2 /\ n ∈ map name LOOPS)); [|eauto].
      rewrite Hl. cbn. unfold demote_entry. cbn.
      destruct (st =? 2) eqn:E2; [|eauto].
      apply Z.eqb_eq in E2. rewrite Htr. eexists. split; [done|].
      split; [done|]. auto.
    - eauto. }
  assert (Hown : forall ns, ns <> 0 ->
            outcome LOOPS n ns (Some b) w w' ->
            exists st', ls w' !! n = Some (st', Some b) /\ st' <> 0).
  { intros ns Hns [[? _]|[[_ (b0 & Hb0 & (Hls & _))]|(_ & ? & _)]];
      [done| |done].
    destruct Hb0 as [[= <-]|[? _]]; [|done].
    exists ns. rewrite Hls, decide_True by done. done. }
  split.
  - intros Hg. destruct op as [m|m|m s|]; cbn in Hg; [done| | |done].
    + subst m. destruct Ho as (s0 & o0 & Hl' & Hre).
      rewrite Hl in Hl'. injection Hl' as <- <-. auto.
    + destruct Hg as (-> & cfg & Hcfg & Hc).
      destruct Ho as (c & s0 & o0 & Hc' & Hl' & Ho).
      rewrite Hl in Hl'. injection Hl' as <- <-.
      rewrite Hcfg in Hc'. injection Hc' as <-. rewrite Hc in Ho.
      destruct Ho as [[_ Hre]|[[? _]|[? _]]]; [auto|done|done].
  - intros Hg. destruct op as [m|m|m s|]; cbn in Hg.
    + destruct Ho as (c & s0 & o0 & Hc & Hl' & Ho).
      destruct (decide (m = n)) as [->|Hm].
      * rewrite Hl in Hl'. injection Hl' as <- <-.
        destruct (can_listen c) eqn:Hcl.
        -- destruct (click_request c st Hcl) as [Hns _]. cbv zeta in Hns.
           assert (Hne : clamp_for c (next_state c st) <> 0) by lia.
           destruct (Hown _ Hne Ho) as (st' & H1 & H2).
           exists st'. split; [done|]. split; [done|]. intros H. by destruct H.
        -- subst w'. exists st. split; [done|]. split; [done|]. auto.
      * destruct (can_listen c).
        -- destruct (Hother _ _ _ Hm Ho) as (st' & H1 & H2 & H3).
           exists st'. auto.
        -- subst w'. exists st. auto.
    + destruct Ho as (s0 & o0 & _ & (Hls & _)).
      exists st. rewrite Hls, lookup_insert_ne by done. auto.
    + destruct Ho as (c & s0 & o0 & Hc & Hl' & Ho).
      destruct (decide (m = n)) as [->|Hm].
      * rewrite Hl in Hl'. injection Hl' as <- <-.
        assert (Hns : clamp_for c s <> 0) by (intros H0; apply Hg; eauto).
        destruct (Hown _ Hns Ho) as (st' & H1 & H2).
        exists st'. split; [done|]. split; [done|]. intros H. by destruct H.
      * destruct (Hother _ _ _ Hm Ho) as (st' & H1 & H2 & H3).
        exists st'. auto.
    + exists st. rewrite Ho. auto.
Qed.

(** X4. The OFF button is idempotent. In a reachable state an OFF
    click on a loop of LOOPS returns and leaves the loop OFF without a
    bot, no bot assigned to it; a second OFF click then changes
    nothing at all: no command is sent and the clock is not read. *)
Theorem off_click_idempotent w n :
  reachable LOOPS clock w -> n ∈ map name LOOPS ->
  exists w',
    on_loop_off_clicked LOOPS clock n w = Some (tt, w') /\
    ls w' !! n = Some (0, None) /\
    (forall b e, pool_lookup b (pool w') = Some e -> assigned e <> Some n) /\
    on_loop_off_clicked LOOPS clock n w' = Some (tt, w').
Proof.
  intros Hr Hn. pose proof (reachable_inv _ _ _ Hr) as HI.
  destruct (proj2 (loop_configs_dom LOOPS _) Hn) as [cfg Hcfg].
  destruct (proj2 (inv_dom _ _ HI _) Hn) as [[st ob] Hl].
  destruct (off_click_outcome _ clock _ _ _ _ _ HI Hcfg Hl)
    as ([] & w' & Hrun & HI' & (Hls & _)).
  assert (Hl' : ls w' !! n = Some (0, None))
    by (rewrite Hls; apply lookup_insert_eq).
  exists w'. split; [done|]. split; [done|]. split.
  - intros b e He Ha. destruct (inv_bot _ _ HI' _ _ _ He Ha) as [s Hs].
    congruence.
  - unfold on_loop_off_clicked, bind.
    rewrite (update_off_idle LOOPS clock n 0 cfg 0 None w'); try done.
    + rewrite (write_loop_same _ _ _ Hl'). unfold _set_button_state, bind,
        get_loop_state. rewrite Hl'. reflexivity.
    + unfold clamp_for. destruct (_ && _); done.
Qed.

End ControllerExtras.

Lemma handlers_never_raise_witness :
  (exists w', run_op demo_loops demo_clock (Click "C") talk_twice
              = Some (tt, w') /\ reachable demo_loops demo_clock w') /\
  run_op demo_loops demo_clock (OffClick "Z") talk_twice = None.
Proof.
  pose proof (world_after_reachable demo_loops demo_clock
                [Click "A"; Click "A"; Click "B"; Click "B"]) as Hr.
  split.
  - apply (proj1 (handlers_never_raise demo_loops demo_clock talk_twice
                    (Click "C") Hr)).
    intros n [= <-]. vm_compute. do 2 right. left.
  - apply (proj2 (handlers_never_raise demo_loops demo_clock talk_twice
                    (OffClick "Z") Hr)).
    intros Hk. specialize (Hk "Z" eq_refl). vm_compute in Hk.
    repeat (apply elem_of_cons in Hk as [Hk|Hk]; [done|]). inversion Hk.
Defined.

Lemma capabilities_enforced_witness :
  (1 = 0 \/ 1 = 1 \/ 1 = 2) /\
  (1 = 2 -> can_talk (mkLoop "C" true false) = true) /\
  (1 <> 0 -> can_listen (mkLoop "C" true false) = true).
Proof.
  apply (capabilities_enforced demo_loops demo_clock
           [Click "C"; ToggleDelay; Click "C"] "C" 1 (Some "BOT1")).
  - repeat constructor.
  - vm_compute. reflexivity.
  - vm_compute. reflexivity.
Defined.

Lemma no_preemption_witness :
  (ls (world_after demo_loops demo_clock [Click "C"; Update "C" 2]) !! "C"
     = Some (0, None) /\
   assigned <$> pool_lookup "BOT1"
                  (pool (world_after demo_loops demo_clock
                           [Click "C"; Update "C" 2])) = Some None) /\
  exists st', ls talk_twice !! "A" = Some (st', Some "BOT1") /\ st' <> 0 /\
              (op_loop (Click "B") <> Some "A" ->
               st' = 2 \/ (2 = 2 /\ st' = 1)).
Proof.
  split.
  - assert (Hrun : run_op demo_loops demo_clock (Update "C" 2) c_listens
              = Some (tt, world_after demo_loops demo_clock
                            [Click "C"; Update "C" 2]))
      by (vm_compute; reflexivity).
    assert (Hl : ls c_listens !! "C" = Some (1, Some "BOT1"))
      by (vm_compute; reflexivity).
    apply (proj1 (no_preemption demo_loops demo_clock _ _ _ "C" 1 "BOT1"
                    (world_after_reachable _ _ _) Hrun Hl)).
    split; [done|]. exists (mkLoop "C" true false).
    split; [vm_compute; reflexivity|reflexivity].
  - assert (Hrun : run_op demo_loops demo_clock (Click "B") b_listens
              = Some (tt, talk_twice))
      by (vm_compute; reflexivity).
    assert (Hl : ls b_listens !! "A" = Some (2, Some "BOT1"))
      by (vm_compute; reflexivity).
    apply (proj2 (no_preemption demo_loops demo_clock _ _ _ "A" 2 "BOT1"
                    (world_after_reachable _ _ _) Hrun Hl)).
    intros [].
Defined.

Lemma off_click_idempotent_witness :
  exists w',
    on_loop_off_clicked demo_loops demo_clock "A" talk_twice = Some (tt, w') /\
    ls w' !! "A" = Some (0, None) /\
    (forall b e, pool_lookup b (pool w') = Some e -> assigned e <> Some "A") /\
    on_loop_off_clicked demo_loops demo_clock "A" w' = Some (tt, w').
Proof.
  apply (off_click_idempotent demo_loops demo_clock talk_twice "A").
  - apply world_after_reachable.
  - vm_compute. left.
Defined.

(** ** What a call sends, and to whom *)

Lemma same_ports_refl p : same_ports p p.
Proof. split; done. Qed.

Lemma same_ports_trans p1 p2 p3 :
  same_ports p1 p2 -> same_ports p2 p3 -> same_ports p1 p3.
Proof.
  intros [K1 H1] [K2 H2]. split; [congruence|]. intros b.
  rewrite H2. apply H1.
Qed.

Lemma same_ports_alter f b p :
  (forall e, port (f e) = port e) -> same_ports p (pool_alter f b p).
Proof.
  intros Hf. split; [apply pool_alter_keys|]. intros b'.
  destruct (decide (b = b')) as [<-|Hne].
  - rewrite pool_lookup_alter_eq.
    destruct (pool_lookup b p); cbn; [rewrite Hf|]; done.
  - rewrite pool_lookup_alter_ne by done. done.
Qed.

Lemma assigned_alter_stamp t b b' p :
  assigned <$> pool_lookup b' (pool_alter (set_last_used t) b p)
  = assigned <$> pool_lookup b' p.
Proof. apply (same_assignment_stamp t b p). Qed.

Lemma port_lookup p b v :
  port <$> pool_lookup b p = Some v <->
  exists e, pool_lookup b p = Some e /\ port e = v.
Proof.
  destruct (pool_lookup b p) as [e|]; cbn; split.
  - intros [= <-]. eauto.
  - intros (e' & [= <-] & <-). done.
  - done.
  - intros (? & ? & _). done.
Qed.

Section ControllerSends.

Variable LOOPS : list Loop.
Variable clock : nat -> Q.

(** The demotion pass from a world [w0] that has the loop states of a
    world [w] of the invariant, and its bots. *)
Lemma demote_loop_run loop_name w0 w :
  Inv LOOPS w -> ls w0 = ls w -> same_ports (pool w) (pool w0) ->
  delay_enabled (self w0) = delay_enabled (self w) ->
  exists sent states,
    demotion loop_name w sent states /\
    exists wd,
      for_each LOOPS (demote_other clock loop_name) w0 = Some (tt, wd) /\
      outbox wd = outbox w0 ++ sent /\ ls wd = states /\
      same_assignment (pool w0) (pool wd) /\ same_ports (pool w0) (pool wd) /\
      delay_enabled (self wd) = delay_enabled (self w0) /\
      delay_seconds (self wd) = delay_seconds (self w0) /\
      (sent = [] -> wd = w0).
Proof.
  intros HI Hls [Hkeys Hports] Hde.
  destruct (decide (Exists (fun m => m <> loop_name /\
                                     fst <$> ls w !! m = Some 2)
                           (map name LOOPS))) as [Hex|Hno].
  - apply Exists_exists in Hex as (m & Hin & Hm & Ht).
    destruct (ls w !! m) as [[s ob]|] eqn:Hl; [|done].
    cbn in Ht. injection Ht as ->.
    pose proof (inv_loop _ _ HI _ _ _ Hl) as Hi.
    destruct ob as [bm|]; [|done]. destruct Hi as (_ & em & Hem & _).
    assert (Hbm : bm <> "") by (eapply inv_bot_nonempty; eauto).
    assert (Hem0 : exists em0, pool_lookup bm (pool w0) = Some em0 /\
                               port em0 = port em).
    { apply port_lookup. rewrite Hports. apply port_lookup. eauto. }
    destruct Hem0 as (em0 & Hem0 & Hp).
    exists [Post (port em) (mute_command w)], (<[m := (1, Some bm)]> (ls w)).
    split; [right; exists m, bm, em; done|].
    exists (demoted_world clock m bm (port em0) w0). split.
    { apply demote_loop_talker; try done.
      - by rewrite Hls.
      - intros x Hx. rewrite Hls. eapply inv_loops_present; eauto.
      - intros n ob. rewrite Hls. intros Hn. eapply inv_talk; eauto. }
    cbn. rewrite Hp, Hls. unfold mute_command. rewrite Hde.
    split; [done|]. split; [done|].
    split; [apply same_assignment_stamp|].
    split; [apply same_ports_alter; done|]. done.
  - exists [], (ls w). split.
    { left. split; [|done]. intros m ob Hm Hl. apply Hno.
      apply Exists_exists. exists m. split.
      - apply (inv_dom _ _ HI). eauto.
      - rewrite Hl. done. }
    exists w0. split.
    { apply demote_loop_quiet. intros x Hx.
      destruct (decide (name x = loop_name)) as [?|Hne]; [by left|right].
      destruct (inv_loops_present _ _ _ HI Hx) as [[st ob] Hl].
      exists st, ob. split; [by rewrite Hls|]. intros ->. exfalso.
      apply Hno. apply Exists_exists. exists (name x).
      split; [by apply list_elem_of_fmap_2|]. rewrite Hl. done. }
    rewrite app_nil_r. split; [done|]. split; [done|].
    split; [apply same_assignment_refl|]. split; [apply same_ports_refl|].
    done.
Qed.

(** A call that leaves the loop in LISTEN or TALK on bot [b]. *)
Lemma update_activate loop_name new_state cfg st ob b e w :
  Inv LOOPS w ->
  loop_configs LOOPS !! loop_name = Some cfg ->
  ls w !! loop_name = Some (st, ob) ->
  clamp_for cfg new_state = 1 \/ clamp_for cfg new_state = 2 ->
  ob = Some b \/ (ob = None /\ _find_idle_bot (pool w) = Some b) ->
  pool_lookup b (pool w) = Some e ->
  exists sent states w',
    (clamp_for cfg new_state = 2 -> demotion loop_name w sent states) /\
    (clamp_for cfg new_state = 1 -> sent = [] /\ states = ls w) /\
    _update_bot_assignment LOOPS clock loop_name new_state w = Some (tt, w') /\
    outbox w' = outbox w ++ sent ++
                commands loop_name st (clamp_for cfg new_state) (port e) w /\
    ls w' = <[loop_name := (clamp_for cfg new_state, Some b)]> states /\
    same_ports (pool w) (pool w') /\
    (forall b', assigned <$> pool_lookup b' (pool w') =
                if decide (b' = b) then Some (Some loop_name)
                else assigned <$> pool_lookup b' (pool w)) /\
    delay_enabled (self w') = delay_enabled (self w) /\
    delay_seconds (self w') = delay_seconds (self w).
Proof.
  intros HI Hcfg Hl Hns Hb He.
  set (ns := clamp_for cfg new_state) in *.
  assert (Hns0 : ns <> 0) by lia.
  (* the world in which the bot is known *)
  set (w0 := match ob with
             | Some _ => w
             | None => write_bot b (set_assigned (Some loop_name)) w
             end).
  assert (Hbne : b <> "") by (eapply inv_bot_nonempty; eauto).
  assert (Hrun0 : _update_bot_assignment LOOPS clock loop_name new_state w
                  = activate LOOPS clock loop_name st ns b w0).
  { destruct Hb as [->|[-> Hf]].
    - eapply update_keep; eauto.
    - eapply update_take; eauto. }
  assert (Hw0 : ls w0 = ls w /\ outbox w0 = outbox w /\
            same_ports (pool w) (pool w0) /\
            delay_enabled (self w0) = delay_enabled (self w) /\
            delay_seconds (self w0) = delay_seconds (self w) /\
            (forall b', b' <> b ->
               assigned <$> pool_lookup b' (pool w0)
               = assigned <$> pool_lookup b' (pool w))).
  { unfold w0. destruct ob.
    - repeat split; try done.
    - cbn. repeat split; try done.
      + apply pool_alter_keys.
      + intros b'. apply (same_ports_alter _ b (pool w)). done.
      + intros b' Hne. rewrite pool_lookup_alter_ne by done. done. }
  destruct Hw0 as (Hls0 & Hout0 & Hp0 & Hde0 & Hds0 & Ha0).
  assert (He0 : exists e0, pool_lookup b (pool w0) = Some e0 /\
                           port e0 = port e).
  { apply port_lookup. rewrite (proj2 Hp0). apply port_lookup. eauto. }
  destruct He0 as (e0 & He0 & Hpe).
  (* the commands, and the world [wd] they are sent from *)
  assert (Hmid : exists sent states wd,
    (ns = 2 -> demotion loop_name w sent states) /\
    (ns = 1 -> sent = [] /\ states = ls w) /\
    activate LOOPS clock loop_name st ns b w0
    = Some (tt, settled_world clock loop_name ns b
                  (emit (commands loop_name st ns (port e) w) wd)) /\
    outbox wd = outbox w ++ sent /\ ls wd = states /\
    same_assignment (pool w0) (pool wd) /\ same_ports (pool w0) (pool wd) /\
    delay_enabled (self wd) = delay_enabled (self w) /\
    delay_seconds (self wd) = delay_seconds (self w)).
  { destruct Hns as [E|E]; rewrite E.
    - exists [], (ls w), w0. split; [done|]. split; [done|].
      split.
      { rewrite (activate_listen LOOPS clock loop_name st b e0 w0 He0).
        unfold commands. cbn [Z.eqb Pos.eqb]. rewrite Hpe, Hde0. done. }
      rewrite app_nil_r.
      split; [done|]. split; [done|].
      split; [apply same_assignment_refl|].
      split; [apply same_ports_refl|]. done.
    - destruct (demote_loop_run loop_name w0 w HI Hls0 Hp0 Hde0)
        as (sent & states & Hdem & wd & Hrun & Hout & Hst & Hsa & Hsp
            & Hde & Hds & _).
      exists sent, states, wd. split; [done|]. split; [done|].
      split.
      { rewrite (activate_talk LOOPS clock loop_name st b e0 wd w0 He0 Hrun).
        - unfold commands. cbn [Z.eqb Pos.eqb].
          rewrite Hpe, Hde, Hde0, Hds, Hds0. done.
        - eapply same_assignment_is_Some; eauto. }
      rewrite Hout, Hout0. split; [done|]. split; [done|].
      split; [done|]. split; [done|]. split; congruence. }
  destruct Hmid as (sent & states & wd & H2 & H1 & Hact & Hout & Hst & Hsa
                    & Hsp & Hde & Hds).
  exists sent, states. eexists. split; [exact H2|]. split; [exact H1|].
  split; [rewrite Hrun0; exact Hact|].
  cbn. rewrite Hout, Hst, <- app_assoc.
  split; [done|]. split; [done|]. split.
  { eapply same_ports_trans; [exact Hp0|].
    eapply same_ports_trans; [exact Hsp|].
    eapply same_ports_trans; apply same_ports_alter; done. }
  split; [|done].
  intros b'. destruct (decide (b' = b)) as [->|Hne].
  - rewrite !pool_lookup_alter_eq.
    destruct (same_assignment_is_Some _ _ b Hsa) as [ed Hed]; [eauto|].
    rewrite Hed. done.
  - rewrite !pool_lookup_alter_ne by done.
    rewrite (proj1 (proj2 Hsa b')). apply Ha0. done.
Qed.

End ControllerSends.

(** ** What the handlers leave alone *)

Lemma frame_refl w : frame w w.
Proof.
  split; [apply same_ports_refl|]. split; [done|]. split; [done|].
  exists []. rewrite app_nil_r. split; [done|constructor].
Qed.

Lemma frame_trans w1 w2 w3 : frame w1 w2 -> frame w2 w3 -> frame w1 w3.
Proof.
  intros (P1 & E1 & S1 & s1 & O1 & F1) (P2 & E2 & S2 & s2 & O2 & F2).
  split; [eapply same_ports_trans; eauto|].
  split; [congruence|]. split; [congruence|].
  exists (s1 ++ s2). split; [rewrite O2, O1, app_assoc; done|].
  apply Forall_app. done.
Qed.

Lemma keeps_ret {A} (a : A) : keeps frame (ret a).
Proof. intros w a' w' [= _ <-]. apply frame_refl. Qed.

Lemma keeps_bind {A B} (m : M A) (k : A -> M B) :
  keeps frame m -> (forall a, keeps frame (k a)) -> keeps frame (bind m k).
Proof.
  intros Hm Hk w b w' H. apply bind_inv in H as (a & w1 & H1 & H2).
  eapply frame_trans; [eapply Hm; eauto|eapply Hk; eauto].
Qed.

Lemma keeps_for_each {A} (l : list A) (body : A -> M unit) :
  (forall x, keeps frame (body x)) -> keeps frame (for_each l body).
Proof.
  intros Hb. induction l as [|x l IH]; cbn [for_each].
  - apply keeps_ret.
  - apply keeps_bind; [apply Hb|]. intros _. exact IH.
Qed.

Lemma keeps_read {A} (f : World -> option A) :
  keeps frame (fun w => match f w with Some a => Some (a, w) | None => None end).
Proof.
  intros w a w' H. destruct (f w); [|done]. injection H as _ <-.
  apply frame_refl.
Qed.

Lemma keeps_get_loop_state n : keeps frame (get_loop_state n).
Proof. apply (keeps_read (fun w => ls w !! n)). Qed.

Lemma keeps_get_bot b : keeps frame (get_bot b).
Proof. apply (keeps_read (fun w => pool_lookup b (pool w))). Qed.

Lemma keeps_get_loop_config LOOPS n : keeps frame (get_loop_config LOOPS n).
Proof. apply (keeps_read (fun _ => loop_configs LOOPS !! n)). Qed.

Lemma keeps_get_delay_enabled : keeps frame get_delay_enabled.
Proof. intros w a w' [= _ <-]. apply frame_refl. Qed.

Lemma keeps_get_delay_seconds : keeps frame get_delay_seconds.
Proof. intros w a w' [= _ <-]. apply frame_refl. Qed.

Lemma keeps_find_idle_bot : keeps frame find_idle_bot.
Proof. intros w a w' [= _ <-]. apply frame_refl. Qed.

Lemma keeps_time_time clock : keeps frame (time_time clock).
Proof.
  intros w a w' [= _ <-]. split; [apply same_ports_refl|].
  split; [done|]. split; [done|].
  exists []. cbn. rewrite app_nil_r. split; [done|constructor].
Qed.

Lemma keeps_post p r :
  not_delay_command (Post p r) -> keeps frame (post p r).
Proof.
  intros HP w a w' [= _ <-]. split; [apply same_ports_refl|].
  split; [done|]. split; [done|]. exists [Post p r]. split; [done|].
  constructor; [done|constructor].
Qed.

Lemma keeps_start_timer s p r :
  not_delay_command (TimerPost s p r) -> keeps frame (start_timer s p r).
Proof.
  intros HP w a w' [= _ <-]. split; [apply same_ports_refl|].
  split; [done|]. split; [done|]. exists [TimerPost s p r]. split; [done|].
  constructor; [done|constructor].
Qed.

Lemma keeps_set_loop_state n v : keeps frame (set_loop_state n v).
Proof.
  intros w a w' [= _ <-]. split; [apply same_ports_refl|].
  split; [done|]. split; [done|].
  exists []. cbn. rewrite app_nil_r. split; [done|constructor].
Qed.

Lemma keeps_update_bot b f :
  (forall e, port (f e) = port e) -> keeps frame (update_bot b f).
Proof.
  intros Hf w a w' H. unfold update_bot, bind, get_bot in H.
  destruct (pool_lookup b (pool w)); [|done]. injection H as _ <-.
  split; [apply same_ports_alter; done|].
  split; [done|]. split; [done|].
  exists []. cbn. rewrite app_nil_r. split; [done|constructor].
Qed.

Ltac keeps_step :=
  lazymatch goal with
  | |- keeps frame (bind _ _) => apply keeps_bind; [|intros ?]
  | |- keeps frame (ret _) => apply keeps_ret
  | |- keeps frame (post _ _) => apply keeps_post; exact I
  | |- keeps frame (start_timer _ _ _) => apply keeps_start_timer; exact I
  | |- keeps frame (get_loop_state _) => apply keeps_get_loop_state
  | |- keeps frame (get_bot _) => apply keeps_get_bot
  | |- keeps frame (get_loop_config _ _) => apply keeps_get_loop_config
  | |- keeps frame get_delay_enabled => apply keeps_get_delay_enabled
  | |- keeps frame get_delay_seconds => apply keeps_get_delay_seconds
  | |- keeps frame find_idle_bot => apply keeps_find_idle_bot
  | |- keeps frame (time_time _) => apply keeps_time_time
  | |- keeps frame (set_loop_state _ _) => apply keeps_set_loop_state
  | |- keeps frame (update_bot _ _) => apply keeps_update_bot; done
  | |- keeps frame (for_each _ _) => apply keeps_for_each; intros ?
  | |- keeps frame (if ?c then _ else _) => destruct c
  | |- keeps frame (match ?x with _ => _ end) => destruct x
  | |- keeps frame (let '(_, _) := ?x in _) => destruct x
  end.

Section ControllerFrame.

Variable LOOPS : list Loop.
Variable clock : nat -> Q.

Lemma keeps_set_button_state n : keeps frame (_set_button_state n).
Proof. unfold _set_button_state. repeat keeps_step. Qed.

Lemma keeps_demote_other n x : keeps frame (demote_other clock n x).
Proof.
  unfold demote_other. repeat keeps_step. apply keeps_set_button_state.
Qed.

Lemma keeps_activate n old ns b :
  keeps frame (activate LOOPS clock n old ns b).
Proof.
  unfold activate. repeat keeps_step. all: apply keeps_demote_other.
Qed.

Lemma keeps_update n s :
  keeps frame (_update_bot_assignment LOOPS clock n s).
Proof.
  unfold _update_bot_assignment. repeat keeps_step.
  all: apply keeps_activate.
Qed.

Lemma keeps_click n : keeps frame (on_loop_clicked LOOPS clock n).
Proof.
  unfold on_loop_clicked. repeat keeps_step.
  all: first [apply keeps_update|apply keeps_set_button_state].
Qed.

Lemma keeps_off_click n : keeps frame (on_loop_off_clicked LOOPS clock n).
Proof.
  unfold on_loop_off_clicked. repeat keeps_step.
  all: first [apply keeps_update|apply keeps_set_button_state].
Qed.

End ControllerFrame.

(** ** The bots behind the ports *)

Module BotViews.
Import BotServer BotApi.

Lemma requests_to_app p a b :
  requests_to p (a ++ b) = requests_to p a ++ requests_to p b.
Proof. apply omap_app. Qed.

Lemma serve_all_app r1 r2 b :
  fst (serve_all (r1 ++ r2) b) = fst (serve_all r2 (fst (serve_all r1 b))).
Proof.
  revert b. induction r1 as [|r r1 IH]; intros b; cbn [serve_all app fst].
  - reflexivity.
  - destruct (serve r b) as [b1 t1] eqn:E1.
    specialize (IH b1).
    destruct (serve_all (r1 ++ r2) b1) as [b2 t2].
    destruct (serve_all r1 b1) as [b3 t3]. cbn [fst] in *. exact IH.
Qed.

Lemma bot_behind_app p out sent d_in d_out :
  bot_behind p (out ++ sent) d_in d_out
  = fst (serve_all (requests_to p sent) (bot_behind p out d_in d_out)).
Proof. unfold bot_behind. rewrite requests_to_app. apply serve_all_app. Qed.

Lemma serve_all_cons r rs b :
  fst (serve_all (r :: rs) b) = fst (serve_all rs (fst (serve r b))).
Proof.
  cbn [serve_all]. destruct (serve r b) as [b1 t1]. cbn [fst].
  destruct (serve_all rs b1) as [b2 t2]. reflexivity.
Qed.

(** A command that is not about the delay leaves the delay settings of
    the bot. *)
Lemma serve_keeps_delay r b :
  match r with DelayOn _ | DelayOff => False | _ => True end ->
  audio_delay_enabled (fst (serve r b)) = audio_delay_enabled b /\
  audio_delay_seconds (fst (serve r b)) = audio_delay_seconds b.
Proof. destruct r; done. Qed.

Lemma requests_not_delay p sent :
  Forall not_delay_command sent ->
  Forall (fun r => match r with DelayOn _ | DelayOff => False | _ => True end)
         (requests_to p sent).
Proof.
  induction 1 as [|eff sent Heff _ IH]; [constructor|].
  unfold requests_to. cbn [omap list_omap].
  destruct eff as [q r|s q r]; [|exact IH].
  destruct (q =? p); [|exact IH]. cbn.
  constructor; [|exact IH]. destruct r; done.
Qed.

Lemma serve_all_keeps_delay rs b :
  Forall (fun r => match r with DelayOn _ | DelayOff => False | _ => True end)
         rs ->
  audio_delay_enabled (fst (serve_all rs b)) = audio_delay_enabled b /\
  audio_delay_seconds (fst (serve_all rs b)) = audio_delay_seconds b.
Proof.
  intros H. revert b. induction H as [|r rs Hr _ IH]; intros b; [done|].
  rewrite serve_all_cons.
  destruct (IH (fst (serve r b))) as [-> ->]. apply serve_keeps_delay. done.
Qed.

(** The same delay command, once or more. *)
Lemma serve_all_repeated r rs b :
  Forall (eq r) rs -> rs <> [] ->
  match r with DelayOn _ | DelayOff => True | _ => False end ->
  audio_delay_enabled (fst (serve_all rs b))
    = audio_delay_enabled (fst (serve r b)) /\
  audio_delay_seconds (fst (serve_all rs b))
    = audio_delay_seconds (fst (serve r b)).
Proof.
  intros H. revert b. induction H as [|r0 rs <- _ IH]; intros b Hne Hr; [done|].
  rewrite serve_all_cons. destruct rs as [|r1 rs]; [done|].
  destruct (IH (fst (serve r b))) as [-> ->]; [done|done|].
  destruct r; done.
Qed.

Lemma requests_to_all (f : Route) (l : list (string * BotEntry)) p :
  Forall (eq f) (requests_to p (map (fun b => Post (port (snd b)) f) l)).
Proof.
  induction l as [|x l IH]; [constructor|].
  unfold requests_to. cbn [map omap list_omap].
  destruct (port (snd x) =? p); [|exact IH]. constructor; [done|exact IH].
Qed.

Lemma requests_to_member (f : Route) (l : list (string * BotEntry)) b e :
  (b, e) ∈ l ->
  requests_to (port e) (map (fun b => Post (port (snd b)) f) l) <> [].
Proof.
  induction l as [|x l IH]; intros Hin; [inversion Hin|].
  unfold requests_to. cbn [map omap list_omap].
  apply elem_of_cons in Hin as [<-|Hin].
  - cbn. rewrite Z.eqb_refl. done.
  - destruct (port (snd x) =? port e); [done|]. apply IH. done.
Qed.

End BotViews.

Section DelaySettings.

Variable LOOPS : list Loop.
Variable clock : nat -> Q.

Import BotServer BotApi BotViews.

Lemma run_op_frame op w w' :
  op <> ToggleDelay -> run_op LOOPS clock op w = Some (tt, w') -> frame w w'.
Proof.
  intros Hop Hrun. destruct op as [n|n|n s|]; [| | |done].
  - eapply keeps_click; eauto.
  - eapply keeps_off_click; eauto.
  - eapply keeps_update; eauto.
Qed.

(** X5. The delay settings of the bots follow the DELAY button. In
    every reachable state, the bot behind the port of each pool entry,
    having served the requests posted to it so far, has
    [audio_delay_enabled] equal to the window's [delay_enabled], and a
    delay of 3 seconds, which is the window's [delay_seconds]. *)
Theorem delay_settings_agree w b e d_in d_out :
  reachable LOOPS clock w ->
  pool_lookup b (pool w) = Some e ->
  audio_delay_enabled (bot_behind (port e) (outbox w) d_in d_out)
    = delay_enabled (self w) /\
  audio_delay_seconds (bot_behind (port e) (outbox w) d_in d_out)
    = inject_Z (delay_seconds (self w)) /\
  delay_seconds (self w) = 3.
Proof.
  intros Hr. revert b e.
  induction Hr as [|w op w' Hr IH Hrun]; intros b e He.
  { done. }
  assert (Hcase : op = ToggleDelay \/ op <> ToggleDelay)
    by (destruct op; auto; right; done).
  destruct Hcase as [->|Hop].
  - cbn [run_op] in Hrun. rewrite toggle_delay_exact in Hrun.
    injection Hrun as <-. cbn in He.
    destruct (IH b e He) as (IH1 & IH2 & IH3).
    cbn [toggle_delay_guarded self outbox delay_enabled delay_seconds].
    rewrite until_refused_none, map_map. cbn [fst snd].
    rewrite bot_behind_app.
    set (f := if negb (delay_enabled (self w))
              then DelayOn (delay_seconds (self w)) else DelayOff).
    destruct (serve_all_repeated f
                (requests_to (port e) (map (fun x => Post (port (snd x)) f)
                                           (pool w)))
                (bot_behind (port e) (outbox w) d_in d_out)) as [-> ->].
    + apply requests_to_all.
    + eapply requests_to_member. apply pool_lookup_elem. exact He.
    + unfold f. destruct (negb _); done.
    + unfold f. destruct (delay_enabled (self w)); cbn; done.
  - destruct (run_op_frame _ _ _ Hop Hrun)
      as ([_ Hports] & Hde & Hds & sent & Hout & Hsent).
    assert (He0 : exists e0, pool_lookup b (pool w) = Some e0 /\
                             port e0 = port e).
    { apply port_lookup. rewrite <- Hports. apply port_lookup. eauto. }
    destruct He0 as (e0 & He0 & <-).
    destruct (IH b e0 He0) as (IH1 & IH2 & IH3).
    rewrite Hout, bot_behind_app, Hde, Hds.
    destruct (serve_all_keeps_delay (requests_to (port e0) sent)
                (bot_behind (port e0) (outbox w) d_in d_out)) as [-> ->].
    + apply requests_not_delay. done.
    + done.
Qed.

End DelaySettings.

Lemma delay_settings_agree_witness :
  BotServer.audio_delay_enabled
    (bot_behind 6002
       (outbox (world_after demo_loops demo_clock [ToggleDelay; Click "A"]))
       0 1) = true /\
  BotServer.audio_delay_seconds
    (bot_behind 6002
       (outbox (world_after demo_loops demo_clock [ToggleDelay; Click "A"]))
       0 1) = inject_Z 3 /\
  3 = 3.
Proof.
  assert (He : pool_lookup "BOT2"
            (pool (world_after demo_loops demo_clock [ToggleDelay; Click "A"]))
          = Some (mkBot 6002 None 0)) by (vm_compute; reflexivity).
  exact (delay_settings_agree demo_loops demo_clock _ "BOT2" _ 0 1
           (world_after_reachable _ _ _) He).
Defined.

(** ** The commands of a switch to TALK, and a release in delay mode *)

Lemma find_idle_only p b :
  (exists e, (b, e) ∈ p /\ assigned e = None) ->
  (forall b' e', (b', e') ∈ p -> assigned e' = None -> b' = b) ->
  _find_idle_bot p = Some b.
Proof.
  intros (e & Hin & Ha) Honly.
  destruct (_find_idle_bot p) as [b'|] eqn:E.
  - apply find_idle_Some in E as (e' & Hin' & Ha' & _).
    f_equal. eauto.
  - exfalso. exact (proj1 (find_idle_None p) E b e Hin Ha).
Qed.

Section ControllerCommands.

Variable LOOPS : list Loop.
Variable clock : nat -> Q.

Lemma then_paint (m : M unit) n w w' :
  m w = Some (tt, w') -> is_Some (ls w' !! n) ->
  (m ;; _set_button_state n) w = Some (tt, w').
Proof.
  intros Hm [v Hv]. unfold bind. rewrite Hm.
  unfold _set_button_state, bind, get_loop_state. rewrite Hv. reflexivity.
Qed.

Lemma click_runs n cfg st ob w :
  loop_configs LOOPS !! n = Some cfg -> ls w !! n = Some (st, ob) ->
  can_listen cfg = true ->
  on_loop_clicked LOOPS clock n w
  = (_update_bot_assignment LOOPS clock n (next_state cfg st) ;;
     _set_button_state n) w.
Proof.
  intros Hcfg Hl Hcl. unfold on_loop_clicked.
  unfold bind at 1. unfold get_loop_config. rewrite Hcfg.
  unfold bind at 1. unfold get_loop_state at 1. rewrite Hl.
  rewrite Hcl. reflexivity.
Qed.

(** A call that releases the bot [b] of the loop. *)
Lemma update_release_sends loop_name new_state cfg st b e w :
  Inv LOOPS w ->
  loop_configs LOOPS !! loop_name = Some cfg ->
  ls w !! loop_name = Some (st, Some b) ->
  pool_lookup b (pool w) = Some e ->
  clamp_for cfg new_state = 0 ->
  exists w',
    _update_bot_assignment LOOPS clock loop_name new_state w = Some (tt, w') /\
    outbox w' = outbox w ++
                (if delay_enabled (self w) && (st =? 2)
                 then [Post (port e) LeaveAfterDelay]
                 else [Post (port e) Leave; Post (port e) Mute]) /\
    ls w' = <[loop_name := (0, None)]> (ls w) /\
    same_ports (pool w) (pool w') /\
    (forall b', assigned <$> pool_lookup b' (pool w') =
                if decide (b' = b) then Some None
                else assigned <$> pool_lookup b' (pool w)) /\
    delay_enabled (self w') = delay_enabled (self w) /\
    delay_seconds (self w') = delay_seconds (self w).
Proof.
  intros HI Hcfg Hl He Hc.
  assert (Hb : b <> "") by (eapply inv_bot_nonempty; eauto).
  eexists. split; [eapply update_release; eauto|].
  cbn. split; [done|]. split; [done|]. split.
  { eapply same_ports_trans; apply same_ports_alter; done. }
  split; [|done]. intros b'. destruct (decide (b' = b)) as [->|Hne].
  - rewrite !pool_lookup_alter_eq, He. done.
  - rewrite !pool_lookup_alter_ne by done. done.
Qed.

(** X6. The commands of a switch to TALK. A click on a loop that can
    talk and is listening on bot [b] returns and leaves it in TALK on
    [b]. What it sends is, in this order: to the bot of the loop that
    was talking, if there is one, /mute (or /mute_after_delay in delay
    mode), that loop being left in LISTEN on its bot; then to the
    loop's own bot /join and /talk, the /talk being put on a timer of
    [delay_seconds] in delay mode. Nothing else is sent. *)
Theorem talk_commands w n cfg b e :
  reachable LOOPS clock w ->
  loop_configs LOOPS !! n = Some cfg ->
  can_listen cfg = true -> can_talk cfg = true ->
  ls w !! n = Some (1, Some b) ->
  pool_lookup b (pool w) = Some e ->
  exists w' sent states,
    on_loop_clicked LOOPS clock n w = Some (tt, w') /\
    demotion n w sent states /\
    outbox w' = outbox w ++ sent ++
                [Post (port e) (Join n);
                 if delay_enabled (self w)
                 then TimerPost (delay_seconds (self w)) (port e) Talk
                 else Post (port e) Talk] /\
    ls w' = <[n := (2, Some b)]> states.
Proof.
  intros Hr Hcfg Hcl Hct Hl He.
  pose proof (reachable_inv _ _ _ Hr) as HI.
  assert (Hc : clamp_for cfg (next_state cfg 1) = 2).
  { unfold clamp_for, next_state. rewrite Hcl, Hct. done. }
  destruct (update_activate LOOPS clock n (next_state cfg 1) cfg 1 (Some b)
              b e w HI Hcfg Hl) as (sent & states & w' & H2 & _ & Hrun
                                    & Hout & Hls & _); [lia|auto|done|].
  rewrite Hc in *.
  exists w', sent, states.
  split.
  { rewrite (click_runs n cfg 1 (Some b) w Hcfg Hl Hcl).
    apply then_paint; [done|]. rewrite Hls, lookup_insert_eq. eauto. }
  split; [auto|]. split; [|done]. exact Hout.
Qed.

Import BotServer BotApi.

(** X7. A release in delay mode can reach the next loop. In delay
    mode, with every bot taken, let loop [a] talk on bot [b]. An OFF
    click on [a] sends /leave_after_delay only and frees [b] at once;
    a click on a loop [c] that is OFF and can listen then gets [b] and
    sends it /join and /mute. The bot that serves these three requests
    is in [c] with the thread of /leave_after_delay still asleep; when
    that thread wakes the bot leaves, although the window shows [c]
    listening on [b]. *)
Theorem delayed_leave_reaches_next_loop w a b e c cfg :
  reachable LOOPS clock w ->
  delay_enabled (self w) = true ->
  ls w !! a = Some (2, Some b) ->
  pool_lookup b (pool w) = Some e ->
  (forall b' e', pool_lookup b' (pool w) = Some e' -> assigned e' <> None) ->
  loop_configs LOOPS !! c = Some cfg -> can_listen cfg = true ->
  ls w !! c = Some (0, None) ->
  exists w1 w2,
    on_loop_off_clicked LOOPS clock a w = Some (tt, w1) /\
    on_loop_clicked LOOPS clock c w1 = Some (tt, w2) /\
    ls w2 !! c = Some (1, Some b) /\
    outbox w2 = outbox w ++ [Post (port e) LeaveAfterDelay;
                             Post (port e) (Join c); Post (port e) Mute] /\
    forall bot,
      exists bot1 bot2,
        serve_all [LeaveAfterDelay; Join c; Mute] bot
          = (bot1, [ev_delayed_leave]) /\
        loop bot1 = Some c /\
        run bot1 [ev_delayed_leave] = Some bot2 /\
        loop bot2 = None.
Proof.
  intros Hr Hde Hla He Hfull Hcfg Hcl Hlc.
  pose proof (reachable_inv _ _ _ Hr) as HI.
  assert (Hac : a <> c) by congruence.
  assert (Ha : a ∈ map name LOOPS) by (apply (inv_dom _ _ HI); eauto).
  destruct (proj2 (loop_configs_dom LOOPS _) Ha) as [cfga Hcfga].
  assert (Hc0 : clamp_for cfga 0 = 0)
    by (unfold clamp_for; destruct (_ && _); done).
  destruct (update_release_sends a 0 cfga 2 b e w HI Hcfga Hla He Hc0)
    as (w1 & Hrun1 & Hout1 & Hls1 & Hp1 & Ha1 & Hde1 & Hds1).
  rewrite Hde in Hout1. cbn in Hout1.
  assert (Hoff : on_loop_off_clicked LOOPS clock a w = Some (tt, w1)).
  { apply then_paint; [done|]. rewrite Hls1, lookup_insert_eq. eauto. }
  assert (Hr1 : reachable LOOPS clock w1)
    by (eapply (reach_step _ _ w (OffClick a)); eauto).
  pose proof (reachable_inv _ _ _ Hr1) as HI1.
  assert (Hlc1 : ls w1 !! c = Some (0, None))
    by (rewrite Hls1, lookup_insert_ne; done).
  assert (He1 : exists e1, pool_lookup b (pool w1) = Some e1 /\
                           port e1 = port e).
  { apply port_lookup. rewrite (proj2 Hp1). apply port_lookup. eauto. }
  destruct He1 as (e1 & He1 & Hpe).
  assert (Hnd : NoDup (map fst (pool w1)))
    by (rewrite (inv_keys _ _ HI1); apply NoDup_bot_names).
  assert (Hidle : _find_idle_bot (pool w1) = Some b).
  { apply find_idle_only.
    - exists e1. split; [apply pool_lookup_elem; done|].
      assert (Hx : assigned <$> pool_lookup b (pool w1) = Some None)
        by (rewrite Ha1, decide_True; done).
      rewrite He1 in Hx. cbn in Hx. congruence.
    - intros b' e' Hin' Ha'. apply pool_elem_lookup in Hin'; [|done].
      destruct (decide (b' = b)) as [|Hne]; [done|exfalso].
      assert (Hx : assigned <$> pool_lookup b' (pool w1) = Some None)
        by (rewrite Hin'; cbn; congruence).
      rewrite Ha1, decide_False in Hx by done.
      apply assigned_lookup in Hx as (e0 & He0 & Ha0).
      exact (Hfull _ _ He0 Ha0). }
  assert (Hc1 : clamp_for cfg (next_state cfg 0) = 1).
  { unfold clamp_for, next_state. cbn. destruct (_ && _); done. }
  destruct (update_activate LOOPS clock c (next_state cfg 0) cfg 0 None
              b e1 w1 HI1 Hcfg Hlc1) as (sent & states & w2 & _ & H1 & Hrun2
                                         & Hout2 & Hls2 & _);
    [lia|auto|done|].
  rewrite Hc1 in *. destruct (H1 eq_refl) as [-> ->].
  exists w1, w2. split; [done|]. split.
  { rewrite (click_runs c cfg 0 None w1 Hcfg Hlc1 Hcl).
    apply then_paint; [done|]. rewrite Hls2, lookup_insert_eq. eauto. }
  split; [rewrite Hls2; apply lookup_insert_eq|].
  split.
  { rewrite Hout2, Hout1, Hpe. unfold commands. cbn.
    rewrite <- app_assoc. done. }
  intros bot. eexists _, _. cbn. done.
Qed.

End ControllerCommands.

Lemma talk_commands_witness :
  exists w' sent states,
    on_loop_clicked demo_loops demo_clock "B" b_listens = Some (tt, w') /\
    demotion "B" b_listens sent states /\
    outbox w' = outbox b_listens ++ sent ++
                [Post (port (mkBot 6002 (Some "B") 3)) (Join "B");
                 if delay_enabled (self b_listens)
                 then TimerPost (delay_seconds (self b_listens))
                        (port (mkBot 6002 (Some "B") 3)) Talk
                 else Post (port (mkBot 6002 (Some "B") 3)) Talk] /\
    ls w' = <["B" := (2, Some "BOT2")]> states.
Proof.
  apply (talk_commands demo_loops demo_clock b_listens "B"
           (mkLoop "B" true true) "BOT2" (mkBot 6002 (Some "B") 3)).
  - apply world_after_reachable.
  - vm_compute. reflexivity.
  - reflexivity.
  - reflexivity.
  - vm_compute. reflexivity.
  - vm_compute. reflexivity.
Defined.

Lemma delayed_leave_reaches_next_loop_witness :
  exists w1 w2,
    on_loop_off_clicked demo_loops demo_clock "A" delayed_full
      = Some (tt, w1) /\
    on_loop_clicked demo_loops demo_clock "D" w1 = Some (tt, w2) /\
    ls w2 !! "D" = Some (1, Some "BOT1") /\
    outbox w2 = outbox delayed_full ++
                [Post (port (mkBot 6001 (Some "A") 2)) LeaveAfterDelay;
                 Post (port (mkBot 6001 (Some "A") 2)) (Join "D");
                 Post (port (mkBot 6001 (Some "A") 2)) Mute] /\
    forall bot,
      exists bot1 bot2,
        BotApi.serve_all [LeaveAfterDelay; Join "D"; Mute] bot
          = (bot1, [BotServer.ev_delayed_leave]) /\
        BotServer.loop bot1 = Some "D" /\
        BotServer.run bot1 [BotServer.ev_delayed_leave] = Some bot2 /\
        BotServer.loop bot2 = None.
Proof.
  apply (delayed_leave_reaches_next_loop demo_loops demo_clock delayed_full
           "A" "BOT1" (mkBot 6001 (Some "A") 2) "D" (mkLoop "D" true true)).
  - apply world_after_reachable.
  - vm_compute. reflexivity.
  - vm_compute. reflexivity.
  - vm_compute. reflexivity.
  - intros b' e' He'. apply pool_lookup_elem in He'.
    vm_compute in He'.
    repeat (apply elem_of_cons in He' as [[= _ ->]|He']; [done|]).
    inversion He'.
  - vm_compute. reflexivity.
  - reflexivity.
  - vm_compute. reflexivity.
Defined.

(** ** The bots follow the window while the delay is off *)

Lemma bots_port_inj b1 b2 p : (b1, p) ∈ BOTS -> (b2, p) ∈ BOTS -> b1 = b2.
Proof.
  unfold BOTS. intros H1 H2.
  repeat (apply elem_of_cons in H1 as [[= -> ->]|H1]);
    try (inversion H1; fail);
    repeat (apply elem_of_cons in H2 as [[= ->]|H2]);
    try done; inversion H2.
Qed.

Lemma ports_known_init LOOPS : ports_known (init_world LOOPS).
Proof.
  intros b e He. apply pool_lookup_elem in He. cbn in He.
  repeat (apply elem_of_cons in He as [[= -> ->]|He];
          [cbn; set_solver|]).
  inversion He.
Qed.

Lemma ports_known_frame w w' :
  same_ports (pool w) (pool w') -> ports_known w -> ports_known w'.
Proof.
  intros [_ Hp] Hk b e' He'.
  assert (Hx : port <$> pool_lookup b (pool w) = Some (port e'))
    by (rewrite <- Hp, He'; done).
  apply port_lookup in Hx as (e & He & <-). eauto.
Qed.

Lemma ports_distinct w b1 b2 e1 e2 :
  ports_known w ->
  pool_lookup b1 (pool w) = Some e1 -> pool_lookup b2 (pool w) = Some e2 ->
  b1 <> b2 -> (port e1 =? port e2) = false.
Proof.
  intros Hk H1 H2 Hne. apply Z.eqb_neq. intros Hp.
  apply Hne. eapply bots_port_inj; [eapply Hk; eauto|].
  rewrite Hp. eapply Hk; eauto.
Qed.

Module BotSync.
Import BotServer BotApi BotViews.

Lemma seen_serve r bot : seen (fst (serve r bot)) = follow [r] (seen bot).
Proof. destruct r; reflexivity. Qed.

Lemma follow_cons r rs v : follow (r :: rs) v = follow rs (follow [r] v).
Proof. destruct r; reflexivity. Qed.

Lemma seen_serve_all rs bot :
  seen (fst (serve_all rs bot)) = follow rs (seen bot).
Proof.
  revert bot. induction rs as [|r rs IH]; intros bot; [reflexivity|].
  rewrite serve_all_cons, IH, seen_serve. symmetry. apply follow_cons.
Qed.

Lemma requests_pair q r1 r2 p :
  requests_to p [Post q r1; Post q r2] = if q =? p then [r1; r2] else [].
Proof. unfold requests_to. cbn. destruct (q =? p); reflexivity. Qed.

Lemma requests_single q r p :
  requests_to p [Post q r] = if q =? p then [r] else [].
Proof. unfold requests_to. cbn. destruct (q =? p); reflexivity. Qed.

End BotSync.

Section BotsFollow.

Variable LOOPS : list Loop.
Variable clock : nat -> Q.
Variables d_in d_out : Z.

Import BotServer BotApi BotViews BotSync.

Lemma views_update w w' sent :
  outbox w' = outbox w ++ sent -> same_ports (pool w) (pool w') ->
  views d_in d_out w ->
  (forall b e e',
     pool_lookup b (pool w) = Some e -> pool_lookup b (pool w') = Some e' ->
     follow (requests_to (port e) sent) (expected w e) = expected w' e') ->
  views d_in d_out w'.
Proof.
  intros Hout [_ Hp] Hv Hf b e' He'.
  assert (Hx : port <$> pool_lookup b (pool w) = Some (port e'))
    by (rewrite <- Hp, He'; done).
  apply port_lookup in Hx as (e & He & Hpe).
  rewrite Hout, <- Hpe, bot_behind_app, seen_serve_all, (Hv b e He).
  eauto.
Qed.

(** Entries of the two pools for the same bot. *)
Lemma entry_assigned (p p' : list (string * BotEntry)) b e e' v :
  pool_lookup b p = Some e -> pool_lookup b p' = Some e' ->
  assigned <$> pool_lookup b p' = v -> Some (assigned e') = v.
Proof. intros He He' <-. rewrite He'. done. Qed.

Lemma talks_same w w' e e' :
  assigned e' = assigned e ->
  (forall n, assigned e = Some n -> ls w' !! n = ls w !! n) ->
  talks w e = talks w' e'.
Proof.
  intros Ha Hl. unfold talks. rewrite Ha.
  destruct (assigned e) as [n|]; [|done]. rewrite (Hl n); done.
Qed.

Lemma views_release w w' n st b0 e0 :
  Inv LOOPS w -> ports_known w -> views d_in d_out w ->
  ls w !! n = Some (st, Some b0) -> pool_lookup b0 (pool w) = Some e0 ->
  outbox w' = outbox w ++ [Post (port e0) Leave; Post (port e0) Mute] ->
  ls w' = <[n := (0, None)]> (ls w) ->
  same_ports (pool w) (pool w') ->
  (forall b', assigned <$> pool_lookup b' (pool w') =
              if decide (b' = b0) then Some None
              else assigned <$> pool_lookup b' (pool w)) ->
  views d_in d_out w'.
Proof.
  intros HI HP Hv Hl He0 Hout Hls Hsp Ha.
  eapply views_update; [exact Hout|exact Hsp|exact Hv|].
  intros b e e' He He'. rewrite requests_pair.
  pose proof (entry_assigned _ _ _ _ _ _ He He' (Ha b)) as Hae.
  destruct (decide (b = b0)) as [->|Hne].
  - assert (e = e0) as -> by congruence. rewrite Z.eqb_refl.
    injection Hae as Hae. unfold expected, talks. rewrite Hae. done.
  - rewrite (ports_distinct w b0 b e0 e HP He0 He) by done.
    rewrite He in Hae. injection Hae as Hae. cbn [follow].
    unfold expected. rewrite Hae. f_equal.
    apply talks_same; [exact Hae|]. intros k Hk. rewrite Hls.
    apply lookup_insert_ne. intros <-.
    destruct (inv_bot _ _ HI _ _ _ He Hk) as [s Hs]. congruence.
Qed.

Lemma views_activate w w' n st ob ns b0 e0 sent states :
  Inv LOOPS w -> ports_known w -> views d_in d_out w ->
  delay_enabled (self w) = false ->
  ls w !! n = Some (st, ob) ->
  ob = Some b0 \/ (ob = None /\ assigned e0 = None) ->
  pool_lookup b0 (pool w) = Some e0 ->
  (ns = 2 /\ demotion n w sent states) \/
  (ns = 1 /\ sent = [] /\ states = ls w) ->
  outbox w' = outbox w ++ sent ++ commands n st ns (port e0) w ->
  ls w' = <[n := (ns, Some b0)]> states ->
  same_ports (pool w) (pool w') ->
  (forall b', assigned <$> pool_lookup b' (pool w') =
              if decide (b' = b0) then Some (Some n)
              else assigned <$> pool_lookup b' (pool w)) ->
  views d_in d_out w' /\ Forall at_once (sent ++ commands n st ns (port e0) w).
Proof.
  intros HI HP Hv Hde Hl Hob He0 Hns Hout Hls Hsp Ha.
  (* the bot of the loop is not the bot of another loop *)
  assert (Hmine : forall m s, ls w !! m = Some (s, Some b0) -> m = n).
  { intros m s Hm.
    pose proof (inv_loop _ _ HI _ _ _ Hm) as (_ & e & He & Hae).
    assert (e = e0) as -> by congruence.
    destruct Hob as [->|[_ Hidle]]; [|congruence].
    pose proof (inv_loop _ _ HI _ _ _ Hl) as (_ & e & He' & Hae').
    congruence. }
  assert (Hcmd : commands n st ns (port e0) w =
                 [Post (port e0) (Join n);
                  Post (port e0) (if ns =? 2 then Talk else Mute)]).
  { unfold commands. rewrite Hde, andb_false_r.
    destruct Hns as [[-> _]|[-> _]]; reflexivity. }
  rewrite Hcmd in *.
  (* what the demotion pass sent, and to whom *)
  assert (Hdem : (sent = [] /\ states = ls w /\
                  (ns = 2 -> forall m o, m <> n -> ls w !! m <> Some (2, o)))
                 \/
                 (exists m bm em, ns = 2 /\ m <> n /\ bm <> b0 /\
                    ls w !! m = Some (2, Some bm) /\
                    pool_lookup bm (pool w) = Some em /\
                    sent = [Post (port em) Mute] /\
                    states = <[m := (1, Some bm)]> (ls w))).
  { destruct Hns as [[-> [(Hno & -> & ->)|Hyes]]|(-> & -> & ->)].
    - left. auto.
    - right. destruct Hyes as (m & bm & em & Hm & Hlm & Hem & -> & ->).
      exists m, bm, em. unfold mute_command. rewrite Hde.
      repeat split; try done. intros ->. apply Hm. eauto.
    - left. split; [done|]. split; [done|]. done. }
  split.
  2:{ destruct Hdem as [(-> & _)|(m & bm & em & _ & _ & _ & _ & _ & -> & _)];
        cbn; repeat constructor; destruct (ns =? 2); done. }
  eapply views_update; [exact Hout|exact Hsp|exact Hv|].
  intros b e e' He He'. rewrite requests_to_app, requests_pair.
  pose proof (entry_assigned _ _ _ _ _ _ He He' (Ha b)) as Hae.
  assert (Hnew : ls w' !! n = Some (ns, Some b0))
    by (rewrite Hls; apply lookup_insert_eq).
  destruct (decide (b = b0)) as [->|Hne].
  - (* the bot of the loop *)
    assert (e = e0) as -> by congruence. rewrite Z.eqb_refl.
    injection Hae as Hae.
    assert (Hnone : requests_to (port e0) sent = []).
    { destruct Hdem as [(-> & _)|(m & bm & em & _ & _ & Hb & _ & Hem & -> & _)];
        [done|].
      rewrite requests_single.
      rewrite (ports_distinct w bm b0 em e0 HP Hem He0); done. }
    rewrite Hnone. cbn [app follow fst snd].
    unfold expected, talks. rewrite Hae, Hnew. cbn.
    destruct Hns as [[-> _]|[-> _]]; reflexivity.
  - rewrite (ports_distinct w b0 b e0 e HP He0 He) by done.
    rewrite app_nil_r. rewrite He in Hae. injection Hae as Hae.
    assert (Hkn : forall k, assigned e = Some k -> k <> n).
    { intros k Hk ->. destruct (inv_bot _ _ HI _ _ _ He Hk) as [s Hs].
      apply Hne. rewrite Hl in Hs. injection Hs as _ ->.
      destruct Hob as [[= ->]|[? _]]; done. }
    destruct Hdem as [(-> & -> & _)|(m & bm & em & -> & Hm & Hb & Hlm & Hem
                                      & -> & ->)].
    + (* nothing was sent to the others *)
      cbn [requests_to omap list_omap follow]. unfold expected.
      rewrite Hae. f_equal. apply talks_same; [exact Hae|].
      intros k Hk. rewrite Hls. apply lookup_insert_ne.
      intros <-. exact (Hkn _ Hk eq_refl).
    + rewrite requests_single.
      destruct (decide (b = bm)) as [->|Hnm].
      * (* the bot of the loop that talked *)
        assert (e = em) as -> by congruence. rewrite Z.eqb_refl.
        pose proof (inv_loop _ _ HI _ _ _ Hlm) as (_ & e & He2 & Hae2).
        assert (e = em) as -> by congruence.
        unfold expected, talks. rewrite Hae, Hae2. cbn [follow fst snd].
        rewrite Hls, lookup_insert_ne, lookup_insert_eq by done.
        cbn. done.
      * rewrite (ports_distinct w bm b em e HP Hem He) by done.
        cbn [follow]. unfold expected. rewrite Hae. f_equal.
        apply talks_same; [exact Hae|]. intros k Hk. rewrite Hls.
        rewrite lookup_insert_ne by (intros <-; exact (Hkn _ Hk eq_refl)).
        apply lookup_insert_ne. intros <-.
        destruct (inv_bot _ _ HI _ _ _ He Hk) as [s Hs]. congruence.
Qed.

Lemma sync_step op w w' :
  Inv LOOPS w -> delay_enabled (self w) = false -> ports_known w ->
  Forall at_once (outbox w) -> views d_in d_out w ->
  click_op op -> run_op LOOPS clock op w = Some (tt, w') ->
  Inv LOOPS w' /\ delay_enabled (self w') = false /\ ports_known w' /\
  Forall at_once (outbox w') /\ views d_in d_out w'.
Proof.
  intros HI Hde HP Hout Hv Hop Hrun.
  pose proof (proj1 (run_op_loops _ _ _ _ _ HI Hrun)) as HI'.
  pose proof (run_op_named _ _ _ _ _ Hrun) as Hn.
  assert (Hsame : w' = w -> Inv LOOPS w' /\ delay_enabled (self w') = false /\
            ports_known w' /\ Forall at_once (outbox w') /\ views d_in d_out w')
    by (intros ->; done).
  destruct op as [n|n|n s|]; [| |done|done]; cbn [run_op] in Hrun.
  - (* a click *)
    destruct (proj2 (loop_configs_dom LOOPS _) Hn) as [cfg Hcfg].
    destruct (proj2 (inv_dom _ _ HI _) Hn) as [[st ob] Hl].
    destruct (can_listen cfg) eqn:Hcl.
    2:{ rewrite (click_deaf _ _ _ _ _ _ Hcfg Hl Hcl) in Hrun.
        apply Hsame. congruence. }
    rewrite (click_runs _ _ _ _ _ _ _ Hcfg Hl Hcl) in Hrun.
    destruct (click_request cfg st Hcl) as [Hns _].
    set (ns := clamp_for cfg (next_state cfg st)) in *.
    assert (Hgo : forall b0 e0,
      ob = Some b0 \/ (ob = None /\ _find_idle_bot (pool w) = Some b0) ->
      ob = Some b0 \/ (ob = None /\ assigned e0 = None) ->
      pool_lookup b0 (pool w) = Some e0 ->
      Inv LOOPS w' /\ delay_enabled (self w') = false /\ ports_known w' /\
      Forall at_once (outbox w') /\ views d_in d_out w').
    { intros b0 e0 Hob Hob' He0.
      destruct (update_activate LOOPS clock n (next_state cfg st) cfg st ob
                  b0 e0 w HI Hcfg Hl Hns Hob He0)
        as (sent & states & w1 & H2 & H1 & Hrun1 & Hout1 & Hls1 & Hsp & Ha
            & Hde1 & _).
      fold ns in H2, H1, Hout1, Hls1.
      assert (w' = w1) as ->.
      { rewrite (then_paint _ n w w1 Hrun1) in Hrun; [congruence|].
        rewrite Hls1, lookup_insert_eq. eauto. }
      destruct (views_activate w w1 n st ob ns b0 e0 sent states)
        as [Hv1 Hat]; try done.
      { destruct Hns as [E|E]; [right|left]; auto. }
      split; [done|]. split; [congruence|].
      split; [eapply ports_known_frame; eauto|].
      split; [|done]. rewrite Hout1. apply Forall_app. done. }
    destruct ob as [b0|].
    + pose proof (inv_loop _ _ HI _ _ _ Hl) as (_ & e0 & He0 & _).
      apply (Hgo b0 e0); auto.
    + destruct (_find_idle_bot (pool w)) as [b0|] eqn:Hf.
      * destruct (inv_idle_bot _ _ _ HI Hf) as [_ (e0 & He0 & Hid)].
        apply (Hgo b0 e0); auto.
      * apply Hsame.
        assert (Hnoop : _update_bot_assignment LOOPS clock n
                          (next_state cfg st) w = Some (tt, w)).
        { apply wp_exact. eapply update_noop; eauto.
          - fold ns. lia.
          - rewrite Hf. done. }
        rewrite (then_paint _ n w w Hnoop) in Hrun; [congruence|eauto].
  - (* an OFF click *)
    destruct (proj2 (loop_configs_dom LOOPS _) Hn) as [cfg Hcfg].
    destruct (proj2 (inv_dom _ _ HI _) Hn) as [[st ob] Hl].
    assert (Hc0 : clamp_for cfg 0 = 0)
      by (unfold clamp_for; destruct (_ && _); done).
    unfold on_loop_off_clicked in Hrun.
    destruct ob as [b0|].
    + pose proof (inv_loop _ _ HI _ _ _ Hl) as (_ & e0 & He0 & _).
      destruct (update_release_sends LOOPS clock n 0 cfg st b0 e0 w
                  HI Hcfg Hl He0 Hc0)
        as (w1 & Hrun1 & Hout1 & Hls1 & Hsp & Ha & Hde1 & _).
      rewrite Hde in Hout1. cbn in Hout1.
      assert (w' = w1) as ->.
      { rewrite (then_paint _ n w w1 Hrun1) in Hrun; [congruence|].
        rewrite Hls1, lookup_insert_eq. eauto. }
      split; [done|]. split; [congruence|].
      split; [eapply ports_known_frame; eauto|]. split.
      * rewrite Hout1. apply Forall_app. split; [done|].
        repeat constructor.
      * exact (views_release w w1 n st b0 e0 HI HP Hv Hl He0 Hout1 Hls1
                 Hsp Ha).
    + apply Hsame.
      pose proof (inv_loop _ _ HI _ _ _ Hl) as Hst. cbn in Hst. subst st.
      assert (Hoff : _update_bot_assignment LOOPS clock n 0 w = Some (tt, w)).
      { rewrite (update_off_idle LOOPS clock n 0 cfg 0 None w); try done.
        rewrite write_loop_same; done. }
      rewrite (then_paint _ n w w Hoff) in Hrun; [congruence|eauto].
Qed.

(** X8. While the delay is off the bots are where the window shows
    them. After any clicks and OFF clicks, every request sent is a
    /join, /leave, /talk or /mute that is served on the spot, and the
    bot behind the port of each pool entry, having served the requests
    posted to it, has joined the loop the entry is assigned to ([None]
    for an idle bot) and is streaming exactly when that loop is in
    TALK. *)
Theorem bots_follow_window ops b e :
  Forall click_op ops ->
  pool_lookup b (pool (world_after LOOPS clock ops)) = Some e ->
  Forall at_once (outbox (world_after LOOPS clock ops)) /\
  loop (bot_behind (port e) (outbox (world_after LOOPS clock ops)) d_in d_out)
    = assigned e /\
  (streaming (bot_behind (port e) (outbox (world_after LOOPS clock ops))
                d_in d_out) = true <->
   exists n, ls (world_after LOOPS clock ops) !! n = Some (2, Some b)) /\
  (forall n st, ls (world_after LOOPS clock ops) !! n = Some (st, Some b) ->
     loop (bot_behind (port e) (outbox (world_after LOOPS clock ops))
             d_in d_out) = Some n).
Proof.
  intros Hops He.
  assert (Hall : forall ops w,
    Forall click_op ops ->
    Inv LOOPS w /\ delay_enabled (self w) = false /\ ports_known w /\
    Forall at_once (outbox w) /\ views d_in d_out w ->
    let w' := world_from LOOPS clock w ops in
    Inv LOOPS w' /\ delay_enabled (self w') = false /\ ports_known w' /\
    Forall at_once (outbox w') /\ views d_in d_out w').
  { induction ops0 as [|op ops0 IH]; intros w Hc Hw; [done|].
    apply Forall_cons in Hc as [Hc Hcs]. cbn [world_from].
    destruct (run_op LOOPS clock op w) as [[[] w1]|] eqn:E; [|done].
    apply IH; [done|].
    destruct Hw as (HI & Hde & HP & Hout & Hv).
    eapply sync_step; eauto. }
  destruct (Hall ops (init_world LOOPS) Hops) as (HI & _ & _ & Hout & Hv).
  { split; [apply inv_init|]. split; [done|].
    split; [apply ports_known_init|]. split; [constructor|].
    intros b0 e0 He0. apply pool_lookup_elem in He0. cbn in He0.
    repeat (apply elem_of_cons in He0 as [[= -> ->]|He0]; [done|]).
    inversion He0. }
  fold (world_after LOOPS clock ops) in HI, Hout, Hv.
  specialize (Hv b e He). unfold seen, expected in Hv.
  injection Hv as Hloop Hstr.
  split; [done|]. split; [done|]. split.
  - rewrite Hstr. unfold talks. split.
    + destruct (assigned e) as [n|] eqn:Ha; [|done].
      intros Ht. apply bool_decide_eq_true in Ht.
      destruct (inv_bot _ _ HI _ _ _ He Ha) as [s Hs].
      rewrite Hs in Ht. cbn in Ht. injection Ht as ->. eauto.
    + intros [n Hn].
      pose proof (inv_loop _ _ HI _ _ _ Hn) as (_ & e' & He' & Ha).
      assert (e' = e) as -> by congruence. rewrite Ha.
      apply bool_decide_eq_true. rewrite Hn. done.
  - intros n st Hn. rewrite Hloop.
    pose proof (inv_loop _ _ HI _ _ _ Hn) as (_ & e' & He' & Ha).
    congruence.
Qed.

End BotsFollow.

Lemma bots_follow_window_witness :
  Forall at_once (outbox talk_twice) /\
  BotServer.loop (bot_behind (port (mkBot 6002 (Some "B") 5))
                    (outbox talk_twice) 0 1)
    = assigned (mkBot 6002 (Some "B") 5) /\
  (BotServer.streaming (bot_behind (port (mkBot 6002 (Some "B") 5))
                          (outbox talk_twice) 0 1) = true <->
   exists n, ls talk_twice !! n = Some (2, Some "BOT2")) /\
  (forall n st, ls talk_twice !! n = Some (st, Some "BOT2") ->
     BotServer.loop (bot_behind (port (mkBot 6002 (Some "B") 5))
                       (outbox talk_twice) 0 1) = Some n).
Proof.
  assert (Hc : Forall click_op [Click "A"; Click "A"; Click "B"; Click "B"])
    by (repeat constructor).
  assert (He : pool_lookup "BOT2" (pool talk_twice)
               = Some (mkBot 6002 (Some "B") 5)) by (vm_compute; reflexivity).
  exact (bots_follow_window demo_loops demo_clock 0 1 _ "BOT2" _ Hc He).
Defined.

(** ** The window's other handlers *)

Lemma add_widgets_lookup l k i loop :
  0 <= k -> l !! i = Some loop ->
  add_widgets l (k / 4) (k mod 4) !! i
  = Some (name loop, ((k + Z.of_nat i) / 4, (k + Z.of_nat i) mod 4)).
Proof.
  revert k i. induction l as [|x l IH]; intros k i Hk Hi; [done|].
  destruct i as [|i]; cbn [add_widgets].
  - cbn in Hi. injection Hi as ->. rewrite Z.add_0_r. done.
  - change (l !! i = Some loop) in Hi.
    rewrite lookup_cons_ne_0 by done. cbn [pred].
    assert (Hcol : (k mod 4 + 1) mod 4 = (k + 1) mod 4)
      by (rewrite Z.add_mod_idemp_l; done).
    assert (Hrow : (if (k mod 4 + 1) mod 4 =? 0 then k / 4 + 1 else k / 4)
                   = (k + 1) / 4).
    { rewrite Hcol. destruct ((k + 1) mod 4 =? 0) eqn:E.
      - apply Z.eqb_eq in E.
        pose proof (Z.div_mod k 4). pose proof (Z.div_mod (k + 1) 4).
        pose proof (Z.mod_pos_bound k 4). lia.
      - apply Z.eqb_neq in E.
        pose proof (Z.div_mod k 4). pose proof (Z.div_mod (k + 1) 4).
        pose proof (Z.mod_pos_bound k 4).
        pose proof (Z.mod_pos_bound (k + 1) 4). lia. }
    rewrite Hrow, Hcol. rewrite (IH (k + 1) i) by (lia || done).
    replace (k + Z.of_nat (S i)) with (k + 1 + Z.of_nat i) by lia. done.
Qed.

Lemma add_widgets_length l row col : length (add_widgets l row col) = length l.
Proof. revert row col. induction l; intros; cbn; [done|]. by rewrite IHl. Qed.

(** X9. The buttons are laid out four to a row, in the order of
    LOOPS. The button of the i-th loop is at row i // 4 and column
    i % 4, there is one button for each entry of LOOPS, and no two
    buttons are in the same cell. *)
Theorem button_grid_layout LOOPS :
  length (button_grid LOOPS) = length LOOPS /\
  (forall i loop, LOOPS !! i = Some loop ->
     button_grid LOOPS !! i
     = Some (name loop, (Z.of_nat i / 4, Z.of_nat i mod 4))) /\
  (forall i j n1 n2 cell,
     button_grid LOOPS !! i = Some (n1, cell) ->
     button_grid LOOPS !! j = Some (n2, cell) -> i = j).
Proof.
  assert (Hpos : forall i loop, LOOPS !! i = Some loop ->
     button_grid LOOPS !! i
     = Some (name loop, (Z.of_nat i / 4, Z.of_nat i mod 4))).
  { intros i loop Hi. apply (add_widgets_lookup LOOPS 0 i loop); done. }
  split; [apply add_widgets_length|]. split; [exact Hpos|].
  intros i j n1 n2 cell Hi Hj.
  assert (Hlen := add_widgets_length LOOPS 0 0).
  destruct (LOOPS !! i) as [x|] eqn:Ei.
  2:{ apply lookup_ge_None in Ei. apply lookup_lt_Some in Hi.
      unfold button_grid in Hi. lia. }
  destruct (LOOPS !! j) as [y|] eqn:Ej.
  2:{ apply lookup_ge_None in Ej. apply lookup_lt_Some in Hj.
      unfold button_grid in Hj. lia. }
  rewrite (Hpos _ _ Ei) in Hi. rewrite (Hpos _ _ Ej) in Hj.
  injection Hi as _ <-. injection Hj as _ Hr Hc.
  pose proof (Z.div_mod (Z.of_nat i) 4). pose proof (Z.div_mod (Z.of_nat j) 4).
  lia.
Qed.

Lemma poll_bot_lookup LOOPS uc counts n :
  poll_bot LOOPS uc (Some (Some counts)) !! n
  = if decide (n ∈ map name LOOPS) then Some (default 0 (counts !! n))
    else uc !! n.
Proof.
  unfold poll_bot.
  rewrite (dict_fold_lookup (fun loop => default 0 (counts !! name loop))).
  pose proof (last_filter_name n LOOPS) as H.
  destruct (last _) as [x|].
  - destruct H as [Hx <-]. rewrite decide_True; [done|].
    apply list_elem_of_fmap_2. done.
  - rewrite decide_False by done. done.
Qed.

Lemma poll_pool_lookup LOOPS answer bots uc n :
  foldl (fun uc bot => poll_bot LOOPS uc (answer (port (snd bot)))) uc bots
    !! n
  = match last_counts answer bots with
    | Some counts =>
        if decide (n ∈ map name LOOPS) then Some (default 0 (counts !! n))
        else uc !! n
    | None => uc !! n
    end.
Proof.
  revert uc. induction bots as [|x bots IH]; intros uc; [done|].
  cbn [foldl]. rewrite IH. unfold last_counts. cbn [omap list_omap].
  destruct (answer (port (snd x))) as [[counts|]|] eqn:E; [|done|done].
  destruct (omap _ bots) as [|c cs] eqn:Eo.
  - cbn [last]. apply poll_bot_lookup.
  - rewrite last_cons_cons. destruct (last (c :: cs)) as [c'|] eqn:El.
    + destruct (decide _); [done|]. rewrite poll_bot_lookup.
      rewrite decide_False by done. done.
    + apply last_None in El. done.
Qed.

Section WindowHandlers.

Variable LOOPS : list Loop.
Variable clock : nat -> Q.

Lemma paint_all l w :
  (forall x, x ∈ l -> is_Some (ls w !! name x)) ->
  for_each l (fun loop => _set_button_state (name loop)) w = Some (tt, w).
Proof.
  induction l as [|x l IH]; intros Hdom; [reflexivity|].
  cbn [for_each]. unfold bind.
  destruct (Hdom x) as [v Hv]; [left|].
  unfold _set_button_state at 1. unfold bind, get_loop_state. rewrite Hv.
  cbn. apply IH. intros y Hy. apply Hdom. by right.
Qed.

(** X10. _poll_status shows the counts of the last bot that answers.
    In a reachable state the poll returns, whatever the bots answer,
    and changes neither loops nor bots. If no bot answers with a
    ["user_counts"], the counts stay; otherwise the count of every loop
    of LOOPS becomes what the last such bot of the pool reports for the
    loop's name, or 0 if it reports nothing for it: the answers of
    earlier bots are overwritten. *)
Theorem poll_status_counts answer user_counts w :
  reachable LOOPS clock w ->
  exists uc,
    _poll_status LOOPS answer user_counts w = Some (uc, w) /\
    forall n,
      uc !! n = match last_counts answer (pool w) with
                | Some counts =>
                    if decide (n ∈ map name LOOPS)
                    then Some (default 0 (counts !! n))
                    else user_counts !! n
                | None => user_counts !! n
                end.
Proof.
  intros Hr. pose proof (reachable_inv _ _ _ Hr) as HI.
  eexists. split.
  - unfold _poll_status, bind. rewrite paint_all; [reflexivity|].
    intros x Hx. eapply inv_loops_present; eauto.
  - intros n. apply poll_pool_lookup.
Qed.

(** X11. A change of the volume slider reaches the bot of the loop
    unchanged. The slider has the range 20..100 and sends value/100.0;
    in a reachable state on_volume_changed returns; for a loop with a
    bot it posts /set_volume with that number to the port of that bot
    and to no other, and the bot that serves it ends with exactly that
    playback volume, which is at least 20/100.0 and at most 1.0; for a
    loop without a bot nothing is sent. *)
Theorem slider_volume_reaches_bot w n st ob value :
  reachable LOOPS clock w ->
  ls w !! n = Some (st, ob) ->
  SLIDER_MIN <= value <= SLIDER_MAX ->
  let volume := _slider_changed value in
  (forall b, ob = Some b ->
     exists e, pool_lookup b (pool w) = Some e /\
       on_volume_changed n volume w
       = Some ([(port e, SetVolume volume)], w)) /\
  (ob = None -> on_volume_changed n volume w = Some ([], w)) /\
  (forall bot,
     BotServer.playback_volume (BotApi.serve_request (SetVolume volume) bot)
     = volume) /\
  SFleb (_slider_changed SLIDER_MIN) volume = true /\
  SFleb volume BotServer.f64_one = true.
Proof.
  intros Hr Hl Hv volume. pose proof (reachable_inv _ _ _ Hr) as HI.
  split; [|split].
  - intros b ->. pose proof (inv_loop _ _ HI _ _ _ Hl) as (_ & e & He & _).
    exists e. split; [done|]. unfold on_volume_changed, bind, get_loop_state.
    rewrite Hl. cbn [snd]. rewrite (inv_truthy _ _ _ _ _ HI Hl).
    unfold get_bot. rewrite He. reflexivity.
  - intros ->. unfold on_volume_changed, bind, get_loop_state.
    rewrite Hl. reflexivity.
  - unfold SLIDER_MIN, SLIDER_MAX in Hv.
    assert (Hk : exists i : nat, value = 20 + Z.of_nat i /\ (i <= 80)%nat).
    { exists (Z.to_nat (value - 20)). lia. }
    destruct Hk as (i & -> & Hi). unfold volume. clear -Hi.
    cbn [BotApi.serve_request BotApi.serve_set_volume default
         BotServer.set_volume BotServer.set_playback_volume
         BotServer.playback_volume].
    do 81 (destruct i as [|i];
           [split; [intros _|split]; vm_compute; reflexivity|]).
    lia.
Qed.

End WindowHandlers.

Lemma poll_status_counts_witness :
  exists uc,
    _poll_status demo_loops
      (fun p => if p =? 6002 then Some (Some {["A" := 4]}) else None)
      (init_user_counts demo_loops) talk_twice = Some (uc, talk_twice) /\
    forall n,
      uc !! n = match last_counts
                        (fun p => if p =? 6002 then Some (Some {["A" := 4]})
                                  else None) (pool talk_twice) with
                | Some counts =>
                    if decide (n ∈ map name demo_loops)
                    then Some (default 0 (counts !! n))
                    else init_user_counts demo_loops !! n
                | None => init_user_counts demo_loops !! n
                end.
Proof.
  apply (poll_status_counts demo_loops demo_clock).
  apply world_after_reachable.
Defined.

Lemma slider_volume_reaches_bot_witness :
  let volume := _slider_changed 50 in
  (forall b, Some "BOT2" = Some b ->
     exists e, pool_lookup b (pool talk_twice) = Some e /\
       on_volume_changed "B" volume talk_twice
       = Some ([(port e, SetVolume volume)], talk_twice)) /\
  (Some "BOT2" = None ->
   on_volume_changed "B" volume talk_twice = Some ([], talk_twice)) /\
  (forall bot,
     BotServer.playback_volume (BotApi.serve_request (SetVolume volume) bot)
     = volume) /\
  SFleb (_slider_changed SLIDER_MIN) volume = true /\
  SFleb volume BotServer.f64_one = true.
Proof.
  apply (slider_volume_reaches_bot demo_loops demo_clock talk_twice "B" 2
           (Some "BOT2") 50).
  - apply world_after_reachable.
  - vm_compute. reflexivity.
  - unfold SLIDER_MIN, SLIDER_MAX. lia.
Defined.

(** ** Requests to bots that do not answer *)

Lemma until_refused_all {R} refused (reqs : list (Z * R)) :
  Forall (fun x => refused (fst x) = false) reqs ->
  until_refused refused reqs = reqs.
Proof.
  induction 1 as [|x l Hx _ IH]; cbn; [done|]. rewrite Hx, IH. done.
Qed.

Lemma until_refused_app {R} refused (l1 l2 : list (Z * R)) :
  Forall (fun x => refused (fst x) = false) l1 ->
  until_refused refused (l1 ++ l2) = l1 ++ until_refused refused l2.
Proof.
  induction 1 as [|x l Hx _ IH]; cbn; [done|]. rewrite Hx, IH. done.
Qed.

Lemma each_guarded_map {R} refused (f : Z -> R) (l : list (string * BotEntry)) :
  each_guarded refused (map (fun bot => (port (snd bot), f (port (snd bot)))) l)
  = map (fun bot => (port (snd bot), f (port (snd bot))))
        (List.filter (fun bot => negb (refused (port (snd bot)))) l).
Proof.
  unfold each_guarded. induction l as [|x l IH]; cbn; [done|].
  destruct (refused (port (snd x))); cbn; rewrite IH; done.
Qed.

(** X12. A bot that does not answer stops toggle_delay, not the device
    handlers. Let the pool be [before], then a bot whose port refuses
    the request, then [after], the bots of [before] answering.
    toggle_delay flips [delay_enabled] and returns, having sent the
    delay command to the bots of [before] only: the bots of [after]
    are never told. on_in_changed and on_out_changed reach every bot
    that answers, those of [after] included. When every bot answers,
    toggle_delay sends the command to the whole pool. *)
Theorem toggle_delay_stops_at_refusal refused w before b e after :
  pool w = before ++ (b, e) :: after ->
  Forall (fun bot => refused (port (snd bot)) = false) before ->
  refused (port e) = true ->
  let command := if delay_enabled (self w) then DelayOff
                 else DelayOn (delay_seconds (self w)) in
  let answering := List.filter (fun bot => negb (refused (port (snd bot)))) in
  (delay_enabled (self (toggle_delay_guarded refused w))
     = negb (delay_enabled (self w)) /\
   ls (toggle_delay_guarded refused w) = ls w /\
   pool (toggle_delay_guarded refused w) = pool w /\
   outbox (toggle_delay_guarded refused w)
     = outbox w ++ map (fun bot => Post (port (snd bot)) command) before) /\
  (forall idx,
     on_in_changed refused idx w
     = map (fun bot => (port (snd bot), DeviceIn idx))
           (before ++ answering after) /\
     on_out_changed refused idx w
     = map (fun bot => (port (snd bot), DeviceOut idx))
           (before ++ answering after)) /\
  (toggle_delay w = Some (tt, toggle_delay_guarded (fun _ => false) w) /\
   outbox (toggle_delay_guarded (fun _ => false) w)
     = outbox w ++ map (fun bot => Post (port (snd bot)) command) (pool w)).
Proof.
  intros Hpool Hbefore He command answering.
  assert (Hans : answering (pool w) = before ++ answering after).
  { unfold answering. rewrite Hpool, List.filter_app. cbn [List.filter snd].
    rewrite He. cbn [negb]. f_equal.
    clear -Hbefore. induction Hbefore as [|x l Hx _ IH]; cbn; [done|].
    rewrite Hx. cbn. rewrite IH. done. }
  split; [|split].
  - unfold toggle_delay_guarded. cbn.
    split; [done|]. split; [done|]. split; [done|]. f_equal.
    rewrite Hpool, map_app. cbn [map].
    rewrite until_refused_app.
    2:{ clear -Hbefore. induction Hbefore; constructor; done. }
    cbn [until_refused fst snd]. rewrite He, app_nil_r, map_map. cbn.
    unfold command. destruct (delay_enabled (self w)); done.
  - intros idx. unfold on_in_changed, on_out_changed.
    rewrite (each_guarded_map refused (fun _ => DeviceIn idx)).
    rewrite (each_guarded_map refused (fun _ => DeviceOut idx)).
    fold answering. rewrite Hans. done.
  - split; [apply toggle_delay_exact|].
    unfold toggle_delay_guarded. cbn. rewrite until_refused_none, map_map.
    cbn. unfold command. destruct (delay_enabled (self w)); done.
Qed.

Lemma toggle_delay_stops_at_refusal_witness :
  outbox (toggle_delay_guarded (fun p => p =? 6002) talk_twice)
  = outbox talk_twice ++ [Post 6001 (DelayOn 3)] /\
  on_in_changed (fun p => p =? 6002) 7 talk_twice
  = [(6001, DeviceIn 7); (6003, DeviceIn 7)].
Proof.
  assert (Hp : pool talk_twice
               = [("BOT1", mkBot 6001 (Some "A") 4)]
                 ++ ("BOT2", mkBot 6002 (Some "B") 5)
                 :: [("BOT3", mkBot 6003 None 0)])
    by (vm_compute; reflexivity).
  pose proof (toggle_delay_stops_at_refusal (fun p => p =? 6002) talk_twice
                _ _ _ _ Hp ltac:(repeat constructor) eq_refl)
    as ((_ & _ & _ & Hout) & Hdev & _).
  split.
  - rewrite Hout. vm_compute. reflexivity.
  - rewrite (proj1 (Hdev 7)). reflexivity.
Defined.

(** ** The bot: what is sent and what is played *)

Module AudioFacts.
Import BotServer BotSpec BotApi BotWords.

Lemma step_quiet b ev b' :
  step b ev = Some b' -> streaming b = false -> ev <> ev_talk ->
  sound_output b' = sound_output b /\ streaming b' = false.
Proof.
  intros Hs Hm Hev.
  destruct ev; cbn in Hs; try done;
    try (injection Hs as <-; cbn; done).
  - injection Hs as <-. unfold _mic_callback.
    destruct (audio_delay_enabled b); [done|]. rewrite Hm. done.
  - unfold playback_turn in Hs. destruct (_recv_q b); [done|].
    destruct (scale_chunk _ _); [|done]. injection Hs as <-. done.
  - unfold worker_get in Hs. destruct (worker b); try done.
    destruct (audio_delay_queue b); [done|]. injection Hs as <-. done.
  - unfold worker_check in Hs. destruct (worker b) as [|[ts pcm]|]; try done.
    destruct (negb _); injection Hs as <-; done.
  - unfold worker_wake in Hs. destruct (worker b) as [| |[ts pcm] wa]; try done.
    destruct (Qle_bool wa t); [|done]. injection Hs as <-.
    rewrite Hm. done.
Qed.

(** X13. A bot that is not talking sends no audio. From a state with
    [streaming] off, whatever happens other than a /talk request
    (microphone blocks, delay switched on or off, the worker running,
    requests, received sound), nothing is given to the Mumble sound
    output, in either relay mode, and [streaming] stays off. *)
Theorem muted_bot_sends_nothing b evs b' :
  run b evs = Some b' ->
  streaming b = false ->
  Forall (fun ev => ev <> ev_talk) evs ->
  sound_output b' = sound_output b /\ streaming b' = false.
Proof.
  revert b. induction evs as [|ev evs IH]; intros b Hrun Hm Hev.
  - injection Hrun as <-. done.
  - apply Forall_cons in Hev as [Hev Hevs]. cbn [run] in Hrun.
    destruct (step b ev) as [b1|] eqn:E; [|done].
    destruct (step_quiet _ _ _ E Hm Hev) as [Ho Hs].
    destruct (IH b1 Hrun Hs Hevs) as [Ho' Hs']. split; congruence.
Qed.

Lemma step_order b ev b' :
  step b ev = Some b' -> delay_switch ev = false -> one_mode b ->
  one_mode b' /\
  exists played,
    sound_output b' = sound_output b ++ played /\
    played ++ pending b' `sublist_of` pending b ++ captured [ev].
Proof.
  intros Hs Hsw Hmode. unfold one_mode, pending in *.
  destruct ev; cbn in Hs, Hsw; try done;
    try (injection Hs as <-; split; [exact Hmode|];
         exists []; cbn; rewrite ?app_nil_r; done).
  - (* _mic_callback *)
    injection Hs as <-. unfold _mic_callback.
    destruct (audio_delay_enabled b) eqn:Ed.
    + split; [by left|]. exists []. cbn. rewrite app_nil_r.
      split; [done|]. rewrite !map_app, app_assoc. done.
    + destruct Hmode as [?|[_ Hp]]; [done|].
      destruct (streaming b && sound_output_ready b).
      * split; [right; cbn; done|]. exists [pcm]. cbn.
        split; [done|]. rewrite Hp. done.
      * split; [right; done|]. exists []. cbn. rewrite app_nil_r.
        split; [done|]. rewrite Hp. cbn. apply sublist_nil_l.
  - (* _playback_thread *)
    unfold playback_turn in Hs. destruct (_recv_q b); [done|].
    destruct (scale_chunk _ _); [|done]. injection Hs as <-.
    split; [exact Hmode|]. exists []. cbn. rewrite !app_nil_r. done.
  - (* worker: get *)
    unfold worker_get in Hs. destruct (worker b) eqn:W; try done.
    destruct (audio_delay_queue b) as [|f rest] eqn:Qe; [done|].
    injection Hs as <-. split.
    + destruct Hmode as [?|[_ Hp]]; [by left|]. done.
    + exists []. cbn. rewrite !app_nil_r. done.
  - (* worker: flag test *)
    unfold worker_check in Hs.
    destruct (worker b) as [|[ts pcm]|] eqn:W; try done.
    destruct Hmode as [Hd|[_ Hp]]; [|done]. rewrite Hd in Hs.
    injection Hs as <-. split; [by left|].
    exists []. cbn. rewrite !app_nil_r. done.
  - (* worker: after the sleep *)
    unfold worker_wake in Hs.
    destruct (worker b) as [| |[ts pcm] wa] eqn:W; try done.
    destruct (Qle_bool wa t); [|done]. injection Hs as <-.
    destruct Hmode as [Hd|[_ Hp]]; [|done].
    destruct (streaming b && sound_output_ready b).
    + split; [by left|]. exists [pcm]. cbn. rewrite !app_nil_r. done.
    + split; [by left|]. exists []. cbn. rewrite !app_nil_r.
      split; [done|]. apply sublist_cons. done.
Qed.

(** X14. The relay never reorders audio while its mode stays. With the
    delay on, or with the delay off and nothing left of an earlier
    delay, and as long as the delay is not switched, whatever is given
    to the Mumble sound output is a subsequence, in the same order, of
    the chunks that were waiting followed by the chunks captured since:
    chunks may be dropped, never reordered or repeated; and the relay
    is still in one mode. *)
Theorem relay_keeps_order b evs b' :
  run b evs = Some b' ->
  Forall (fun ev => delay_switch ev = false) evs ->
  one_mode b ->
  one_mode b' /\
  exists played,
    sound_output b' = sound_output b ++ played /\
    played ++ pending b' `sublist_of` pending b ++ captured evs.
Proof.
  revert b. induction evs as [|ev evs IH]; intros b Hrun Hsw Hmode.
  - injection Hrun as <-. split; [done|]. exists []. cbn.
    rewrite !app_nil_r. done.
  - apply Forall_cons in Hsw as [Hsw Hsws]. cbn [run] in Hrun.
    destruct (step b ev) as [b1|] eqn:E; [|done].
    destruct (step_order _ _ _ E Hsw Hmode) as [Hm1 (p1 & Hs1 & Ha1)].
    destruct (IH b1 Hrun Hsws Hm1) as [Hm2 (p2 & Hs2 & Ha2)].
    split; [done|]. exists (p1 ++ p2).
    split; [rewrite Hs2, Hs1, app_assoc; done|].
    rewrite (RelayFacts.captured_cons ev evs), <- app_assoc.
    transitivity (p1 ++ pending b1 ++ captured evs).
    { apply sublist_app; [done|exact Ha2]. }
    rewrite !app_assoc. apply sublist_app; [exact Ha1|done].
Qed.

Lemma step_playback b ev b' :
  step b ev = Some b' ->
  exists written consumed,
    outstream b' = outstream b ++ written /\
    _recv_q b ++ received [ev] = consumed ++ _recv_q b' /\
    Forall2 (fun o i => scale_chunk (playback_volume b) i = Some o)
            written consumed /\
    (playback_volume b' = playback_volume b \/ written = []).
Proof.
  intros Hs.
  destruct ev; cbn in Hs; try done;
    try (injection Hs as <-; exists [], []; cbn; rewrite ?app_nil_r;
         split; [done|]; split; [done|]; split; [constructor|auto]).
  - injection Hs as <-. exists [], []. unfold _mic_callback.
    destruct (audio_delay_enabled b);
      [|destruct (streaming b && sound_output_ready b)];
      cbn; rewrite ?app_nil_r; repeat split; auto; constructor.
  - unfold playback_turn in Hs. destruct (_recv_q b) as [|i rest]; [done|].
    destruct (scale_chunk _ _) as [o|] eqn:E; [|done]. injection Hs as <-.
    exists [o], [i]. cbn. rewrite app_nil_r.
    split; [done|]. split; [done|]. split; [|auto].
    constructor; [done|constructor].
  - unfold worker_get in Hs. destruct (worker b); try done.
    destruct (audio_delay_queue b); [done|]. injection Hs as <-.
    exists [], []. cbn. rewrite ?app_nil_r.
    repeat split; auto; constructor.
  - unfold worker_check in Hs. destruct (worker b) as [|[ts pcm]|]; try done.
    destruct (negb _); injection Hs as <-; exists [], []; cbn;
      rewrite ?app_nil_r; repeat split; auto; constructor.
  - unfold worker_wake in Hs. destruct (worker b) as [| |[ts pcm] wa]; try done.
    destruct (Qle_bool wa t); [|done]. injection Hs as <-.
    exists [], []. destruct (streaming b && sound_output_ready b);
      cbn; rewrite ?app_nil_r; repeat split; auto; constructor.
Qed.

Lemma scale_chunk_length v i o : scale_chunk v i = Some o -> length o = length i.
Proof.
  revert o. induction i as [|s i IH]; intros o; cbn.
  - intros [= <-]. done.
  - destruct (scale_sample v s); [|done].
    destruct (scale_chunk v i) as [zs|]; [|done].
    intros [= <-]. cbn. f_equal. auto.
Qed.

Lemma received_cons ev evs :
  received (ev :: evs) = received [ev] ++ received evs.
Proof. destruct ev; reflexivity. Qed.

(** X15. Received sound is played in the order it came, chunk for
    chunk. Whatever happens to a bot, what has been written to the
    output device since is one chunk for each of the first received
    chunks, in their order, each of them the received chunk scaled by
    some volume and with as many samples; the chunks still in the
    queue are the remaining ones, in order. Nothing is skipped,
    repeated or reordered, and nothing else is written. *)
Theorem playback_in_order b evs b' :
  run b evs = Some b' ->
  exists written consumed,
    outstream b' = outstream b ++ written /\
    _recv_q b ++ received evs = consumed ++ _recv_q b' /\
    Forall2 (fun o i => (exists v, scale_chunk v i = Some o) /\
                        length o = length i) written consumed.
Proof.
  revert b. induction evs as [|ev evs IH]; intros b Hrun.
  - injection Hrun as <-. exists [], []. cbn. rewrite !app_nil_r.
    split; [done|]. split; [done|]. constructor.
  - cbn [run] in Hrun. destruct (step b ev) as [b1|] eqn:E; [|done].
    destruct (step_playback _ _ _ E) as (w1 & c1 & Ho1 & Hq1 & Hf1 & _).
    destruct (IH b1 Hrun) as (w2 & c2 & Ho2 & Hq2 & Hf2).
    exists (w1 ++ w2), (c1 ++ c2).
    split; [rewrite Ho2, Ho1, app_assoc; done|]. split.
    + rewrite received_cons, app_assoc, Hq1, <- !app_assoc. f_equal.
      exact Hq2.
    + apply Forall2_app; [|done].
      eapply Forall2_impl; [exact Hf1|]. intros o i H.
      cbn in H. split; [exists (playback_volume b); exact H|].
      eapply scale_chunk_length; exact H.
Qed.

End AudioFacts.

Lemma muted_bot_sends_nothing_witness :
  BotServer.sound_output BotSpec.scenario3_woken
  = BotServer.sound_output BotSpec.scenario3_muted.
Proof.
  assert (Hrun : BotServer.run BotSpec.scenario3_muted
                   [BotServer.ev_worker_wake 13]
                 = Some BotSpec.scenario3_woken)
    by (vm_compute; reflexivity).
  apply (AudioFacts.muted_bot_sends_nothing _ _ _ Hrun).
  - vm_compute. reflexivity.
  - repeat constructor; discriminate.
Defined.

Lemma relay_keeps_order_witness :
  BotWords.one_mode BotSpec.scenario3_muted /\
  exists played,
    BotServer.sound_output BotSpec.scenario3_muted
    = BotServer.sound_output BotSpec.scenario3_start ++ played /\
    played ++ BotSpec.pending BotSpec.scenario3_muted
      `sublist_of` BotSpec.pending BotSpec.scenario3_start
                   ++ BotSpec.captured BotSpec.scenario3_events.
Proof.
  assert (Hrun : BotServer.run BotSpec.scenario3_start
                   BotSpec.scenario3_events
                 = Some BotSpec.scenario3_muted)
    by (vm_compute; reflexivity).
  apply (AudioFacts.relay_keeps_order _ _ _ Hrun).
  - repeat constructor.
  - left. reflexivity.
Defined.

Lemma playback_in_order_witness :
  exists written consumed,
    BotServer.outstream
      (BotServer.set_playback [] [[7]]
         (BotServer.set_volume BotSpec.f64_0_7
            (BotServer._on_sound_received [10] (BotServer.init 0 1))))
    = BotServer.outstream (BotServer.init 0 1) ++ written /\
    BotServer._recv_q (BotServer.init 0 1)
      ++ BotWords.received
           [BotServer.ev_sound_received [10];
            BotServer.ev_set_volume BotSpec.f64_0_7; BotServer.ev_playback]
    = consumed
      ++ BotServer._recv_q
           (BotServer.set_playback [] [[7]]
              (BotServer.set_volume BotSpec.f64_0_7
                 (BotServer._on_sound_received [10] (BotServer.init 0 1)))) /\
    Forall2 (fun o i =>
               (exists v, BotServer.scale_chunk v i = Some o) /\
               length o = length i) written consumed.
Proof.
  apply (AudioFacts.playback_in_order (BotServer.init 0 1)
           [BotServer.ev_sound_received [10];
            BotServer.ev_set_volume BotSpec.f64_0_7; BotServer.ev_playback]).
  vm_compute. reflexivity.
Defined.

(** Switching the delay off while the worker sleeps lets the later
    chunk overtake the earlier one. *)
Example delay_off_lets_audio_overtake :
  BotServer.sound_output
    <$> BotServer.run BotSpec.scenario3_start BotWords.overtaking
  = Some [[2]; [1]].
Proof. vm_compute. reflexivity. Qed.

(** ** The bot: channels and users *)

Module MumbleFacts.
Import BotServer BotApi BotWords.

Lemma users_in_cons c u users :
  users_in c (u :: users)
  = (if bool_decide (channel_id u = Some c) then 1 else 0) + users_in c users.
Proof.
  unfold users_in. cbn [List.filter].
  destruct (bool_decide (channel_id u = Some c)); cbn [length]; lia.
Qed.

Lemma users_in_nonneg c users : 0 <= users_in c users.
Proof. unfold users_in. lia. Qed.

Lemma user_map_fold users (m : gmap Z Z) c :
  foldl (fun channel_users user =>
           match channel_id user with
           | Some ch_id =>
               <[ch_id := default 0 (channel_users !! ch_id) + 1]> channel_users
           | None => channel_users
           end) m users !! c
  = if users_in c users =? 0 then m !! c
    else Some (default 0 (m !! c) + users_in c users).
Proof.
  revert m. induction users as [|u users IH]; intros m; [done|].
  cbn [foldl]. rewrite IH, users_in_cons.
  pose proof (users_in_nonneg c users) as Hk.
  destruct (channel_id u) as [c'|] eqn:Eu.
  - destruct (decide (c' = c)) as [->|Hne].
    + rewrite bool_decide_eq_true_2 by done.
      rewrite lookup_insert_eq. cbn [default].
      destruct (1 + users_in c users =? 0) eqn:E1;
        [apply Z.eqb_eq in E1; lia|].
      destruct (users_in c users =? 0) eqn:E0.
      * apply Z.eqb_eq in E0. rewrite E0. apply (f_equal Some).
        unfold id. lia.
      * apply (f_equal Some). unfold id. lia.
    + rewrite bool_decide_eq_false_2 by congruence.
      rewrite lookup_insert_ne; done.
  - rewrite bool_decide_eq_false_2; done || congruence.
Qed.

(** X16. _update_user_map counts the users of each channel. The map it
    builds has an entry for a channel exactly when some user is in it,
    and the entry is the number of users whose channel_id is that
    channel; users without a channel are not counted. *)
Theorem user_map_counts users c :
  _update_user_map users !! c
  = (if users_in c users =? 0 then None else Some (users_in c users)) /\
  default 0 (_update_user_map users !! c) = users_in c users.
Proof.
  unfold _update_user_map. rewrite user_map_fold, lookup_empty. cbn.
  destruct (users_in c users =? 0) eqn:E; [|done].
  apply Z.eqb_eq in E. rewrite E. done.
Qed.

Lemma find_name_None (channels : list Channel) n :
  n ∉ map ch_name channels ->
  List.find (fun ch => String.eqb (ch_name ch) n) channels = None.
Proof.
  induction channels as [|x l IH]; intros Hn; [done|]. cbn.
  destruct (String.eqb (ch_name x) n) eqn:E.
  - apply String.eqb_eq in E. exfalso. apply Hn. cbn. rewrite E. left.
  - apply IH. intros H. apply Hn. cbn. by right.
Qed.

Lemma report_lookup channels (ubc : gmap Z Z) (m : gmap string Z) n :
  NoDup (map ch_name channels) ->
  foldl (fun user_counts ch =>
           <[ch_name ch := default 0 (ubc !! cid ch)]> user_counts)
        m channels !! n
  = match List.find (fun ch => String.eqb (ch_name ch) n) channels with
    | Some ch => Some (default 0 (ubc !! cid ch))
    | None => m !! n
    end.
Proof.
  revert m. induction channels as [|x l IH]; intros m Hnd; [done|].
  cbn in Hnd. apply NoDup_cons in Hnd as [Hx Hnd].
  cbn [foldl List.find]. rewrite IH by done.
  destruct (String.eqb (ch_name x) n) eqn:E.
  - apply String.eqb_eq in E. subst n.
    rewrite find_name_None by done. apply lookup_insert_eq.
  - apply String.eqb_neq in E.
    destruct (List.find _ l); [done|]. apply lookup_insert_ne. done.
Qed.

(** X17. The count a loop button shows is the number of users in the
    Mumble channel of that name. Let the channel names be distinct and
    the user map of the bot be the one _update_user_map builds. Then
    the ['user_counts'] of report() gives, for a channel name, what
    get_channel_user_count gives, and a poll that this bot answers
    sets the count of every loop of LOOPS to the number of users in
    the channel that has the loop's name, and to 0 when no channel has
    it. *)
Theorem window_shows_channel_users LOOPS channels users user_counts n :
  NoDup (map ch_name channels) ->
  n ∈ map name LOOPS ->
  let _users_by_channel := _update_user_map users in
  let shown :=
    match List.find (fun ch => String.eqb (ch_name ch) n) channels with
    | Some ch => users_in (cid ch) users
    | None => 0
    end in
  get_channel_user_count channels _users_by_channel n = shown /\
  default 0 (report_user_counts channels _users_by_channel !! n) = shown /\
  poll_bot LOOPS user_counts
    (Some (Some (report_user_counts channels _users_by_channel))) !! n
  = Some shown.
Proof.
  intros Hnd Hn ubc shown.
  assert (Hget : get_channel_user_count channels ubc n = shown).
  { unfold get_channel_user_count, shown.
    destruct (List.find _ channels) as [ch|]; [|done].
    apply (user_map_counts users (cid ch)). }
  assert (Hrep : default 0 (report_user_counts channels ubc !! n) = shown).
  { rewrite <- Hget. unfold report_user_counts, get_channel_user_count.
    rewrite report_lookup by done.
    destruct (List.find _ channels); done. }
  split; [done|]. split; [done|].
  rewrite poll_bot_lookup, decide_True by done. rewrite Hrep. done.
Qed.

Lemma wait_connected_Some connected tests slept k :
  wait_connected connected tests slept = Some k <->
  (slept <= k < slept + tests)%nat /\ connected k = true /\
  forall j, (slept <= j < k)%nat -> connected j = false.
Proof.
  revert slept. induction tests as [|tests IH]; intros slept; cbn.
  - split; [done|]. intros [? _]. lia.
  - destruct (connected slept) eqn:E.
    + split.
      * intros [= <-]. split; [lia|]. split; [done|]. intros j ?. lia.
      * intros (Hk & Hc & Hno). f_equal.
        destruct (decide (slept = k)) as [|Hne]; [done|].
        rewrite Hno in E by lia. done.
    + rewrite IH. split.
      * intros (Hk & Hc & Hno). split; [lia|]. split; [done|].
        intros j Hj. destruct (decide (j = slept)) as [->|]; [done|].
        apply Hno. lia.
      * intros (Hk & Hc & Hno).
        assert (k <> slept) by (intros ->; congruence).
        split; [lia|]. split; [done|]. intros j Hj. apply Hno. lia.
Qed.

Lemma wait_connected_None connected tests slept :
  wait_connected connected tests slept = None <->
  forall j, (slept <= j < slept + tests)%nat -> connected j = false.
Proof.
  revert slept. induction tests as [|tests IH]; intros slept; cbn.
  - split; [|done]. intros _ j ?. lia.
  - destruct (connected slept) eqn:E.
    + split; [done|]. intros H. rewrite H in E by lia. done.
    + rewrite IH. split.
      * intros H j Hj. destruct (decide (j = slept)) as [->|]; [done|].
        apply H. lia.
      * intros H j Hj. apply H. lia.
Qed.

(** X18. _connect_mumble gives up after twenty tests. The wait returns
    after [k] sleeps of 0.2 s exactly when [k] is below 20, the client
    is connected at the test that follows the k-th sleep, and it was
    not at any earlier test; it raises RuntimeError exactly when the
    client is connected at none of the twenty tests. *)
Theorem connect_wait_bounded connected :
  (forall k, _connect_mumble connected = Some k <->
     (k < 20)%nat /\ connected k = true /\
     forall j, (j < k)%nat -> connected j = false) /\
  (_connect_mumble connected = None <->
     forall j, (j < 20)%nat -> connected j = false).
Proof.
  unfold _connect_mumble. split.
  - intros k. rewrite wait_connected_Some. split.
    + intros (Hk & Hc & Hno). split; [lia|]. split; [done|].
      intros j Hj. apply Hno. lia.
    + intros (Hk & Hc & Hno). split; [lia|]. split; [done|].
      intros j Hj. apply Hno. lia.
  - rewrite wait_connected_None. split; intros H j Hj; apply H; lia.
Qed.

Lemma find_first (channels : list Channel) n :
  match List.find (fun ch => String.eqb (ch_name ch) n) channels with
  | Some ch =>
      exists before after,
        channels = before ++ ch :: after /\ ch_name ch = n /\
        Forall (fun x => ch_name x <> n) before
  | None => Forall (fun x => ch_name x <> n) channels
  end.
Proof.
  induction channels as [|x l IH]; cbn; [constructor|].
  destruct (String.eqb (ch_name x) n) eqn:E.
  - apply String.eqb_eq in E. exists [], l. split; [done|].
    split; [done|constructor].
  - apply String.eqb_neq in E. destruct (List.find _ l) as [ch|].
    + destruct IH as (before & after & -> & Hn & Hb).
      exists (x :: before), after. split; [done|]. split; [done|].
      constructor; done.
    + constructor; done.
Qed.

(** X19. _move_to_loop goes to the first channel of the loop's name,
    and to Root for no loop. The bot moves into a channel exactly when
    some channel has the target name, which is the loop's name, or
    Root when the loop is None or empty (as after leave()); it then
    moves into the first such channel. When no channel has that name
    it does not move at all. *)
Theorem move_to_loop_target channels loop :
  (forall c, _move_to_loop channels loop = Some c ->
     exists before ch after,
       channels = before ++ ch :: after /\ cid ch = c /\
       ch_name ch = target_of loop /\
       Forall (fun x => ch_name x <> target_of loop) before) /\
  (_move_to_loop channels loop = None <->
   Forall (fun x => ch_name x <> target_of loop) channels) /\
  _move_to_loop channels None = _move_to_loop channels (Some "Root").
Proof.
  assert (Ht : default "Root" (truthy_name loop) = target_of loop).
  { unfold truthy_name, target_of. destruct loop as [l|]; [|done].
    destruct (String.eqb l ""); done. }
  unfold _move_to_loop. rewrite Ht.
  pose proof (find_first channels (target_of loop)) as Hf.
  destruct (List.find _ channels) as [ch|] eqn:E; cbn.
  - split; [|split; [|done]].
    + intros c [= <-]. destruct Hf as (before & after & Hc & Hn & Hb).
      exists before, ch, after. done.
    + split; [done|]. intros Hall. exfalso.
      destruct Hf as (before & after & -> & Hn & _).
      apply Forall_app in Hall as [_ Hall].
      apply Forall_cons in Hall as [Hall _]. done.
  - split; [done|]. split; [|done]. split; [done|done].
Qed.

End MumbleFacts.

Lemma window_shows_channel_users_witness :
  let channels := [BotApi.mkChannel 0 "Root"; BotApi.mkChannel 5 "A"] in
  let users := [BotApi.mkUser "u1" (Some 5); BotApi.mkUser "u2" None;
                BotApi.mkUser "u3" (Some 5)] in
  BotApi.get_channel_user_count channels (BotApi._update_user_map users) "A"
    = 2 /\
  poll_bot demo_loops (init_user_counts demo_loops)
    (Some (Some (BotApi.report_user_counts channels
                   (BotApi._update_user_map users)))) !! "A"
  = Some 2.
Proof.
  intros channels users.
  assert (Hnd : NoDup (map BotApi.ch_name channels))
    by (apply (bool_decide_unpack _); vm_compute; exact I).
  assert (Hn : "A" ∈ map name demo_loops) by (vm_compute; left).
  destruct (MumbleFacts.window_shows_channel_users demo_loops channels users
              (init_user_counts demo_loops) "A" Hnd Hn) as (H1 & _ & H3).
  split; [exact H1|exact H3].
Defined.

(** ** Rounding to binary32 never goes beyond an integer bound *)

Module RoundFacts.
Import BotServer BotSpec BotApi FloatWords VolumeFacts.

Lemma iter_pos_inv {A} (f : A -> A) (I : Z -> A -> Prop) :
  (forall k x, 0 < k -> I k x -> I (k - 1) (f x)) ->
  forall p k x, Zpos p <= k -> I k x -> I (k - Zpos p) (iter_pos f p x).
Proof.
  intros Hstep. induction p as [p IH|p IH|]; intros k x Hk HI; simpl iter_pos.
  - replace (k - Zpos p~1) with (k - 1 - Zpos p - Zpos p) by lia.
    apply IH; [lia|]. apply IH; [lia|]. apply Hstep; [lia|done].
  - replace (k - Zpos p~0) with (k - Zpos p - Zpos p) by lia.
    apply IH; [lia|]. apply IH; [lia|done].
  - apply Hstep; [lia|done].
Qed.

(** Shifting out zeros only is exact. *)
Lemma shr_exact m e n q :
  0 <= m -> 0 < n -> m = q * 2 ^ n ->
  loc_of_shr_record (fst (shr (shr_record_of_loc m loc_Exact) e n)) = loc_Exact.
Proof.
  intros Hm Hn Hq. destruct n as [|p|p]; [lia| |lia]. cbn [shr fst].
  pose proof (iter_pos_inv shr_1
    (fun k mrs => 0 <= shr_m mrs /\ shr_r mrs = false /\ shr_s mrs = false /\
                  exists q, shr_m mrs = q * 2 ^ k)) as Hinv.
  cbn beta in Hinv.
  destruct (Hinv) with (p := p) (k := Zpos p)
                       (x := shr_record_of_loc m loc_Exact)
    as (_ & Hr & Hs & _); [|lia| |].
  - clear. intros k [mm r s] Hk (H0 & Hr & Hs & q & Hq).
    cbn [shr_m shr_r shr_s] in *. subst r s.
    assert (H2 : 2 ^ k = 2 * 2 ^ (k - 1)).
    { rewrite <- Z.pow_succ_r by lia. f_equal. lia. }
    rewrite H2 in Hq. set (t := 2 ^ (k - 1)) in *. clearbody t.
    destruct mm as [|[pp|pp|]|pp]; cbn; try lia.
    + split; [done|]. split; [done|]. split; [done|]. exists 0. lia.
    + split; [lia|]. split; [done|]. split; [done|]. exists q. lia.
  - cbn. split; [done|]. split; [done|]. split; [done|]. eauto.
  - destruct (iter_pos shr_1 p (shr_record_of_loc m loc_Exact)) as [mm r s].
    cbn in Hr, Hs. subst. done.
Qed.

(** [below] with the exponents moved by any [k] that is large enough. *)
Lemma below_scaled m e N k :
  0 <= k -> 0 <= e + k -> (below m e N <-> m * 2 ^ (e + k) <= N * 2 ^ k).
Proof.
  intros Hk Hek. unfold below.
  destruct (Z_lt_le_dec e 0) as [He|He].
  - rewrite Z.max_r, Z.max_l by lia. rewrite Z.pow_0_r, Z.mul_1_r.
    replace k with (- e + (e + k)) at 2 by lia.
    rewrite (Z.pow_add_r 2 (- e) (e + k)), Z.mul_assoc by lia.
    apply Z.mul_le_mono_pos_r. apply Z.pow_pos_nonneg; lia.
  - rewrite Z.max_l, Z.max_r by lia. rewrite Z.pow_0_r, Z.mul_1_r.
    rewrite Z.pow_add_r, Z.mul_assoc by lia.
    apply Z.mul_le_mono_pos_r. apply Z.pow_pos_nonneg; lia.
Qed.

Lemma below_mono m m' e N : 0 <= m' <= m -> below m e N -> below m' e N.
Proof.
  unfold below. intros Hm H.
  assert (0 < 2 ^ Z.max e 0) by (apply Z.pow_pos_nonneg; lia). nia.
Qed.

Lemma Zdigits2_pow m : 0 < m -> 2 ^ (Zdigits2 m - 1) <= m.
Proof.
  intros Hm. destruct m as [|p|p]; [lia| |lia].
  rewrite Zdigits2_log2. replace (Z.log2 (Zpos p) + 1 - 1) with (Z.log2 (Zpos p))
    by lia. apply Z.log2_spec. lia.
Qed.

(** A positive number below [N < 2^24] has its digits and exponent
    bounded. *)
Lemma below_digits m e N :
  0 < m -> 0 <= N < 2 ^ 24 -> below m e N -> Zdigits2 m + e <= 24.
Proof.
  intros Hm HN Hb.
  pose proof (Zdigits2_pow m Hm) as Hd.
  pose proof (Zdigits2_nonneg m) as Hd0.
  assert (Hd1 : 1 <= Zdigits2 m) by (destruct m; simpl in *; lia).
  set (k := Z.max 0 (- e)).
  apply (below_scaled m e N k) in Hb; [|lia|lia].
  destruct (Z_le_gt_dec (Zdigits2 m + e) 24) as [|Hgt]; [done|exfalso].
  assert (H1 : 2 ^ (Zdigits2 m - 1) * 2 ^ (e + k) <= N * 2 ^ k).
  { etransitivity; [|exact Hb]. apply Z.mul_le_mono_nonneg_r; [|done].
    apply Z.pow_nonneg. lia. }
  rewrite <- Z.pow_add_r in H1 by lia.
  assert (H2 : 2 ^ (24 + k) <= 2 ^ (Zdigits2 m - 1 + (e + k)))
    by (apply Z.pow_le_mono_r; lia).
  rewrite Z.pow_add_r in H2 by lia.
  assert (0 < 2 ^ k) by (apply Z.pow_pos_nonneg; lia). nia.
Qed.

(** One shift of the rounding, then the rounding of the mantissa: the
    result stays below an integer that the exact value does not
    exceed. *)
Lemma stage_below m e N :
  0 <= m -> 0 <= N < 2 ^ 24 -> below m e N ->
  below (round_nearest_even
           (shr_m (fst (shr_fexp 24 128 m e loc_Exact)))
           (loc_of_shr_record (fst (shr_fexp 24 128 m e loc_Exact))))
        (snd (shr_fexp 24 128 m e loc_Exact)) N.
Proof.
  intros Hm HN Hb.
  destruct (shr_fexp_spec m e loc_Exact Hm) as [Hm1 He1].
  rewrite Hm1, He1. clear Hm1 He1.
  set (n := fexp32 (Zdigits2 m + e) - e).
  destruct (Z.ltb_spec 0 n) as [Hn|Hn].
  - (* a shift by [n] places *)
    assert (He' : e + n <= 0).
    { destruct (Z.eq_dec m 0) as [->|Hm0].
      - unfold n, fexp, emin in *. simpl Zdigits2 in *. lia.
      - pose proof (below_digits m e N ltac:(lia) HN Hb).
        unfold n, fexp, emin in *. lia. }
    set (K := N * 2 ^ (- (e + n))).
    assert (HmK : m <= K * 2 ^ n).
    { apply (below_scaled m e N (- e)) in Hb; [|lia|lia].
      rewrite Z.add_opp_diag_r, Z.pow_0_r, Z.mul_1_r in Hb.
      unfold K. rewrite <- Z.mul_assoc, <- Z.pow_add_r by lia.
      replace (- (e + n) + n) with (- e) by lia. done. }
    assert (Hgoal : forall r, r <= K -> below r (e + n) N).
    { intros r Hr. unfold below. rewrite Z.max_r, Z.max_l by lia.
      rewrite Z.pow_0_r, Z.mul_1_r. done. }
    apply Hgoal.
    assert (H2n : 0 < 2 ^ n) by (apply Z.pow_pos_nonneg; lia).
    destruct (Z.eq_dec m (K * 2 ^ n)) as [Heq|Hne].
    + unfold shr_fexp. fold n.
      rewrite (shr_exact m e n K Hm Hn Heq). cbn [round_nearest_even].
      rewrite Z.shiftr_div_pow2 by lia. rewrite Heq, Z.div_mul by lia. lia.
    + pose proof (round_nearest_even_bound (Z.shiftr m n)
                    (loc_of_shr_record (fst (shr_fexp 24 128 m e loc_Exact)))).
      assert (Z.shiftr m n < K).
      { rewrite Z.shiftr_div_pow2 by lia.
        apply Z.div_lt_upper_bound; [done|]. lia. }
      lia.
  - (* no shift *)
    assert (Hl : loc_of_shr_record (fst (shr_fexp 24 128 m e loc_Exact))
                 = loc_Exact).
    { unfold shr_fexp. fold n. unfold shr. destruct n; [done|lia|done]. }
    rewrite Hl. done.
Qed.

(** The rounding of an exact value that is at most [N]: zero or a
    finite number, of the same sign, that is at most [N]. *)
Lemma round_aux_within sx P E N :
  0 <= P -> 0 <= N < 2 ^ 24 -> below P E N ->
  within (binary_round_aux 24 128 sx P E loc_Exact) sx N.
Proof.
  intros HP HN Hb. unfold binary_round_aux.
  pose proof (stage_below P E N HP HN Hb) as H1.
  pose proof (shr_fexp_bound P E loc_Exact HP) as Hb1.
  destruct (shr_fexp 24 128 P E loc_Exact) as [mrs' e'].
  cbn [fst snd] in *.
  set (mr := round_nearest_even (shr_m mrs') (loc_of_shr_record mrs')) in *.
  pose proof (round_nearest_even_bound (shr_m mrs') (loc_of_shr_record mrs'))
    as Hr. fold mr in Hr.
  assert (Hmr : 0 <= mr) by lia.
  pose proof (stage_below mr e' N Hmr HN H1) as H2.
  pose proof (shr_fexp_bound mr e' loc_Exact Hmr) as Hb2.
  destruct (shr_fexp 24 128 mr e' loc_Exact) as [mrs'' e''].
  cbn [fst snd] in *.
  pose proof (round_nearest_even_bound (shr_m mrs'') (loc_of_shr_record mrs''))
    as Hr2.
  apply (below_mono _ (shr_m mrs'')) in H2; [|lia].
  destruct (shr_m mrs'') as [|m|m] eqn:Em; [done| |lia].
  pose proof (below_digits (Zpos m) e'' N ltac:(lia) HN H2) as Hd.
  assert (1 <= Zdigits2 (Zpos m)) by (simpl; lia).
  assert (He : (e'' <=? 128 - 24) = true) by (apply Z.leb_le; lia).
  rewrite He. done.
Qed.

(** The integer part of such a number. *)
Lemma trunc_within x sx N :
  within x sx N -> 0 <= N ->
  exists z, trunc_float x = Some z /\
            (if sx then - N <= z <= 0 else 0 <= z <= N).
Proof.
  intros Hx HN. destruct x as [s|s| |s m e]; cbn in Hx; [|done|done|].
  { exists 0. split; [done|]. destruct sx; lia. }
  destruct Hx as [-> Hb]. unfold below in Hb.
  assert (Ha : exists a, trunc_float (S754_finite sx m e)
                         = Some (if sx then - a else a) /\ 0 <= a <= N).
  { destruct e as [|p|p]; cbn [trunc_float].
    - eexists. split; [reflexivity|]. rewrite Z.shiftl_0_r.
      change (Zpos m * 1 <= N * 1) in Hb. lia.
    - eexists. split; [reflexivity|]. rewrite Z.shiftl_mul_pow2 by lia.
      change (Zpos m * 2 ^ Zpos p <= N * 1) in Hb.
      assert (0 < 2 ^ Zpos p) by (apply Z.pow_pos_nonneg; lia). nia.
    - eexists. split; [reflexivity|]. rewrite Z.shiftr_div_pow2 by lia.
      change (Zpos m * 1 <= N * 2 ^ Zpos p) in Hb.
      assert (0 < 2 ^ Zpos p) by (apply Z.pow_pos_nonneg; lia).
      split; [apply Z.div_pos; lia|].
      apply Z.div_le_upper_bound; [done|]. lia. }
  destruct Ha as (a & -> & Ha). eexists. split; [reflexivity|].
  destruct sx; lia.
Qed.

(** *** The result of the rounding is a binary32 number *)

Lemma digits_shiftr m n :
  0 <= m -> 0 <= n -> Zdigits2 (Z.shiftr m n) = Z.max 0 (Zdigits2 m - n).
Proof.
  intros Hm Hn. destruct (Z.eq_dec m 0) as [->|Hm0].
  { rewrite Z.shiftr_0_l. simpl. lia. }
  assert (H2n : 0 < 2 ^ n) by (apply Z.pow_pos_nonneg; lia).
  pose proof (Z.shiftr_nonneg m n) as Hs.
  destruct (Z.shiftr m n) as [|q|q] eqn:E; [| |lia].
  - rewrite Z.shiftr_div_pow2 in E by done.
    apply Z.div_small_iff in E; [|lia].
    assert (Zdigits2 m <= n) by (apply Zdigits2_le; lia).
    simpl. lia.
  - rewrite <- E. destruct m as [|p|p]; [done| |lia].
    assert (Hq : Z.shiftr (Zpos p) n = Zpos q) by done.
    rewrite Hq, !Zdigits2_log2, <- Hq, Z.log2_shiftr by lia.
    assert (n <= Z.log2 (Zpos p)).
    { apply Z.log2_le_pow2; [lia|].
      rewrite Z.shiftr_div_pow2 in Hq by done.
      assert (1 <= Zpos p / 2 ^ n) by lia.
      pose proof (Z.mul_div_le (Zpos p) (2 ^ n) H2n). nia. }
    lia.
Qed.

Lemma digits_mono a b : 0 <= a <= b -> Zdigits2 a <= Zdigits2 b.
Proof.
  intros H. apply Zdigits2_le; [lia|apply Zdigits2_nonneg|].
  pose proof (Zdigits2_gt b). lia.
Qed.

Lemma digits_succ a : 0 <= a -> Zdigits2 (a + 1) <= Zdigits2 a + 1.
Proof.
  intros H. pose proof (Zdigits2_nonneg a).
  apply Zdigits2_le; [lia|lia|].
  pose proof (Zdigits2_gt a H). rewrite Z.pow_add_r by lia. lia.
Qed.

(** One shift of a mantissa that has too many digits for its
    exponent. *)
Lemma shr_fexp_stage m e l :
  0 < m -> e <= fexp32 (Zdigits2 m + e) ->
  snd (shr_fexp 24 128 m e l) = fexp32 (Zdigits2 m + e) /\
  0 <= shr_m (fst (shr_fexp 24 128 m e l)) /\
  (0 < shr_m (fst (shr_fexp 24 128 m e l)) ->
   Zdigits2 (shr_m (fst (shr_fexp 24 128 m e l)))
     + snd (shr_fexp 24 128 m e l) = Zdigits2 m + e) /\
  (shr_m (fst (shr_fexp 24 128 m e l)) = 0 ->
   snd (shr_fexp 24 128 m e l) = -149).
Proof.
  intros Hm He.
  destruct (shr_fexp_spec m e l ltac:(lia)) as [-> ->].
  set (n := fexp32 (Zdigits2 m + e) - e).
  assert (Hn : 0 <= n) by (unfold n; lia).
  pose proof (digits_shiftr m n ltac:(lia) Hn) as Hd.
  pose proof (Z.shiftr_nonneg m n) as Hs.
  assert (Hd1 : 1 <= Zdigits2 m) by (destruct m; simpl; lia).
  destruct (Z.ltb_spec 0 n) as [Hpos|Hzero].
  - split; [unfold n; lia|]. split; [lia|]. split.
    + intros Hm'.
      assert (1 <= Zdigits2 (Z.shiftr m n))
        by (destruct (Z.shiftr m n); simpl; lia).
      unfold n in *. lia.
    + intros Hm'. rewrite Hm' in Hd. simpl in Hd.
      unfold n, fexp, emin in *. lia.
  - assert (n = 0) by lia. split; [unfold n in *; lia|].
    split; [lia|]. split; [done|lia].
Qed.

Lemma round_aux_valid sx P E lx :
  0 < P -> E <= fexp32 (Zdigits2 P + E) ->
  valid_binary 24 128 (binary_round_aux 24 128 sx P E lx) = true.
Proof.
  intros HP HE. unfold binary_round_aux.
  destruct (shr_fexp_stage P E lx HP HE) as (He1 & Hm1 & Hd1 & Hz1).
  destruct (shr_fexp 24 128 P E lx) as [mrs' e']. cbn [fst snd] in *.
  set (mr := round_nearest_even (shr_m mrs') (loc_of_shr_record mrs')).
  pose proof (round_nearest_even_bound (shr_m mrs') (loc_of_shr_record mrs'))
    as Hr. fold mr in Hr.
  destruct (Z.eq_dec mr 0) as [Hmr0|Hmr0].
  { rewrite Hmr0.
    destruct (shr_fexp_spec 0 e' loc_Exact ltac:(lia)) as [Hm2 _].
    destruct (shr_fexp 24 128 0 e' loc_Exact) as [mrs'' e''].
    cbn [fst] in Hm2. rewrite Hm2, Z.shiftr_0_l. destruct (0 <? _); done. }
  assert (Hmr : 0 < mr) by lia.
  assert (He2 : e' <= fexp32 (Zdigits2 mr + e')).
  { destruct (Z.eq_dec (shr_m mrs') 0) as [H0|H0].
    - rewrite (Hz1 H0). unfold fexp, emin. lia.
    - pose proof (digits_mono (shr_m mrs') mr ltac:(lia)).
      specialize (Hd1 ltac:(lia)). unfold fexp, emin in *. lia. }
  destruct (shr_fexp_stage mr e' loc_Exact Hmr He2) as (He3 & Hm3 & Hd3 & _).
  destruct (shr_fexp 24 128 mr e' loc_Exact) as [mrs'' e''].
  cbn [fst snd] in *.
  destruct (shr_m mrs'') as [|m|m] eqn:Em; [done| |lia].
  destruct (e'' <=? 128 - 24) eqn:El; [|done].
  cbn [valid_binary]. unfold bounded. rewrite El, andb_true_r.
  unfold canonical_mantissa. apply Z.eqb_eq.
  change (Zpos (digits2_pos m)) with (Zdigits2 (Zpos m)).
  rewrite (Hd3 ltac:(lia)). lia.
Qed.

Lemma pos_iter_xO m d : Zpos (Pos.iter xO m d) = Zpos m * 2 ^ Zpos d.
Proof.
  induction d as [|d IH] using Pos.peano_ind.
  - simpl. lia.
  - rewrite Pos.iter_succ, Pos2Z.inj_xO, IH, Pos2Z.inj_succ, Z.pow_succ_r
      by lia. lia.
Qed.

Lemma shl_align_spec mx ex t :
  snd (shl_align mx ex t) <= t /\
  snd (shl_align mx ex t) <= ex /\
  (t <= ex -> snd (shl_align mx ex t) = t) /\
  Zpos (fst (shl_align mx ex t))
    = Zpos mx * 2 ^ (ex - snd (shl_align mx ex t)) /\
  Zdigits2 (Zpos (fst (shl_align mx ex t))) + snd (shl_align mx ex t)
    = Zdigits2 (Zpos mx) + ex.
Proof.
  unfold shl_align. destruct (t - ex) as [|d|d] eqn:E; cbn [fst snd].
  - rewrite Z.sub_diag. simpl (2 ^ 0). lia.
  - rewrite Z.sub_diag. simpl (2 ^ 0). lia.
  - split; [lia|]. split; [lia|]. split; [done|]. split.
    + rewrite pos_iter_xO. do 2 f_equal. lia.
    + unfold Zdigits2. rewrite digits2_iter_xO. lia.
Qed.

Lemma binary_round_valid sx mx ex :
  valid_binary 24 128 (binary_round 24 128 sx mx ex) = true.
Proof.
  unfold binary_round.
  pose proof (shl_align_spec mx ex (fexp32 (Zpos (digits2_pos mx) + ex)))
    as (H1 & _ & _ & _ & H4).
  destruct (shl_align mx ex _) as [mz ez]. cbn [fst snd] in *.
  apply round_aux_valid; [lia|]. rewrite H4. exact H1.
Qed.

Lemma binary_round_within sx mx ex N :
  0 <= N < 2 ^ 24 -> below (Zpos mx) ex N ->
  within (binary_round 24 128 sx mx ex) sx N.
Proof.
  intros HN Hb. unfold binary_round.
  pose proof (shl_align_spec mx ex (fexp32 (Zpos (digits2_pos mx) + ex)))
    as (_ & H2 & _ & H3 & _).
  destruct (shl_align mx ex _) as [mz ez]. cbn [fst snd] in *.
  apply round_aux_within; [lia|done|].
  set (k := Z.max 0 (- ez)).
  apply (below_scaled _ ez N k); [lia|lia|].
  apply (below_scaled _ ex N k) in Hb; [|lia|lia].
  rewrite H3, <- Z.mul_assoc, <- Z.pow_add_r by lia.
  replace (ex - ez + (ez + k)) with (ex + k) by lia. done.
Qed.

(** *** Exact cases *)

(** A multiple of a power of two whose quotient is a binary32
    mantissa for the exponent is not changed by the rounding. *)
Lemma round_exact sx m e n :
  0 <= n -> fexp32 (Zdigits2 (Zpos m) + e) = e -> e <= 104 ->
  binary_round_aux 24 128 sx (Zpos m * 2 ^ n) (e - n) loc_Exact
  = S754_finite sx m e.
Proof.
  intros Hn Hc He.
  assert (H2n : 0 < 2 ^ n) by (apply Z.pow_pos_nonneg; lia).
  assert (HP : 0 < Zpos m * 2 ^ n) by lia.
  assert (HdP : Zdigits2 (Zpos m * 2 ^ n) = Zdigits2 (Zpos m) + n).
  { destruct (Zpos m * 2 ^ n) as [|q|q] eqn:E; [lia| |lia].
    rewrite !Zdigits2_log2, <- E, Z.log2_mul_pow2 by lia. lia. }
  assert (Hstage1 :
    shr_m (fst (shr_fexp 24 128 (Zpos m * 2 ^ n) (e - n) loc_Exact)) = Zpos m /\
    snd (shr_fexp 24 128 (Zpos m * 2 ^ n) (e - n) loc_Exact) = e /\
    loc_of_shr_record (fst (shr_fexp 24 128 (Zpos m * 2 ^ n) (e - n) loc_Exact))
      = loc_Exact).
  { destruct (shr_fexp_spec (Zpos m * 2 ^ n) (e - n) loc_Exact ltac:(lia))
      as [H1 H2].
    rewrite H1, H2. rewrite HdP.
    replace (Zdigits2 (Zpos m) + n + (e - n)) with (Zdigits2 (Zpos m) + e)
      by lia.
    rewrite Hc. replace (e - (e - n)) with n by lia.
    destruct (Z.ltb_spec 0 n) as [Hpos|Hzero].
    - split; [|split; [lia|]].
      + rewrite Z.shiftr_div_pow2, Z.div_mul by lia. done.
      + unfold shr_fexp. rewrite HdP.
        replace (fexp32 (Zdigits2 (Zpos m) + n + (e - n)) - (e - n)) with n
          by (replace (Zdigits2 (Zpos m) + n + (e - n))
                with (Zdigits2 (Zpos m) + e) by lia; lia).
        apply (shr_exact _ _ n (Zpos m)); [lia|done|done].
    - assert (n = 0) as -> by lia. split; [simpl (2 ^ 0); lia|].
      split; [lia|]. unfold shr_fexp. rewrite HdP.
      replace (fexp32 (Zdigits2 (Zpos m) + 0 + (e - 0)) - (e - 0)) with 0
        by (replace (Zdigits2 (Zpos m) + 0 + (e - 0))
              with (Zdigits2 (Zpos m) + e) by lia; lia).
      done. }
  unfold binary_round_aux.
  destruct (shr_fexp 24 128 (Zpos m * 2 ^ n) (e - n) loc_Exact) as [mrs' e'].
  cbn [fst snd] in Hstage1. destruct Hstage1 as (-> & -> & ->).
  cbn [round_nearest_even].
  assert (Hstage2 : shr_fexp 24 128 (Zpos m) e loc_Exact
                    = (Build_shr_record (Zpos m) false false, e)).
  { unfold shr_fexp. rewrite Hc, Z.sub_diag. done. }
  rewrite Hstage2. cbn [shr_m].
  assert (Hle : (e <=? 128 - 24) = true) by (apply Z.leb_le; lia).
  rewrite Hle. done.
Qed.

(** *** Products *)

Lemma below_mul m1 e1 N1 m2 e2 N2 :
  0 <= m1 -> 0 <= m2 -> 0 <= N1 -> 0 <= N2 ->
  below m1 e1 N1 -> below m2 e2 N2 ->
  below (m1 * m2) (e1 + e2) (N1 * N2).
Proof.
  intros Hm1 Hm2 HN1 HN2 H1 H2.
  set (k1 := Z.max 0 (- e1)). set (k2 := Z.max 0 (- e2)).
  apply (below_scaled m1 e1 N1 k1) in H1; [|lia|lia].
  apply (below_scaled m2 e2 N2 k2) in H2; [|lia|lia].
  apply (below_scaled _ _ _ (k1 + k2)); [lia|lia|].
  replace (e1 + e2 + (k1 + k2)) with ((e1 + k1) + (e2 + k2)) by lia.
  rewrite (Z.pow_add_r 2 (e1 + k1) (e2 + k2)), (Z.pow_add_r 2 k1 k2) by lia.
  assert (0 <= 2 ^ (e1 + k1)) by (apply Z.pow_nonneg; lia).
  assert (0 <= 2 ^ (e2 + k2)) by (apply Z.pow_nonneg; lia).
  assert (0 <= 2 ^ k1) by (apply Z.pow_nonneg; lia).
  assert (0 <= 2 ^ k2) by (apply Z.pow_nonneg; lia).
  set (a := 2 ^ (e1 + k1)) in *. set (b := 2 ^ (e2 + k2)) in *.
  set (c := 2 ^ k1) in *. set (d := 2 ^ k2) in *.
  assert (Hg : (m1 * a) * (m2 * b) <= (N1 * c) * (N2 * d)).
  { apply Z.mul_le_mono_nonneg;
      [apply Z.mul_nonneg_nonneg; lia|exact H1
      |apply Z.mul_nonneg_nonneg; lia|exact H2]. }
  eapply Z.le_trans; [|eapply Z.le_trans; [exact Hg|]];
    apply Z.eq_le_incl; ring.
Qed.

(** The binary32 product of two numbers of bounded magnitude. *)
Lemma mul_within x y sx sy Nx Ny :
  within x sx Nx -> within y sy Ny ->
  0 <= Nx -> 0 <= Ny -> Nx * Ny < 2 ^ 24 ->
  within (f32_mul x y) (xorb sx sy) (Nx * Ny).
Proof.
  intros Hx Hy HNx HNy HN.
  destruct x as [s1|s1| |s1 m1 e1], y as [s2|s2| |s2 m2 e2]; cbn in Hx, Hy;
    try done.
  - subst. done.
  - destruct Hy as [-> _]. subst. done.
  - destruct Hx as [-> _]. subst. done.
  - destruct Hx as [-> Hx], Hy as [-> Hy]. unfold f32_mul. cbn [SFmul].
    apply round_aux_within; [lia|lia|].
    rewrite Pos2Z.inj_mul. apply below_mul; done || lia.
Qed.

Lemma mul_valid x y :
  valid_binary 24 128 x = true -> valid_binary 24 128 y = true ->
  valid_binary 24 128 (f32_mul x y) = true.
Proof.
  intros Hx Hy.
  destruct x as [s1|s1| |s1 m1 e1], y as [s2|s2| |s2 m2 e2]; try done.
  unfold f32_mul. cbn [SFmul]. cbn [valid_binary] in Hx, Hy.
  unfold bounded in Hx, Hy.
  apply andb_true_iff in Hx as [Hx _]. apply andb_true_iff in Hy as [Hy _].
  unfold canonical_mantissa in Hx, Hy.
  apply Z.eqb_eq in Hx. apply Z.eqb_eq in Hy.
  change (Zpos (digits2_pos m1)) with (Zdigits2 (Zpos m1)) in Hx.
  change (Zpos (digits2_pos m2)) with (Zdigits2 (Zpos m2)) in Hy.
  apply round_aux_valid; [lia|].
  pose proof (Zdigits2_pow (Zpos m1) ltac:(lia)) as H1.
  pose proof (Zdigits2_pow (Zpos m2) ltac:(lia)) as H2.
  assert (Hd1 : 1 <= Zdigits2 (Zpos m1)) by (simpl; lia).
  assert (Hd2 : 1 <= Zdigits2 (Zpos m2)) by (simpl; lia).
  assert (Hd : Zdigits2 (Zpos m1) + Zdigits2 (Zpos m2) - 1
               <= Zdigits2 (Zpos (m1 * m2))).
  { destruct (Z_le_gt_dec (Zdigits2 (Zpos m1) + Zdigits2 (Zpos m2) - 1)
                (Zdigits2 (Zpos (m1 * m2)))) as [|Hgt]; [done|exfalso].
    assert (Hlt : Zpos (m1 * m2)
                  < 2 ^ (Zdigits2 (Zpos m1) + Zdigits2 (Zpos m2) - 2))
      by (apply Zdigits2_le; lia).
    replace (Zdigits2 (Zpos m1) + Zdigits2 (Zpos m2) - 2)
      with ((Zdigits2 (Zpos m1) - 1) + (Zdigits2 (Zpos m2) - 1)) in Hlt by lia.
    rewrite Z.pow_add_r, Pos2Z.inj_mul in Hlt by lia.
    assert (0 < 2 ^ (Zdigits2 (Zpos m1) - 1)) by (apply Z.pow_pos_nonneg; lia).
    assert (0 < 2 ^ (Zdigits2 (Zpos m2) - 1)) by (apply Z.pow_pos_nonneg; lia).
    nia. }
  unfold fexp, emin in *. lia.
Qed.

End RoundFacts.

(** ** The microphone block *)

Module MicFacts.
Import BotServer BotSpec BotApi FloatWords VolumeFacts RoundFacts.

Lemma f32_one_eq : f32_one = S754_finite false 8388608 (-23).
Proof. reflexivity. Qed.

Lemma f32_minus_one_eq : f32_minus_one = S754_finite true 8388608 (-23).
Proof. reflexivity. Qed.

Lemma canonical_digits m e :
  canonical_mantissa 24 128 m e = true ->
  fexp32 (Zdigits2 (Zpos m) + e) = e /\ Zpos m < 2 ^ 24.
Proof.
  unfold canonical_mantissa. intros Hc. apply Z.eqb_eq in Hc.
  change (Zpos (digits2_pos m)) with (Zdigits2 (Zpos m)) in Hc.
  split; [done|]. apply Zdigits2_le; [lia|lia|].
  unfold fexp, emin in Hc. lia.
Qed.

(** A binary32 number between -1.0 and 1.0 has magnitude at most 1. *)
Lemma in_range_below s m e :
  valid_binary 24 128 (S754_finite s m e) = true ->
  in_range32 (S754_finite s m e) = true ->
  below (Zpos m) e 1.
Proof.
  intros Hv Hr. cbn [valid_binary] in Hv. unfold bounded in Hv.
  apply andb_true_iff in Hv as [Hc _].
  apply canonical_digits in Hc as [_ Hm].
  assert (He : e < -23 \/ (e = -23 /\ Zpos m <= 8388608)).
  { unfold in_range32 in Hr. rewrite f32_one_eq, f32_minus_one_eq in Hr.
    apply andb_true_iff in Hr as [Hlo Hhi]. destruct s.
    - clear Hhi. revert Hlo. unfold SFleb. cbn [SFcompare].
      destruct (Z.compare_spec (-23) e) as [<-|Hlt|Hgt]; [|done|lia].
      intros H. right. split; [done|]. apply pos_compare_le.
      rewrite <- (Pos.compare_cont_antisym _ _ Eq). cbn [CompOpp] in *.
      destruct (Pos.compare_cont Eq 8388608 m); done.
    - clear Hlo. revert Hhi. unfold SFleb. cbn [SFcompare].
      destruct (Z.compare_spec e (-23)) as [->|Hlt|Hgt]; [|lia|done].
      intros H. right. split; [done|]. apply pos_compare_le.
      destruct (Pos.compare_cont Eq m 8388608); done. }
  apply (below_scaled (Zpos m) e 1 (- e)); [lia|lia|].
  rewrite Z.add_opp_diag_r, Z.pow_0_r, Z.mul_1_r, Z.mul_1_l.
  destruct He as [He|[-> He]].
  - assert (2 ^ 24 <= 2 ^ (- e)) by (apply Z.pow_le_mono_r; lia). lia.
  - change (2 ^ (- -23)) with 8388608. done.
Qed.

Lemma astype_in_range x z :
  trunc_float x = Some z -> INT16_MIN <= z <= INT16_MAX ->
  astype_int16 x = Some z.
Proof.
  intros Ht Hz. unfold astype_int16. rewrite Ht.
  destruct (Z.leb_spec INT16_MIN z), (Z.leb_spec z INT16_MAX); [done|lia..].
Qed.

Lemma mic_sample_in_range x :
  valid_binary 24 128 x = true -> in_range32 x = true ->
  exists z, mic_sample x = Some z /\ -32767 <= z <= 32767 /\
            (if sign_of x then z <= 0 else 0 <= z).
Proof.
  intros Hv Hr. unfold mic_sample. rewrite f32_hi.
  destruct x as [s|[]| |s m e]; [|done..|].
  { exists 0. split; [done|]. split; [lia|]. cbn. destruct s; lia. }
  pose proof (in_range_below s m e Hv Hr) as Hb.
  unfold f32_mul. cbn [SFmul sign_of].
  assert (Hs : xorb s false = s) by (destruct s; done). rewrite Hs.
  assert (HP : below (Zpos (m * 16776704)) (e + -9) 32767).
  { assert (He : e <= 0).
    { destruct (Z_le_gt_dec e 0) as [|Hgt]; [done|exfalso].
      unfold below in Hb. rewrite Z.max_l, Z.max_r in Hb by lia.
      assert (2 ^ 1 <= 2 ^ e) by (apply Z.pow_le_mono_r; lia).
      change (2 ^ 1) with 2 in *. change (2 ^ 0) with 1 in Hb. lia. }
    apply (below_scaled (Zpos m) e 1 (- e)) in Hb; [|lia|lia].
    rewrite Z.add_opp_diag_r, Z.pow_0_r, Z.mul_1_r, Z.mul_1_l in Hb.
    apply (below_scaled _ (e + -9) 32767 (- (e + -9))); [lia|lia|].
    rewrite Z.add_opp_diag_r, Z.pow_0_r, Z.mul_1_r.
    replace (- (e + -9)) with (- e + 9) by lia.
    rewrite Z.pow_add_r by lia. change (2 ^ 9) with 512.
    rewrite Pos2Z.inj_mul. lia. }
  pose proof (round_aux_within s (Zpos (m * 16776704)) (e + -9) 32767
                ltac:(lia) ltac:(lia) HP) as Hw.
  destruct (trunc_within _ _ _ Hw ltac:(lia)) as (z & Hz & Hs').
  exists z. split.
  - apply astype_in_range; [done|]. unfold INT16_MIN, INT16_MAX.
    destruct s; lia.
  - destruct s; lia.
Qed.

(** X20. A block of samples between -1.0 and 1.0 is always converted.
    For float32 samples that are numbers between -1.0 and 1.0, the
    conversion [(indata[:,0] * 32767).astype(np.int16)] of
    _mic_callback is defined for every sample: it gives as many int16
    samples, each between -32767 and 32767 (never -32768) and never of
    the opposite sign, and the block is handled by the rest of the
    callback. *)
Theorem mic_block_converts t indata b :
  Forall (fun x => valid_binary 24 128 x = true /\ in_range32 x = true)
         indata ->
  exists pcm,
    mic_pcm indata = Some pcm /\
    Forall2 (fun x z => mic_sample x = Some z /\ -32767 <= z <= 32767 /\
                        (if sign_of x then z <= 0 else 0 <= z))
            indata pcm /\
    mic_block t indata b
    = Some (match indata with [] => b | _ => _mic_callback t pcm b end).
Proof.
  intros Hall.
  assert (Hpcm : exists pcm,
    mic_pcm indata = Some pcm /\
    Forall2 (fun x z => mic_sample x = Some z /\ -32767 <= z <= 32767 /\
                        (if sign_of x then z <= 0 else 0 <= z))
            indata pcm).
  { induction Hall as [|x l [Hv Hr] _ IH].
    - exists []. split; [done|constructor].
    - destruct IH as (pcm & Hp & Hf).
      destruct (mic_sample_in_range x Hv Hr) as (z & Hz & Hzr).
      exists (z :: pcm). cbn [mic_pcm]. rewrite Hz, Hp.
      split; [done|]. constructor; done. }
  destruct Hpcm as (pcm & Hp & Hf). exists pcm.
  split; [done|]. split; [done|].
  unfold mic_block. rewrite Hp. destruct indata; done.
Qed.

End MicFacts.

Lemma mic_block_converts_witness :
  exists pcm,
    BotApi.mic_pcm [FloatWords.f32_one; S754_zero true;
                    FloatWords.f32_minus_one] = Some pcm /\
    Forall2 (fun x z => BotApi.mic_sample x = Some z /\
                        -32767 <= z <= 32767 /\
                        (if FloatWords.sign_of x then z <= 0 else 0 <= z))
            [FloatWords.f32_one; S754_zero true; FloatWords.f32_minus_one]
            pcm /\
    BotApi.mic_block 10 [FloatWords.f32_one; S754_zero true;
                         FloatWords.f32_minus_one] BotSpec.scenario3_start
    = Some (BotServer._mic_callback 10 pcm BotSpec.scenario3_start).
Proof.
  apply (MicFacts.mic_block_converts 10
           [FloatWords.f32_one; S754_zero true; FloatWords.f32_minus_one]
           BotSpec.scenario3_start).
  repeat constructor.
Defined.

(** ** The playback volume *)

Module PlaybackFacts.
Import BotServer BotSpec BotApi FloatWords VolumeFacts RoundFacts MicFacts.

(** An int16 other than 0 is a binary32 number, exactly. *)
Lemma f32_of_int16_exact s :
  INT16_MIN <= s <= INT16_MAX -> s <> 0 ->
  exists m e,
    f32_of_int16 s = S754_finite (s <? 0) m e /\
    e < 0 /\ Zpos m = Z.abs s * 2 ^ (- e) /\
    fexp32 (Zdigits2 (Zpos m) + e) = e.
Proof.
  unfold INT16_MIN, INT16_MAX. intros Hs Hs0.
  assert (Hgen : forall sx p, Zpos p <= 32768 ->
    exists m e,
      binary_round 24 128 sx p 0 = S754_finite sx m e /\
      e < 0 /\ Zpos m = Zpos p * 2 ^ (- e) /\
      fexp32 (Zdigits2 (Zpos m) + e) = e).
  { intros sx p Hp. unfold binary_round.
    assert (Hd : Zdigits2 (Zpos p) <= 16) by (apply Zdigits2_le; lia).
    assert (Hd1 : 1 <= Zdigits2 (Zpos p)) by (simpl; lia).
    change (Zpos (digits2_pos p)) with (Zdigits2 (Zpos p)).
    pose proof (shl_align_spec p 0 (fexp32 (Zdigits2 (Zpos p) + 0)))
      as (_ & _ & H3 & H4 & H5).
    destruct (shl_align p 0 _) as [mz ez]. cbn [fst snd] in *.
    assert (Hez : ez = Zdigits2 (Zpos p) - 24).
    { rewrite H3; unfold fexp, emin; lia. }
    assert (Hc : fexp32 (Zdigits2 (Zpos mz) + ez) = ez).
    { rewrite H5. unfold fexp, emin. lia. }
    exists mz, ez.
    pose proof (round_exact sx mz ez 0 ltac:(lia) Hc ltac:(lia)) as Hr.
    rewrite Z.pow_0_r, Z.mul_1_r, Z.sub_0_r in Hr.
    split; [exact Hr|]. split; [lia|]. split; [|done].
    rewrite H4, Z.sub_0_l. done. }
  destruct s as [|p|p]; [done| |].
  - destruct (Hgen false p ltac:(lia)) as (m & e & H).
    exists m, e. exact H.
  - destruct (Hgen true p ltac:(lia)) as (m & e & H).
    exists m, e. exact H.
Qed.

Lemma f32_of_int16_within s :
  INT16_MIN <= s <= INT16_MAX ->
  valid_binary 24 128 (f32_of_int16 s) = true /\
  within (f32_of_int16 s) (s <? 0) (Z.abs s) /\
  trunc_float (f32_of_int16 s) = Some s.
Proof.
  intros Hs. destruct (Z.eq_dec s 0) as [->|Hs0]; [done|].
  destruct (f32_of_int16_exact s Hs Hs0) as (m & e & -> & He & Hm & Hc).
  assert (H2 : 0 < 2 ^ (- e)) by (apply Z.pow_pos_nonneg; lia).
  split; [|split].
  - cbn [valid_binary]. unfold bounded, canonical_mantissa.
    change (Zpos (digits2_pos m)) with (Zdigits2 (Zpos m)).
    rewrite Hc, Z.eqb_refl. apply Z.leb_le. lia.
  - split; [done|]. unfold below. rewrite Z.max_r, Z.max_l by lia.
    rewrite Z.pow_0_r. lia.
  - cbn [trunc_float]. destruct e as [|q|q]; [lia|lia|].
    rewrite Hm. change (- Zneg q) with (Zpos q) in *.
    rewrite Z.shiftr_div_pow2, Z.div_mul by lia.
    f_equal. destruct (Z.ltb_spec s 0); lia.
Qed.

(** A volume between 0.0 and 1.0 as a binary32 number. *)
Lemma f32_of_f64_within v :
  valid_binary 53 1024 v = true -> in_unit v = true ->
  valid_binary 24 128 (f32_of_f64 v) = true /\
  ((exists s, f32_of_f64 v = S754_zero s) \/ within (f32_of_f64 v) false 1).
Proof.
  intros Hv Hu. apply andb_true_iff in Hu as [H0 H1].
  destruct v as [s|s| |s m e]; [split; [done|eauto]|by destruct s|done|].
  destruct s; [done|]. unfold f32_of_f64.
  split; [apply binary_round_valid|]. right.
  apply binary_round_within; [lia|].
  simpl in Hv. apply andb_true_iff in Hv as [Hc _].
  unfold canonical_mantissa, fexp, emin in Hc. apply Z.eqb_eq in Hc.
  change (Zpos (digits2_pos m)) with (Zdigits2 (Zpos m)) in Hc.
  assert (Hm : Zpos m < 2 ^ 53) by (apply Zdigits2_le; lia).
  assert (He : e < -52 \/ (e = -52 /\ Zpos m <= 4503599627370496)).
  { revert H1. unfold SFleb, f64_one. cbn [SFcompare].
    destruct (Z.compare_spec e (-52)) as [->|Hlt|Hgt]; [|lia|done].
    intros H. right. split; [done|]. apply pos_compare_le.
    destruct (Pos.compare_cont Eq m 4503599627370496); done. }
  apply (below_scaled (Zpos m) e 1 (- e)); [lia|lia|].
  rewrite Z.add_opp_diag_r, Z.pow_0_r, Z.mul_1_r, Z.mul_1_l.
  destruct He as [He|[-> He]].
  - assert (2 ^ 53 <= 2 ^ (- e)) by (apply Z.pow_le_mono_r; lia). lia.
  - change (2 ^ (- -52)) with 4503599627370496. exact He.
Qed.

Lemma pos_le_compare (m c : positive) :
  Zpos m <= Zpos c ->
  Pos.compare_cont Eq m c <> Gt /\ Pos.compare_cont Eq c m <> Lt.
Proof.
  intros H.
  change (Pos.compare_cont Eq m c) with (m ?= c)%positive.
  change (Pos.compare_cont Eq c m) with (c ?= m)%positive.
  destruct (Pos.compare_spec m c), (Pos.compare_spec c m); split; done || lia.
Qed.

(** A binary32 number within the int16 range is not changed by the
    clip. *)
Lemma no_clip x sx N :
  valid_binary 24 128 x = true -> within x sx N ->
  N <= (if sx then 32768 else 32767) ->
  clamp x INT16_MIN INT16_MAX = x.
Proof.
  intros Hv Hw HN. unfold clamp, INT16_MIN, INT16_MAX. rewrite f32_lo, f32_hi.
  destruct x as [s|s| |s m e]; [by destruct s|done|done|].
  destruct Hw as [-> Hb]. cbn [valid_binary] in Hv. unfold bounded in Hv.
  apply andb_true_iff in Hv as [Hc _].
  apply canonical_digits in Hc as [Hc Hm].
  pose proof (Zdigits2_pow (Zpos m) ltac:(lia)) as Hp.
  assert (Hnorm : -149 < e -> 2 ^ 23 <= Zpos m).
  { intros He. replace 23 with (Zdigits2 (Zpos m) - 1); [done|].
    unfold fexp, emin in Hc. lia. }
  assert (Hbig : forall k, - k < e -> 0 <= k -> N * 2 ^ k < 2 ^ 23 * 2 ->
                 -149 < e -> False).
  { intros k Hk Hk0 HNk He. specialize (Hnorm He).
    apply (below_scaled (Zpos m) e N k) in Hb; [|lia|lia].
    assert (H2 : 2 ^ 1 <= 2 ^ (e + k)) by (apply Z.pow_le_mono_r; lia).
    change (2 ^ 1) with 2 in H2.
    assert (H3 : 2 ^ 23 * 2 <= Zpos m * 2 ^ (e + k))
      by (apply Z.mul_le_mono_nonneg; [done|exact Hnorm|done|exact H2]).
    apply (Z.lt_irrefl (2 ^ 23 * 2)).
    eapply Z.le_lt_trans; [|exact HNk]. etransitivity; [exact H3|exact Hb]. }
  destruct sx; cbn iota in HN.
  - assert (H1 : SFltb (S754_finite true m e) (S754_finite true 8388608 (-8))
                 = false).
    { unfold SFltb. cbn [SFcompare].
      destruct (Z.compare_spec e (-8)) as [->|Hlt|Hgt]; [|done|].
      - change (Zpos m * 1 <= N * 256) in Hb.
        pose proof (pos_le_compare m 8388608 ltac:(lia)) as [Hne _].
        destruct (Pos.compare_cont Eq m 8388608); done.
      - exfalso. apply (Hbig 8); [lia|lia| |lia].
        change (2 ^ 8) with 256. change (2 ^ 23) with 8388608. lia. }
    rewrite H1. done.
  - assert (H1 : SFltb (S754_finite false 16776704 (-9)) (S754_finite false m e)
                 = false).
    { unfold SFltb. cbn [SFcompare].
      destruct (Z.compare_spec (-9) e) as [<-|Hlt|Hgt]; [| |done].
      - change (Zpos m * 1 <= N * 512) in Hb.
        pose proof (pos_le_compare m 16776704 ltac:(lia)) as [_ Hne].
        destruct (Pos.compare_cont Eq 16776704 m); done.
      - exfalso. apply (Hbig 9); [lia|lia| |lia].
        change (2 ^ 9) with 512. change (2 ^ 23) with 8388608. lia. }
    change (SFltb (S754_finite false m e) (S754_finite true 8388608 (-8)))
      with false.
    cbn iota. rewrite H1. done.
Qed.

(** What _playback_thread makes of a sample whose product with the
    volume is a binary32 number within the int16 range. *)
Lemma scale_within v s sx N :
  valid_binary 24 128 (f32_mul (f32_of_int16 s) (f32_of_f64 v)) = true ->
  within (f32_mul (f32_of_int16 s) (f32_of_f64 v)) sx N ->
  0 <= N <= (if sx then 32768 else 32767) ->
  exists z, scale_sample v s = Some z /\
            trunc_float (f32_mul (f32_of_int16 s) (f32_of_f64 v)) = Some z /\
            (if sx then - N <= z <= 0 else 0 <= z <= N).
Proof.
  intros Hv Hw HN. unfold scale_sample.
  rewrite np_clip_clamp, (no_clip _ sx N Hv Hw) by lia.
  destruct (trunc_within _ _ _ Hw ltac:(lia)) as (z & Hz & Hr).
  exists z. split; [|done].
  apply astype_in_range; [done|]. unfold INT16_MIN, INT16_MAX.
  destruct sx; lia.
Qed.

Lemma f32_of_one : f32_of_f64 f64_one = S754_finite false 8388608 (-23).
Proof. vm_compute. reflexivity. Qed.

Lemma scale_full s :
  INT16_MIN <= s <= INT16_MAX -> scale_sample f64_one s = Some s.
Proof.
  intros Hs. destruct (Z.eq_dec s 0) as [->|Hs0]; [vm_compute; reflexivity|].
  destruct (f32_of_int16_within s Hs) as (Hv & Hw & Ht).
  assert (Hmul : f32_mul (f32_of_int16 s) (f32_of_f64 f64_one)
                 = f32_of_int16 s).
  { rewrite f32_of_one.
    destruct (f32_of_int16_exact s Hs Hs0) as (m & e & -> & He & Hm & Hc).
    unfold f32_mul. cbn [SFmul].
    assert (Hx : xorb (s <? 0) false = (s <? 0)) by (destruct (s <? 0); done).
    rewrite Hx, Pos2Z.inj_mul.
    exact (round_exact (s <? 0) m e 23 ltac:(lia) Hc ltac:(lia)). }
  destruct (scale_within f64_one s (s <? 0) (Z.abs s)) as (z & Hz & Hz' & _).
  - rewrite Hmul. done.
  - rewrite Hmul. done.
  - unfold INT16_MIN, INT16_MAX in Hs. destruct (Z.ltb_spec s 0); lia.
  - rewrite Hz. rewrite Hmul in Hz'. congruence.
Qed.

Lemma scale_silent v s sv :
  INT16_MIN <= s <= INT16_MAX -> f32_of_f64 v = S754_zero sv ->
  scale_sample v s = Some 0.
Proof.
  intros Hs Hz. unfold scale_sample. rewrite Hz, np_clip_clamp.
  destruct (f32_of_int16_spec s Hs) as [Hf _].
  destruct (f32_of_int16 s) as [s1|s1| |s1 m1 e1]; [|done|done|].
  - unfold f32_mul. cbn [SFmul]. destruct (xorb s1 sv); done.
  - unfold f32_mul. cbn [SFmul]. destruct (xorb s1 sv); done.
Qed.

(** X21. The playback volume never amplifies. For an int16 sample and
    a volume between 0.0 and 1.0 (a binary64 number), what
    _playback_thread writes for the sample is defined, is not larger
    in magnitude than the sample and is not of the opposite sign; the
    clip does not change the product. At volume 1.0 the sample is
    written unchanged and at volume 0.0 the output is 0; a chunk is
    scaled sample by sample, so at volume 1.0 the chunk written is the
    chunk received. *)
Theorem playback_never_amplifies v pcm :
  valid_binary 53 1024 v = true -> in_unit v = true ->
  Forall (fun s => INT16_MIN <= s <= INT16_MAX) pcm ->
  (exists out,
     scale_chunk v pcm = Some out /\
     Forall2 (fun s z => scale_sample v s = Some z /\
                         (0 <= s -> 0 <= z <= s) /\ (s <= 0 -> s <= z <= 0) /\
                         astype_int16 (f32_mul (f32_of_int16 s) (f32_of_f64 v))
                         = Some z)
             pcm out) /\
  scale_chunk f64_one pcm = Some pcm /\
  scale_chunk f64_zero pcm = Some (map (fun _ => 0) pcm).
Proof.
  intros Hv Hu Hall.
  assert (Hone : forall s, INT16_MIN <= s <= INT16_MAX ->
    exists z, scale_sample v s = Some z /\
              (0 <= s -> 0 <= z <= s) /\ (s <= 0 -> s <= z <= 0) /\
              astype_int16 (f32_mul (f32_of_int16 s) (f32_of_f64 v))
              = Some z).
  { intros s Hs.
    destruct (f32_of_int16_within s Hs) as (Hvs & Hws & _).
    destruct (f32_of_f64_within v Hv Hu) as (Hvv & [[sv Hz]|Hwv]).
    - exists 0. split; [eapply scale_silent; eauto|].
      split; [lia|]. split; [lia|]. rewrite Hz.
      destruct (f32_of_int16_spec s Hs) as [Hf _].
      destruct (f32_of_int16 s) as [s1|s1| |s1 m1 e1]; try done;
        unfold f32_mul; cbn [SFmul]; destruct (xorb s1 sv); done.
    - pose proof (mul_valid _ _ Hvs Hvv) as Hvp.
      pose proof (mul_within _ _ _ _ _ _ Hws Hwv ltac:(lia) ltac:(lia)) as Hwp.
      unfold INT16_MIN, INT16_MAX in Hs.
      rewrite Z.mul_1_r, xorb_false_r in Hwp.
      specialize (Hwp ltac:(lia)).
      destruct (scale_within v s (s <? 0) (Z.abs s) Hvp Hwp) as (z & Hz & Ht & Hr).
      { destruct (Z.ltb_spec s 0); lia. }
      exists z. split; [done|].
      assert (Hzr : (0 <= s -> 0 <= z <= s) /\ (s <= 0 -> s <= z <= 0))
        by (destruct (Z.ltb_spec s 0); lia).
      split; [tauto|]. split; [tauto|].
      apply astype_in_range; [done|]. unfold INT16_MIN, INT16_MAX.
      destruct (Z.ltb_spec s 0); lia. }
  split; [|split].
  - induction Hall as [|s l Hs _ IH].
    + exists []. split; [done|constructor].
    + destruct IH as (out & Ho & Hf).
      destruct (Hone s Hs) as (z & Hz & Hr).
      exists (z :: out). cbn [scale_chunk]. rewrite Hz, Ho.
      split; [done|]. constructor; done.
  - induction Hall as [|s l Hs _ IH]; [done|].
    cbn [scale_chunk]. rewrite (scale_full s Hs), IH. done.
  - induction Hall as [|s l Hs _ IH]; [done|].
    cbn [scale_chunk map].
    rewrite (scale_silent f64_zero s false Hs eq_refl), IH. done.
Qed.

End PlaybackFacts.

Lemma playback_never_amplifies_witness :
  (exists out,
     BotServer.scale_chunk BotSpec.f64_0_7 [10; -32768; 0] = Some out /\
     Forall2 (fun s z => BotServer.scale_sample BotSpec.f64_0_7 s = Some z /\
                         (0 <= s -> 0 <= z <= s) /\ (s <= 0 -> s <= z <= 0) /\
                         BotServer.astype_int16
                           (BotServer.f32_mul (BotServer.f32_of_int16 s)
                              (BotServer.f32_of_f64 BotSpec.f64_0_7))
                         = Some z)
             [10; -32768; 0] out) /\
  BotServer.scale_chunk BotServer.f64_one [10; -32768; 0]
    = Some [10; -32768; 0] /\
  BotServer.scale_chunk BotServer.f64_zero [10; -32768; 0]
    = Some (map (fun _ => 0) [10; -32768; 0]).
Proof.
  apply (PlaybackFacts.playback_never_amplifies BotSpec.f64_0_7
           [10; -32768; 0]).
  - reflexivity.
  - reflexivity.
  - repeat constructor; unfold BotServer.INT16_MIN, BotServer.INT16_MAX; lia.
Defined.
